(** * Candle reconciliation core of GoldRushHyperliquidUI.tsx

    A shallow embedding of the three pieces of logic that live inside the
    component [src/components/GoldRushHyperliquidUI.tsx]:

    - the trade aggregation done by the [setHlCandles] updater
      (lines 74-106),
    - the candle merge done by the [setGrCandles] updater (lines 163-197),
    - the metrics effect (lines 215-238),

    together with the component state they act on.

    Numbers.  A JavaScript number is an IEEE 754 binary64 value; prices,
    sizes, volumes and metrics are modelled by [spec_float] at precision 53
    and maximal exponent 1024, with the operations of the Standard Library's
    executable specification of binary64 ([SFadd], [SFdiv], ...).

    Timestamps.  The [ts] of a candle is produced either by
    [Math.floor(trade.time / 60000) * 60000] on an integer epoch-millisecond
    time, or by [new Date(c.timestamp).getTime()], which ECMAScript defines
    to be an integral number of milliseconds or NaN.  Such a value is
    modelled by [TimeValue]: an integer or the invalid time (NaN).  The
    three things the component does with a timestamp are shown to agree
    with their binary64 reading: the bucket computation on every integer
    time from 0 to below 2^53 ([bucketStart_number_correct]), the strict
    equality [===] and the sign of the difference that the sort comparator
    returns on time values of magnitude below 2^53 ([ts_eqb_number],
    [compareTs_number]).

    Decoding.  [JSON.parse], [parseFloat] and [new Date(...)] sit at the
    boundary: a [Trade] carries its [px] and [sz] as the numbers
    [parseFloat] returns for them, an [OhlcvRecord] carries the time value
    of its timestamp, and a field that is absent from a record is [None]. *)

From Stdlib Require Import String.
From Stdlib Require Import ZArith List Bool Lia Permutation Sorted.
From Stdlib Require Import SpecFloat.
Import ListNotations.
Open Scope Z_scope.

(* ================================================================== *)
(** * JavaScript numbers *)
(* ================================================================== *)

Module Num.

Definition number : Type := spec_float.

Definition prec : Z := 53.
Definition emax : Z := 1024.

Definition NaN : number := S754_nan.
Definition zero : number := S754_zero false.
Definition Infinity : number := S754_infinity false.

(** The binary64 value of an integer literal (rounded to nearest even,
    exact below 2^53). *)
Definition of_Z (z : Z) : number := binary_normalize prec emax z 0 false.
Definition of_nat (n : nat) : number := of_Z (Z.of_nat n).

Definition add : number -> number -> number := SFadd prec emax.
Definition sub : number -> number -> number := SFsub prec emax.
Definition mul : number -> number -> number := SFmul prec emax.
Definition div : number -> number -> number := SFdiv prec emax.

(** [x <= y], [x < y] and [x === y] on numbers: false as soon as one side
    is NaN. *)
Definition leb : number -> number -> bool := SFleb.
Definition ltb : number -> number -> bool := SFltb.
Definition eqb : number -> number -> bool := SFeqb.

Definition is_nan (x : number) : bool :=
  match x with S754_nan => true | _ => false end.

(** [Number.isFinite]. *)
Definition is_finite (x : number) : bool :=
  match x with S754_zero _ | S754_finite _ _ _ => true | _ => false end.

(** [Math.abs]. *)
Definition Math_abs : number -> number := SFabs.

(** [Math.max] of two arguments: NaN if either is NaN, [+0] above [-0]. *)
Definition Math_max (a b : number) : number :=
  match SFcompare a b with
  | None => NaN
  | Some Lt => b
  | Some Gt => a
  | Some Eq =>
      match a with
      | S754_zero true => b
      | _ => a
      end
  end.

(** [Math.min] of two arguments: NaN if either is NaN, [-0] below [+0]. *)
Definition Math_min (a b : number) : number :=
  match SFcompare a b with
  | None => NaN
  | Some Lt => a
  | Some Gt => b
  | Some Eq =>
      match a with
      | S754_zero false => b
      | _ => a
      end
  end.

(** [Math.floor]: the largest integer not above [x]; [x] itself when [x] is
    an integer, a zero, an infinity or NaN. *)
Definition Math_floor (x : number) : number :=
  match x with
  | S754_finite s m e =>
      if 0 <=? e then x
      else
        let n := cond_Zopp s (Zpos m) / 2 ^ (- e) in
        if n =? 0 then S754_zero s else of_Z n
  | _ => x
  end.

(** [Math.round]: the integer nearest to [x], ties going up; the sign of
    [x] is kept when the result is zero. *)
Definition Math_round (x : number) : number :=
  match x with
  | S754_finite s m e =>
      if 0 <=? e then x
      else
        let n := (2 * cond_Zopp s (Zpos m) + 2 ^ (- e)) / 2 ^ (- e + 1) in
        if n =? 0 then S754_zero s else of_Z n
  | _ => x
  end.

(** The decimal literal [n / 10^k] for integers [n] and [10^k] below 2^53:
    the correctly rounded quotient of two exact values is the binary64
    number nearest to the decimal. *)
Definition decimal (n : Z) (k : nat) : number :=
  div (of_Z n) (of_Z (10 ^ Z.of_nat k)).

End Num.

Import Num.

(* ================================================================== *)
(** * Time values *)
(* ================================================================== *)

(** A time value: an integral number of milliseconds since the epoch, or
    the NaN of an invalid date. *)
Inductive TimeValue : Type :=
| Ms (t : Z)
| InvalidTime.

(** [a === b] on time values; NaN is not equal to itself. *)
Definition ts_eqb (a b : TimeValue) : bool :=
  match a, b with
  | Ms x, Ms y => x =? y
  | _, _ => false
  end.

(** [a - b] on time values: [None] is NaN. *)
Definition ts_sub (a b : TimeValue) : option Z :=
  match a, b with
  | Ms x, Ms y => Some (x - y)
  | _, _ => None
  end.

Definition ts_valid (a : TimeValue) : bool :=
  match a with Ms _ => true | InvalidTime => false end.

(** The number a time value stands for. *)
Definition number_of_ts (a : TimeValue) : number :=
  match a with Ms z => of_Z z | InvalidTime => NaN end.

(** Integers that binary64 holds exactly (the time values of a Date lie
    within 8.64e15 of 0). *)
Definition safe (a : TimeValue) : Prop :=
  match a with Ms z => - 2 ^ 53 < z < 2 ^ 53 | InvalidTime => True end.

(** [Math.floor(time / 60000) * 60000] on an integer time: the value of
    the binary64 expression below for every time from 0 to below 2^53 ms
    ([bucketStart_number_correct]).  Beyond that range the binary64
    product is rounded and need not be a multiple of 60000. *)
Definition bucketStart (time : Z) : Z := (time / 60000) * 60000.

(** The same expression evaluated in binary64. *)
Definition bucketStart_number (time : number) : number :=
  mul (Math_floor (div time (of_Z 60000))) (of_Z 60000).

(* ================================================================== *)
(** * Data model *)
(* ================================================================== *)

(** [interface Candle]. *)
Record Candle : Type := mkCandle {
  ts : TimeValue;
  open : number;
  high : number;
  low : number;
  close : number;
  volume : number
}.

(** [interface Trade]; [px] and [sz] hold [parseFloat(trade.px)] and
    [parseFloat(trade.sz)]. *)
Record Trade : Type := mkTrade {
  coin : string;
  side : string;
  px : number;
  sz : number;
  time : Z;
  hash : string
}.

(** One element [c] of [ohlcvCandlesForToken]; [c_timestamp] holds
    [new Date(c.timestamp).getTime()], a numeric field missing from the
    record is [None]. *)
Record OhlcvRecord : Type := mkOhlcv {
  c_timestamp : TimeValue;
  c_open : option number;
  c_high : option number;
  c_low : option number;
  c_close : option number;
  c_volume : option number
}.

(** The [metrics] state. *)
Record Metrics : Type := mkMetrics {
  matchedPct : number;
  meanPriceBps : number;
  avgLatencyDiffMs : number
}.

(** The component state. *)
Record State : Type := mkState {
  hlCandles : list Candle;
  grCandles : list Candle;
  hlTrades : list Trade;
  logs : list string;
  metrics : Metrics
}.

(* ================================================================== *)
(** * Array helpers *)
(* ================================================================== *)

Section Arrays.
Context {A : Type}.

(** [l.slice(-n)]. *)
Definition slice_last (n : nat) (l : list A) : list A :=
  skipn (length l - n) l.

(** [l.slice(0, n)]. *)
Definition slice_first (n : nat) (l : list A) : list A := firstn n l.

(** [l[l.length - 1]]: [None] is [undefined]. *)
Fixpoint last_elem (l : list A) : option A :=
  match l with
  | [] => None
  | [x] => Some x
  | _ :: l' => last_elem l'
  end.

(** [l.findIndex(p)]: [None] is [-1]. *)
Fixpoint findIndex (p : A -> bool) (l : list A) : option nat :=
  match l with
  | [] => None
  | x :: l' =>
      if p x then Some O
      else match findIndex p l' with
           | Some i => Some (S i)
           | None => None
           end
  end.

(** [l[i] = x] for an index inside the array. *)
Fixpoint assign (i : nat) (x : A) (l : list A) : list A :=
  match l, i with
  | [], _ => []
  | _ :: l', O => x :: l'
  | y :: l', S j => y :: assign j x l'
  end.
End Arrays.

(* ================================================================== *)
(** * Trade aggregation (the [setHlCandles] updater) *)
(* ================================================================== *)

(** The candle appended for a trade that opens a bucket. *)
Definition freshCandle (b : TimeValue) (price size : number) : Candle :=
  {| ts := b; open := price; high := price; low := price;
     close := price; volume := size |}.

(** The candle that replaces the tail when a trade falls in its bucket. *)
Definition updatedCandle (last : Candle) (price size : number) : Candle :=
  {| ts := ts last;
     open := open last;
     high := Math_max (high last) price;
     low := Math_min (low last) price;
     close := price;
     volume := add (volume last) size |}.

(** The updater [prev => ...] passed to [setHlCandles], for a trade of
    bucket [b], price [price] and size [size]. *)
Definition updateHlCandles (b : TimeValue) (price size : number)
    (prev : list Candle) : list Candle :=
  match last_elem prev with
  | Some last =>
      if ts_eqb (ts last) b
      then removelast prev ++ [updatedCandle last price size]
      else slice_last 100 (prev ++ [freshCandle b price size])
  | None => slice_last 100 (prev ++ [freshCandle b price size])
  end.

(** The body of [newTrades.forEach], for a trade whose [time] is the
    integer number of milliseconds the message carries.  The bucket start
    is the one line 75 computes for a time from 0 to below 2^53 ms; every
    property that reads the value of a bucket start assumes that range
    ([timeInRange]). *)
Definition ingestTrade (prev : list Candle) (trade : Trade) : list Candle :=
  updateHlCandles (Ms (bucketStart (time trade))) (px trade) (sz trade) prev.

(** [newTrades.forEach(...)]: the queued updaters run in order. *)
Definition ingestTrades (newTrades : list Trade) (prev : list Candle)
    : list Candle :=
  fold_left ingestTrade newTrades prev.

(* ================================================================== *)
(** * Candle merge (the [setGrCandles] updater) *)
(* ================================================================== *)

(** A stored field reads as a number: [undefined] is NaN in every numeric
    use the component makes of it. *)
Definition field (v : option number) : number :=
  match v with Some n => n | None => NaN end.

(** [const candle: Candle = { ts, open: c.open, ... }]. *)
Definition candleOfRecord (c : OhlcvRecord) : Candle :=
  {| ts := c_timestamp c;
     open := field (c_open c);
     high := field (c_high c);
     low := field (c_low c);
     close := field (c_close c);
     volume := field (c_volume c) |}.

(** The body of [candles.forEach]: replace the first entry with the same
    [ts], or push. *)
Definition upsert (newCandles : list Candle) (candle : Candle) : list Candle :=
  match findIndex (fun nc => ts_eqb (ts nc) (ts candle)) newCandles with
  | Some existsIndex => assign existsIndex candle newCandles
  | None => newCandles ++ [candle]
  end.

Definition mergeBatch (candles : list OhlcvRecord) (prev : list Candle)
    : list Candle :=
  fold_left (fun newCandles c => upsert newCandles (candleOfRecord c))
            candles prev.

(** The comparator [(a, b) => a.ts - b.ts] as the sort reads it: a NaN
    result counts as [+0]. *)
Definition compareTs (a b : Candle) : Z :=
  match ts_sub (ts a) (ts b) with
  | Some v => v
  | None => 0
  end.

(** [Array.prototype.sort] is stable; with a consistent comparator, which
    [a.ts - b.ts] is when every [ts] is a valid time value, its result is
    the one of a stable insertion sort.  With a NaN [ts] the comparator is
    not consistent and the order of the result is left to the engine: of
    [sortCandles] only the length and the elements are the engine's
    then. *)
Fixpoint insertSorted (x : Candle) (l : list Candle) : list Candle :=
  match l with
  | [] => [x]
  | y :: l' =>
      if 0 <? compareTs x y then y :: insertSorted x l' else x :: y :: l'
  end.

Definition sortCandles (l : list Candle) : list Candle :=
  fold_right insertSorted [] l.

(** The updater [prev => ...] passed to [setGrCandles]. *)
Definition updateGrCandles (candles : list OhlcvRecord) (prev : list Candle)
    : list Candle :=
  slice_last 100 (sortCandles (mergeBatch candles prev)).

(* ================================================================== *)
(** * Metrics (the effect on [hlCandles], [grCandles]) *)
(* ================================================================== *)

(** The three accumulators of the effect.  [matches] and [count] are only
    ever incremented from 0, once per element of an array, so they are
    natural numbers (exact in binary64 for every array length). *)
Record Accum : Type := mkAccum {
  matches : nat;
  priceDiffSum : number;
  count : nat
}.

Definition accum0 : Accum :=
  {| matches := 0; priceDiffSum := zero; count := 0 |}.

(** [Math.abs(hl.close - gr.close) / hl.close]. *)
Definition priceDiff (hl gr : Candle) : number :=
  div (Math_abs (sub (close hl) (close gr))) (close hl).

(** [grCandles.find(c => c.ts === hl.ts)]. *)
Definition findMatch (grCandles : list Candle) (hl : Candle) : option Candle :=
  find (fun c => ts_eqb (ts c) (ts hl)) grCandles.

(** The body of [hlCandles.forEach]. *)
Definition metricsStep (grCandles : list Candle) (acc : Accum) (hl : Candle)
    : Accum :=
  match findMatch grCandles hl with
  | Some gr =>
      {| matches := S (matches acc);
         priceDiffSum := add (priceDiffSum acc) (priceDiff hl gr);
         count := S (count acc) |}
  | None => acc
  end.

Definition metricsLoop (hlCandles grCandles : list Candle) : Accum :=
  fold_left (metricsStep grCandles) hlCandles accum0.

Definition metrics0 : Metrics :=
  {| matchedPct := zero; meanPriceBps := zero; avgLatencyDiffMs := zero |}.

(** The object passed to [setMetrics]. *)
Definition computedMetrics (hlCandles grCandles : list Candle) : Metrics :=
  let acc := metricsLoop hlCandles grCandles in
  {| matchedPct :=
       if (0 <? count acc)%nat
       then Math_round (mul (div (of_nat (matches acc))
                                 (of_nat (length hlCandles)))
                            (of_Z 100))
       else zero;
     meanPriceBps :=
       if (0 <? count acc)%nat
       then mul (div (priceDiffSum acc) (of_nat (count acc))) (of_Z 10000)
       else zero;
     avgLatencyDiffMs := zero |}.

(** The effect: it returns early, leaving [metrics] as it is, when either
    series is empty. *)
Definition metricsEffect (hlCandles grCandles : list Candle) (prev : Metrics)
    : Metrics :=
  if ((length hlCandles =? 0) || (length grCandles =? 0))%nat
  then prev
  else computedMetrics hlCandles grCandles.

(* ================================================================== *)
(** * The component as a transition system *)
(* ================================================================== *)

(** [addLog]. *)
Definition addLog (msg : string) (prev : list string) : list string :=
  slice_first 50 (msg :: prev).

(** What the component reacts to.  [GrNext candles payload]: [candles] is
    [data?.data?.ohlcvCandlesForToken || data?.ohlcvCandlesForToken] when
    that is an array and [None] otherwise, [payload] is
    [JSON.stringify(data)]. *)
Inductive Event : Type :=
| WsTrades (newTrades : list Trade)
| WsOther
| GrNext (candles : option (list OhlcvRecord)) (payload : string)
| LogOnly (msg : string).

Definition init : State :=
  {| hlCandles := []; grCandles := []; hlTrades := []; logs := [];
     metrics := metrics0 |}.

(** [ws.onmessage] for the channel ['trades']. *)
Definition onTrades (newTrades : list Trade) (st : State) : State :=
  {| hlCandles := ingestTrades newTrades (hlCandles st);
     grCandles := grCandles st;
     hlTrades := slice_last 500 (hlTrades st ++ newTrades);
     logs := logs st;
     metrics := metrics st |}.

(** The [next] handler of the subscription. *)
Definition onGrNext (candles : option (list OhlcvRecord)) (payload : string)
    (st : State) : State :=
  match candles with
  | Some (c :: cs) =>
      {| hlCandles := hlCandles st;
         grCandles := updateGrCandles (c :: cs) (grCandles st);
         hlTrades := hlTrades st;
         logs := logs st;
         metrics := metrics st |}
  | _ =>
      {| hlCandles := hlCandles st;
         grCandles := grCandles st;
         hlTrades := hlTrades st;
         logs := addLog ("GR: Received empty or invalid data: " ++ payload)
                        (logs st);
         metrics := metrics st |}
  end.

Definition handle (st : State) (ev : Event) : State :=
  match ev with
  | WsTrades newTrades => onTrades newTrades st
  | WsOther => st
  | GrNext candles payload => onGrNext candles payload st
  | LogOnly msg =>
      {| hlCandles := hlCandles st; grCandles := grCandles st;
         hlTrades := hlTrades st; logs := addLog msg (logs st);
         metrics := metrics st |}
  end.

(** After the handler, the metrics effect runs on the new series. *)
Definition runEffect (st : State) : State :=
  {| hlCandles := hlCandles st; grCandles := grCandles st;
     hlTrades := hlTrades st; logs := logs st;
     metrics := metricsEffect (hlCandles st) (grCandles st) (metrics st) |}.

Definition step (st : State) (ev : Event) : State :=
  runEffect (handle st ev).

Definition run (evs : list Event) : State := fold_left step evs init.

(* ================================================================== *)
(** * Vocabulary of the properties *)
(* ================================================================== *)



Definition nonneg (x : number) : Prop := leb zero x = true.


Definition positive_finite (x : number) : Prop :=
  ltb zero x = true /\ is_finite x = true.



(** A trade and a candle by their numeric content, for the scenarios. *)
Definition trade (t px sz : Z) : Trade :=
  {| coin := "HYPE"; side := "B"; px := of_Z px; sz := of_Z sz;
     time := t; hash := "0x0" |}.

Definition candle (t o h l c v : Z) : Candle :=
  {| ts := Ms t; open := of_Z o; high := of_Z h; low := of_Z l;
     close := of_Z c; volume := of_Z v |}.



(** The invariant of a candle built from trades. *)
Definition candle_ok (c : Candle) : Prop :=
  leb (low c) (open c) = true /\ leb (open c) (high c) = true /\
  leb (low c) (close c) = true /\ leb (close c) (high c) = true /\
  nonneg (volume c) /\
  exists k, ts c = Ms (60000 * k).

Definition trade_ok (tr : Trade) : Prop :=
  positive_finite (px tr) /\ nonneg (sz tr).

(** The integer of a valid time value. *)
Definition tsZ (c : Candle) : Z :=
  match ts c with Ms z => z | InvalidTime => 0 end.

Definition valid (c : Candle) : Prop := ts_valid (ts c) = true.

(** A series in the sense of the data model: valid bucket starts, each
    at most once. *)
Definition wellKeyed (l : list Candle) : Prop :=
  Forall valid l /\ NoDup (map tsZ l).

(** Ascending by bucket start, strictly. *)
Definition ascending (l : list Candle) : Prop :=
  StronglySorted (fun a b => tsZ a < tsZ b) l.

(** What an entry [x] becomes when the candle [c] is merged: [c] if they
    share their bucket start. *)
Definition replaceBy (c x : Candle) : Candle :=
  if ts_eqb (ts x) (ts c) then c else x.

(** What an entry [x] becomes when the candles [cs] are merged in order. *)
Definition revise (cs : list Candle) (x : Candle) : Candle :=
  fold_left (fun x c => replaceBy c x) cs x.

Definition record_valid (r : OhlcvRecord) : Prop :=
  ts_valid (c_timestamp r) = true.

(** What the [next] handler does to [grCandles] for an array [candles]:
    nothing if it is empty, the updater otherwise. *)
Definition ingestCandles (candles : list OhlcvRecord) (prev : list Candle)
    : list Candle :=
  match candles with
  | [] => prev
  | _ :: _ => updateGrCandles candles prev
  end.

(** The record [r] with its close replaced. *)
Definition withClose (r : OhlcvRecord) (cl : option number) : OhlcvRecord :=
  {| c_timestamp := c_timestamp r; c_open := c_open r; c_high := c_high r;
     c_low := c_low r; c_close := cl; c_volume := c_volume r |}.

(** C2 as the specification words it: for every series and every batch. *)
Definition C2_as_stated : Prop :=
  forall (prev : list Candle) (batch : list OhlcvRecord),
    ingestCandles batch (ingestCandles batch prev) = ingestCandles batch prev.

(** C8 as the specification words it: for every series and every batch. *)
Definition C8_as_stated : Prop :=
  forall (prev : list Candle) (b1 b2 : list OhlcvRecord) (r : OhlcvRecord)
         (cl : option number),
    let s1 := ingestCandles (b1 ++ r :: b2) prev in
    let s2 := ingestCandles (b1 ++ withClose r cl :: b2) s1 in
    length s2 = length s1 /\
    forall i x, nth_error s1 i = Some x -> ts x <> c_timestamp r ->
                nth_error s2 i = Some x.

(** A record by its numeric content, for the scenarios. *)
Definition record (t : TimeValue) (o h l c v : Z) : OhlcvRecord :=
  {| c_timestamp := t; c_open := Some (of_Z o); c_high := Some (of_Z h);
     c_low := Some (of_Z l); c_close := Some (of_Z c);
     c_volume := Some (of_Z v) |}.

(** A series of 100 candles that holds the bucket start 5 twice, and a
    batch that revises bucket 5 and opens bucket 1000. *)
Definition twiceFive : list Candle :=
  candle 5 1 1 1 1 1 :: candle 5 2 2 2 2 2
    :: map (fun k => candle (Z.of_nat k) 1 1 1 1 1) (seq 6 98).

Definition reviseFive : list OhlcvRecord :=
  [record (Ms 5) 9 9 9 9 9; record (Ms 1000) 1 1 1 1 1].

(** Trades in non-decreasing timestamp order. *)
Definition inOrder (trs : list Trade) : Prop :=
  StronglySorted (fun a b => time a <= time b) trs.

(** An entry [e] of [before] is evicted when its bucket start no longer
    occurs in [after]. *)
Definition evicted (e : Candle) (before after : list Candle) : Prop :=
  In e before /\ ~ In (ts e) (map ts after).

(** The series after the batches [batches], ingested in order from the
    empty series. *)
Definition ingestAll (batches : list (list OhlcvRecord)) : list Candle :=
  fold_left (fun l b => ingestCandles b l) batches [].

(** C6 as the specification words it: both series stay within 100
    candles, and whatever an ingest evicts is below everything it keeps. *)
Definition C6_as_stated : Prop :=
  (forall evs,
     (length (hlCandles (run evs)) <= 100)%nat /\
     (length (grCandles (run evs)) <= 100)%nat) /\
  (forall trs tr e,
     let prev := ingestTrades trs [] in
     let next := ingestTrade prev tr in
     evicted e prev next -> Forall (fun x => tsZ e <= tsZ x) next) /\
  (forall batches batch e,
     let prev := ingestAll batches in
     let next := ingestCandles batch prev in
     evicted e prev next -> Forall (fun x => tsZ e <= tsZ x) next).

(** One trade per minute [k], each of price and size 1. *)
Definition minuteTrades (ks : list nat) : list Trade :=
  map (fun k => trade (60000 * Z.of_nat k) 1 1) ks.

(* ------------------------------------------------------------------ *)
(** ** The Reconciler in the words of the specification *)

(** A candle of series A is matched when series B holds a candle with an
    identical bucket start. *)
Definition matched (seriesB : list Candle) (a : Candle) : bool :=
  existsb (fun b => ts_eqb (ts b) (ts a)) seriesB.

Definition matchedCandles (seriesA seriesB : list Candle) : list Candle :=
  filter (matched seriesB) seriesA.

(** [|closeA - closeB| / closeA] for a matched candle of series A. *)
Definition deviation (seriesB : list Candle) (a : Candle) : number :=
  match findMatch seriesB a with
  | Some b => priceDiff a b
  | None => zero
  end.

Definition deviationSum (seriesA seriesB : list Candle) : number :=
  fold_left add (map (deviation seriesB) (matchedCandles seriesA seriesB)) zero.

Definition matchCount (seriesA seriesB : list Candle) : nat :=
  length (matchedCandles seriesA seriesB).

Definition eitherEmpty (seriesA seriesB : list Candle) : bool :=
  ((length seriesA =? 0) || (length seriesB =? 0))%nat.

(** [matchedFraction = matchCount / |seriesA|], zero when either series
    is empty. *)
Definition spec_matchedFraction (seriesA seriesB : list Candle) : number :=
  if eitherEmpty seriesA seriesB then zero
  else div (of_nat (matchCount seriesA seriesB)) (of_nat (length seriesA)).

(** [meanPriceDeviationBps = 10000 x (sum / matchCount)] when
    [matchCount > 0], else 0; zero when either series is empty. *)
Definition spec_meanPriceDeviationBps (seriesA seriesB : list Candle)
    : number :=
  if eitherEmpty seriesA seriesB then zero
  else if (0 <? matchCount seriesA seriesB)%nat
       then mul (of_Z 10000)
                (div (deviationSum seriesA seriesB)
                     (of_nat (matchCount seriesA seriesB)))
       else zero.

(** What the effect computes, in the same vocabulary: the matched share
    is a percentage rounded to an integer. *)
Definition roundedMatchedPct (seriesA seriesB : list Candle) : number :=
  if (0 <? matchCount seriesA seriesB)%nat
  then Math_round (mul (div (of_nat (matchCount seriesA seriesB))
                            (of_nat (length seriesA)))
                       (of_Z 100))
  else zero.

Definition meanDeviationBps (seriesA seriesB : list Candle) : number :=
  if (0 <? matchCount seriesA seriesB)%nat
  then mul (of_Z 10000)
           (div (deviationSum seriesA seriesB)
                (of_nat (matchCount seriesA seriesB)))
  else zero.

(** A candle that only its bucket start and its close tell apart. *)
Definition closeCandle (t : Z) (c : number) : Candle :=
  {| ts := Ms t; open := c; high := c; low := c; close := c;
     volume := of_Z 1 |}.

Definition scenarioA : list Candle :=
  [closeCandle 60000 (of_Z 10); closeCandle 120000 (of_Z 11)].

Definition scenarioB : list Candle := [closeCandle 60000 (decimal 101 1)].

(** C3 as the specification words it. *)
Definition C3_as_stated : Prop :=
  forall (seriesA seriesB : list Candle) (prev : Metrics),
    matchedPct (metricsEffect seriesA seriesB prev)
    = spec_matchedFraction seriesA seriesB /\
    meanPriceBps (metricsEffect seriesA seriesB prev)
    = spec_meanPriceDeviationBps seriesA seriesB.

(** [x === 0]. *)
Definition is_zero (x : number) : bool :=
  match x with S754_zero _ => true | _ => false end.

(** C4 as the specification words it: a matched candle of series A whose
    close is 0 adds nothing to the sum or to its divisor, and the mean is
    always a finite number. *)
Definition C4_as_stated : Prop :=
  forall (hl gr : list Candle),
    meanPriceBps (computedMetrics hl gr)
    = meanPriceBps
        (computedMetrics (filter (fun a => negb (is_zero (close a))) hl) gr)
    /\
    is_finite (meanPriceBps (computedMetrics hl gr)) = true.

(** A record with a required numeric field missing or not finite. *)
Definition wellFormed (v : option number) : bool :=
  match v with Some n => is_finite n | None => false end.

Definition malformed (r : OhlcvRecord) : Prop :=
  (wellFormed (c_open r) && wellFormed (c_high r) && wellFormed (c_low r)
   && wellFormed (c_close r) && wellFormed (c_volume r))%bool = false.

(** C9 as the specification words it: a malformed record never enters
    the series and a diagnostic is logged for it. *)
Definition C9_as_stated : Prop :=
  forall (st : State) (batch : list OhlcvRecord) (payload : string)
         (r : OhlcvRecord),
    In r batch -> malformed r ->
    ~ In (candleOfRecord r) (grCandles (onGrNext (Some batch) payload st)) /\
    logs (onGrNext (Some batch) payload st) <> logs st.

(* ================================================================== *)
(** * Views and histories *)
(* ================================================================== *)

(** [hlTrades.slice().reverse()]: the rows of the raw trades panel. *)
Definition tradeRows (st : State) : list Trade := rev (hlTrades st).

(** [grCandles.slice().reverse()]: the rows of the candle table. *)
Definition candleRows (st : State) : list Candle := rev (grCandles st).

(** What a run received: the trades of its trade messages, its candle
    arrays, and the messages it passed to [addLog], each in arrival
    order. *)
Definition tradesOf (evs : list Event) : list Trade :=
  flat_map (fun ev => match ev with WsTrades trs => trs | _ => [] end) evs.

Definition batchesOf (evs : list Event) : list (list OhlcvRecord) :=
  flat_map (fun ev => match ev with
                      | GrNext (Some candles) _ => [candles]
                      | _ => []
                      end) evs.

Definition logged (ev : Event) : list string :=
  match ev with
  | LogOnly msg => [msg]
  | GrNext (Some (_ :: _)) _ => []
  | GrNext _ payload =>
      [("GR: Received empty or invalid data: " ++ payload)%string]
  | _ => []
  end.

Definition messagesOf (evs : list Event) : list string :=
  flat_map logged evs.

(** Every candle array of the run holds records with valid timestamps. *)
Definition validFeed (evs : list Event) : Prop :=
  Forall (Forall record_valid) (batchesOf evs).

(** Descending by bucket start, strictly. *)
Definition descending (l : list Candle) : Prop :=
  StronglySorted (fun a b => tsZ b < tsZ a) l.

(** [p] is a whole percentage nearest to [100 m / n]. *)
Definition nearestPct (m n p : Z) : Prop :=
  0 <= p <= 100 /\ Z.abs (200 * m - 2 * n * p) <= n.

(** [Math.round((matches / hlCandles.length) * 100)]. *)
Definition pctOf (m n : nat) : number :=
  Math_round (mul (div (of_nat m) (of_nat n)) (of_Z 100)).

(** Equality of two numbers as data. *)
Definition number_same (a b : number) : bool :=
  match a, b with
  | S754_zero s, S754_zero s' => Bool.eqb s s'
  | S754_infinity s, S754_infinity s' => Bool.eqb s s'
  | S754_nan, S754_nan => true
  | S754_finite s m e, S754_finite s' m' e' =>
      Bool.eqb s s' && (m =? m')%positive && (e =? e')
  | _, _ => false
  end.

(** [pctOf m n] is a whole percentage nearest to [100 m / n]: the one
    rounded half up, or the one below it. *)
Definition pctCheck (m n : nat) : bool :=
  let up := (200 * Z.of_nat m + Z.of_nat n) / (2 * Z.of_nat n) in
  existsb (fun p => number_same (pctOf m n) (of_Z p)
                    && (0 <=? p) && (p <=? 100)
                    && (Z.abs (200 * Z.of_nat m - 2 * Z.of_nat n * p)
                        <=? Z.of_nat n))
          [up; up - 1].

(* ------------------------------------------------------------------ *)
(** ** Trade times and binary64 *)

(** The time of the trade is an integer number of milliseconds from 0 to
    below 2^53: the range in which [Math.floor(time / 60000) * 60000],
    evaluated in binary64, is the integer [bucketStart time]. *)
Definition timeInRange (tr : Trade) : Prop := 0 <= time tr < 2 ^ 53.

(** The integer a number is, when it is one. *)
Definition integerValue (x : number) : option Z :=
  match x with
  | S754_zero _ => Some 0
  | S754_finite s m e =>
      if 0 <=? e then Some (cond_Zopp s (Zpos m * 2 ^ e))
      else if Zpos m mod 2 ^ (- e) =? 0
           then Some (cond_Zopp s (Zpos m / 2 ^ (- e)))
           else None
  | _ => None
  end.

(** [x] is an exact multiple of the bucket width. *)
Definition multipleOfBucketWidth (x : number) : Prop :=
  exists k, integerValue x = Some (60000 * k).

(** The bucket start that the aggregator computes for a trade, in
    binary64. *)
Definition bucketOfTrade (tr : Trade) : number :=
  bucketStart_number (of_Z (time tr)).

(** C7 as the specification words it: for every trade with a positive
    finite price and a non-negative size, whatever its time, the bucket
    start computed for it is an exact multiple of 60000. *)
Definition C7_as_stated : Prop :=
  forall tr : Trade, trade_ok tr -> multipleOfBucketWidth (bucketOfTrade tr).

(** One candle record per minute [k], each field 1. *)
Definition minuteRecords (ks : list nat) : list OhlcvRecord :=
  map (fun k => record (Ms (60000 * Z.of_nat k)) 1 1 1 1 1) ks.

(* ================================================================== *)
(** * Properties *)
(* ================================================================== *)

(* ------------------------------------------------------------------ *)
(** ** The number model on sample values *)

(** The literal [10.1] is [0x1.4333333333333p+3]. *)
Example decimal_10_1 :
  decimal 101 1 = S754_finite false 5685794529555251 (-49).
Proof. vm_compute. reflexivity. Qed.

Example Math_round_ties :
  Math_round (decimal 25 1) = of_Z 3 /\
  Math_round (decimal (-25) 1) = of_Z (-2) /\
  Math_round (decimal (-5) 1) = S754_zero true /\
  Math_round (decimal 4 1) = zero.
Proof. vm_compute. repeat split. Qed.

Example Math_max_zeros :
  Math_max (S754_zero true) zero = zero /\
  Math_min zero (S754_zero true) = S754_zero true /\
  Math_max NaN (of_Z 1) = NaN.
Proof. vm_compute. repeat split. Qed.

(* ------------------------------------------------------------------ *)
(** ** Order and sign of numbers *)

Lemma compare_cont_Eq (p q : positive) : Pos.compare_cont Eq p q = (p ?= q)%positive.
Proof. reflexivity. Qed.

Ltac cmp_cases :=
  repeat match goal with
  | |- context [Z.compare ?a ?b] => destruct (Z.compare_spec a b)
  | H : context [Z.compare ?a ?b] |- _ => destruct (Z.compare_spec a b)
  | |- context [Pos.compare ?a ?b] => destruct (Pos.compare_spec a b)
  | H : context [Pos.compare ?a ?b] |- _ => destruct (Pos.compare_spec a b)
  end.

Lemma leb_refl x : is_nan x = false -> leb x x = true.
Proof.
  unfold leb, SFleb. destruct x as [s|s| |s m e]; simpl; try discriminate; intros _.
  - reflexivity.
  - destruct s; reflexivity.
  - rewrite compare_cont_Eq, Z.compare_refl, Pos.compare_refl. destruct s; reflexivity.
Qed.

Lemma leb_trans x y z : leb x y = true -> leb y z = true -> leb x z = true.
Proof.
  unfold leb, SFleb.
  destruct x as [sx|sx| |sx mx ex], y as [sy|sy| |sy my ey], z as [sz|sz| |sz mz ez];
    simpl; try discriminate; try reflexivity;
    repeat match goal with s : bool |- _ => destruct s end;
    simpl; try discriminate; try reflexivity;
    intros H1 H2;
    repeat (rewrite ?compare_cont_Eq in *; cmp_cases; simpl in *;
            try discriminate; try reflexivity; subst; try lia).
Qed.

Lemma compare_nan x y : SFcompare x y = None -> is_nan x = true \/ is_nan y = true.
Proof. destruct x, y; simpl; intros H; try discriminate; auto. Qed.

Lemma compare_total x y :
  is_nan x = false -> is_nan y = false -> exists c, SFcompare x y = Some c.
Proof. destruct x, y; simpl; intros; try discriminate; eauto. Qed.

Lemma compare_swap x y :
  SFcompare y x = match SFcompare x y with Some c => Some (CompOpp c) | None => None end.
Proof.
  destruct x as [sx|sx| |sx mx ex], y as [sy|sy| |sy my ey]; simpl; try reflexivity;
    repeat match goal with s : bool |- _ => destruct s end; simpl; try reflexivity;
    rewrite ?compare_cont_Eq;
    rewrite (Z.compare_antisym ex ey), (Pos.compare_antisym mx my);
    destruct (ex ?= ey); simpl; try reflexivity;
    destruct (mx ?= my)%positive; reflexivity.
Qed.

Lemma leb_total x y :
  is_nan x = false -> is_nan y = false -> leb x y = true \/ leb y x = true.
Proof.
  intros Hx Hy. unfold leb, SFleb. rewrite (compare_swap x y).
  destruct (compare_total x y Hx Hy) as [c ->]. destruct c; simpl; auto.
Qed.

Lemma Math_max_spec a b :
  is_nan a = false -> is_nan b = false ->
  (Math_max a b = a \/ Math_max a b = b) /\
  leb a (Math_max a b) = true /\ leb b (Math_max a b) = true.
Proof.
  intros Ha Hb. unfold Math_max.
  pose proof (leb_refl a Ha) as Ra. pose proof (leb_refl b Hb) as Rb.
  pose proof (compare_swap a b) as Sw.
  destruct (compare_total a b Ha Hb) as [c Hc]. rewrite Hc in *.
  assert (Lab : c <> Gt -> leb a b = true).
  { unfold leb, SFleb. rewrite Hc. destruct c; congruence. }
  assert (Lba : c <> Lt -> leb b a = true).
  { unfold leb, SFleb. rewrite Sw. destruct c; simpl; congruence. }
  destruct c.
  - destruct a as [[|]| | |]; repeat split; auto;
      try (apply Lab; discriminate); try (apply Lba; discriminate).
  - repeat split; auto. apply Lab; discriminate.
  - repeat split; auto. apply Lba; discriminate.
Qed.

Lemma Math_min_spec a b :
  is_nan a = false -> is_nan b = false ->
  (Math_min a b = a \/ Math_min a b = b) /\
  leb (Math_min a b) a = true /\ leb (Math_min a b) b = true.
Proof.
  intros Ha Hb. unfold Math_min.
  pose proof (leb_refl a Ha) as Ra. pose proof (leb_refl b Hb) as Rb.
  pose proof (compare_swap a b) as Sw.
  destruct (compare_total a b Ha Hb) as [c Hc]. rewrite Hc in *.
  assert (Lab : c <> Gt -> leb a b = true).
  { unfold leb, SFleb. rewrite Hc. destruct c; congruence. }
  assert (Lba : c <> Lt -> leb b a = true).
  { unfold leb, SFleb. rewrite Sw. destruct c; simpl; congruence. }
  destruct c.
  - destruct a as [[|]| | |]; repeat split; auto;
      try (apply Lab; discriminate); try (apply Lba; discriminate).
  - repeat split; auto. apply Lab; discriminate.
  - repeat split; auto. apply Lba; discriminate.
Qed.

Lemma leb_not_nan x y : leb x y = true -> is_nan x = false /\ is_nan y = false.
Proof. unfold leb, SFleb. destruct x, y; simpl; intros; try discriminate; auto. Qed.

Lemma iter_pos_inv {A} (f : A -> A) (P : A -> Prop) :
  (forall x, P x -> P (f x)) -> forall n x, P x -> P (iter_pos f n x).
Proof.
  intros Hf. induction n as [n IH|n IH|]; simpl; intros x Hx; auto.
Qed.

Lemma shr_1_nonneg mrs : 0 <= shr_m mrs -> 0 <= shr_m (shr_1 mrs).
Proof.
  destruct mrs as [m r s]. simpl.
  destruct m as [|[p|p|]|[p|p|]]; simpl; lia.
Qed.

Lemma shr_record_of_loc_m m l : shr_m (shr_record_of_loc m l) = m.
Proof. destruct l as [|[| |]]; reflexivity. Qed.

Lemma shr_fexp_nonneg m e l :
  0 <= m -> 0 <= shr_m (fst (shr_fexp prec emax m e l)).
Proof.
  intros Hm. unfold shr_fexp, shr.
  destruct (fexp prec emax (Zdigits2 m + e) - e) as [|p|p]; simpl;
    rewrite ?shr_record_of_loc_m; auto.
  apply iter_pos_inv; [apply shr_1_nonneg | now rewrite shr_record_of_loc_m].
Qed.

Lemma round_nearest_even_nonneg m l : 0 <= m -> 0 <= round_nearest_even m l.
Proof.
  intros Hm. destruct l as [|[| |]]; simpl; try lia. destruct (Z.even m); lia.
Qed.

Lemma binary_round_aux_nonneg m e l :
  0 <= m -> nonneg (binary_round_aux prec emax false m e l).
Proof.
  intros Hm. unfold binary_round_aux.
  pose proof (shr_fexp_nonneg m e l Hm) as H1.
  destruct (shr_fexp prec emax m e l) as [mrs' e'] eqn:E1. simpl in H1.
  pose proof (shr_fexp_nonneg _ e' loc_Exact
                (round_nearest_even_nonneg _ (loc_of_shr_record mrs') H1)) as H2.
  destruct (shr_fexp prec emax (round_nearest_even _ _) e' loc_Exact) as [mrs'' e''].
  simpl in H2. destruct (shr_m mrs'') as [|p|p]; try lia.
  - reflexivity.
  - destruct (e'' <=? emax - prec); reflexivity.
Qed.

Lemma nonneg_cases x :
  nonneg x <-> (exists s, x = S754_zero s) \/ x = S754_infinity false \/
               (exists m e, x = S754_finite false m e).
Proof.
  unfold nonneg, leb, SFleb, zero. split.
  - destruct x as [s|[|]| |[|] m e]; simpl; intros H; try discriminate; eauto.
  - intros [[s ->]|[->|(m & e & ->)]]; reflexivity.
Qed.

Lemma add_nonneg x y : nonneg x -> nonneg y -> nonneg (add x y).
Proof.
  intros Hx Hy. apply nonneg_cases in Hx, Hy.
  destruct Hx as [[sx ->]|[->|(mx & ex & ->)]];
  destruct Hy as [[sy ->]|[->|(my & ey & ->)]];
    try (apply nonneg_cases; simpl; eauto; fail).
  - apply nonneg_cases. left. destruct sx, sy; simpl; eauto.
  - unfold add, SFadd, binary_normalize. cbn [cond_Zopp].
    destruct (shl_align mx ex (Z.min ex ey)) as [a ?],
             (shl_align my ey (Z.min ex ey)) as [b ?].
    cbn [fst]. change (Z.pos a + Z.pos b) with (Z.pos (a + b)).
    unfold binary_round.
    destruct (shl_align _ _ _) as [mz ez]. apply binary_round_aux_nonneg. lia.
Qed.

Lemma ltb_not_nan x y : ltb x y = true -> is_nan x = false /\ is_nan y = false.
Proof. unfold ltb, SFltb. destruct x, y; simpl; intros; try discriminate; auto. Qed.

Lemma ltb_leb x y : ltb x y = true -> leb x y = true.
Proof. unfold ltb, leb, SFltb, SFleb. destruct (SFcompare x y) as [[| |]|]; auto. Qed.

(* ------------------------------------------------------------------ *)
(** ** Time values as binary64 numbers *)

Lemma digits2_pos_size p : digits2_pos p = Pos.size p.
Proof. induction p as [p IH|p IH|]; simpl; congruence. Qed.

Lemma digits_bounds p :
  2 ^ (Zpos (digits2_pos p) - 1) <= Zpos p < 2 ^ Zpos (digits2_pos p).
Proof.
  rewrite digits2_pos_size. split.
  - pose proof (Pos.size_le p) as H.
    apply Pos2Z.pos_le_pos in H. rewrite Pos2Z.inj_pow in H.
    replace (Zpos (Pos.size p)) with (Zpos (Pos.size p) - 1 + 1) in H by lia.
    rewrite Z.pow_add_r in H by lia.
    change (Zpos p~0) with (2 * Zpos p) in H. lia.
  - pose proof (Pos.size_gt p) as H.
    apply Pos2Z.pos_lt_pos in H. now rewrite Pos2Z.inj_pow in H.
Qed.

Lemma digits_unique p d :
  2 ^ (d - 1) <= Zpos p < 2 ^ d -> Zpos (digits2_pos p) = d.
Proof.
  intros [Hlo Hhi]. destruct (digits_bounds p) as [Blo Bhi].
  set (dp := Zpos (digits2_pos p)) in *.
  assert (0 < d).
  { destruct (Z.lt_trichotomy d 0) as [Hd|[Hd|Hd]]; [| |exact Hd].
    - rewrite Z.pow_neg_r in Hhi by lia. lia.
    - subst d. simpl in Hhi. lia. }
  destruct (Z.lt_trichotomy dp d) as [Hlt|[Heq|Hgt]]; [|exact Heq|].
  - assert (2 ^ dp <= 2 ^ (d - 1)) by (apply Z.pow_le_mono_r; lia). lia.
  - assert (2 ^ d <= 2 ^ (dp - 1)) by (apply Z.pow_le_mono_r; lia). lia.
Qed.

Lemma Zdigits2_unique z d :
  0 < z -> 2 ^ (d - 1) <= z < 2 ^ d -> Zdigits2 z = d.
Proof.
  intros Hz H. destruct z as [|p|p]; try lia. now apply digits_unique.
Qed.

Lemma iter_pos_nat {A} (f : A -> A) n x :
  iter_pos f n x = Nat.iter (Pos.to_nat n) f x.
Proof.
  revert x. induction n as [n IH|n IH|]; intros x; cbn [iter_pos].
  - rewrite !IH, Pos2Nat.inj_xI, <- Nat.iter_succ_r, <- Nat.iter_add.
    f_equal. lia.
  - rewrite !IH, Pos2Nat.inj_xO, <- Nat.iter_add. f_equal. lia.
  - reflexivity.
Qed.

Lemma shr_1_even m :
  0 <= m ->
  shr_1 {| shr_m := 2 * m; shr_r := false; shr_s := false |}
  = {| shr_m := m; shr_r := false; shr_s := false |}.
Proof. destruct m as [|p|p]; [reflexivity | reflexivity | lia]. Qed.

(** Shifting out zero bits loses nothing. *)
Lemma shr_exact n m :
  0 <= m ->
  iter_pos shr_1 n {| shr_m := m * 2 ^ Zpos n; shr_r := false; shr_s := false |}
  = {| shr_m := m; shr_r := false; shr_s := false |}.
Proof.
  intros Hm. rewrite iter_pos_nat, <- (positive_nat_Z n).
  induction (Pos.to_nat n) as [|k IH].
  - simpl. now rewrite Z.mul_1_r.
  - rewrite Nat2Z.inj_succ, Z.pow_succ_r, Nat.iter_succ_r by lia.
    replace (m * (2 * 2 ^ Z.of_nat k)) with (2 * (m * 2 ^ Z.of_nat k)) by lia.
    rewrite shr_1_even by (apply Z.mul_nonneg_nonneg; [lia | apply Z.pow_nonneg; lia]).
    exact IH.
Qed.

Lemma shl_pos m d : Zpos (Pos.iter xO m d) = Zpos m * 2 ^ Zpos d.
Proof.
  change (Pos.iter xO m d) with (shift_pos d m).
  rewrite shift_pos_correct, Z.pow_pos_fold. lia.
Qed.

Lemma fexp_normal k : emin prec emax <= k - prec -> fexp prec emax k = k - prec.
Proof. unfold fexp. lia. Qed.

(** Rounding a value that fits: [M] of 53 bits at exponent [E], written
    with [n] more low bits, all zero. *)
Lemma binary_round_aux_exact s M E n :
  2 ^ 52 <= Zpos M < 2 ^ 53 -> emin prec emax <= E <= emax - prec -> 0 <= n ->
  binary_round_aux prec emax s (Zpos M * 2 ^ n) (E - n) loc_Exact
  = S754_finite s M E.
Proof.
  intros HM HE Hn. unfold binary_round_aux.
  assert (Hd : Zdigits2 (Zpos M * 2 ^ n) = 53 + n).
  { assert (Hp : 0 < 2 ^ n) by (apply Z.pow_pos_nonneg; lia).
    assert (E1 : 2 ^ (53 + n - 1) = 2 ^ 52 * 2 ^ n).
    { rewrite <- Z.pow_add_r by lia. f_equal. lia. }
    assert (E2 : 2 ^ (53 + n) = 2 ^ 53 * 2 ^ n).
    { rewrite <- Z.pow_add_r by lia. reflexivity. }
    apply Zdigits2_unique; [nia|]. rewrite E1, E2. nia. }
  assert (Hshr : shr_fexp prec emax (Zpos M * 2 ^ n) (E - n) loc_Exact
                 = ({| shr_m := Zpos M; shr_r := false; shr_s := false |}, E)).
  { unfold shr_fexp. rewrite Hd.
    replace (53 + n + (E - n)) with (E + prec) by (unfold prec; lia).
    rewrite fexp_normal by lia.
    replace (E + prec - prec - (E - n)) with n by lia.
    unfold shr. cbn [shr_record_of_loc]. destruct n as [|n|n]; try lia.
    - now rewrite Z.mul_1_r, Z.sub_0_r.
    - rewrite shr_exact by lia. f_equal. lia. }
  rewrite Hshr. cbn [shr_m loc_of_shr_record round_nearest_even].
  assert (Hshr2 : shr_fexp prec emax (Zpos M) E loc_Exact
                  = ({| shr_m := Zpos M; shr_r := false; shr_s := false |}, E)).
  { unfold shr_fexp. cbn [Zdigits2]. rewrite (digits_unique M 53) by (simpl; lia).
    replace (53 + E) with (E + prec) by (unfold prec; lia).
    rewrite fexp_normal by lia.
    now replace (E + prec - prec - E) with 0 by lia. }
  rewrite Hshr2. cbn [shr_m].
  now replace (E <=? emax - prec) with true by (symmetry; apply Z.leb_le; lia).
Qed.

Lemma Zdigits2_bounds z :
  0 < z -> 2 ^ (Zdigits2 z - 1) <= z < 2 ^ Zdigits2 z.
Proof. destruct z as [|p|p]; try lia. intros _. apply digits_bounds. Qed.

Lemma Zdigits2_pos z : 0 < z -> 0 < Zdigits2 z.
Proof. destruct z as [|p|p]; simpl; lia. Qed.

Lemma Zdigits2_le z d : 0 < z < 2 ^ d -> Zdigits2 z <= d.
Proof.
  intros [Hz Hd]. destruct (Zdigits2_bounds z Hz) as [Hlo _].
  destruct (Z_le_gt_dec (Zdigits2 z) d) as [|Hgt]; [assumption|].
  assert (0 <= d).
  { destruct (Z_lt_le_dec d 0) as [Hneg|]; [|assumption].
    rewrite Z.pow_neg_r in Hd by lia. lia. }
  assert (2 ^ d <= 2 ^ (Zdigits2 z - 1)) by (apply Z.pow_le_mono_r; lia). lia.
Qed.

Lemma Zdigits2_mono a b : 0 < a <= b -> Zdigits2 a <= Zdigits2 b.
Proof.
  intros [Ha Hab]. apply Zdigits2_le. split; [assumption|].
  destruct (Zdigits2_bounds b) as [_ Hb]; lia.
Qed.

(** The binary64 value of a positive integer below 2^53: its 53-bit
    mantissa and its exponent. *)
Lemma of_Z_pos z :
  0 < z < 2 ^ 53 ->
  of_Z z = S754_finite false (Z.to_pos (z * 2 ^ (53 - Zdigits2 z)))
                       (Zdigits2 z - 53).
Proof.
  intros [Hz Hlt]. pose proof (Zdigits2_bounds z Hz) as [Blo Bhi].
  pose proof (Zdigits2_pos z Hz) as Hd0.
  pose proof (Zdigits2_le z 53 (conj Hz Hlt)) as Hd53.
  set (d := Zdigits2 z) in *.
  assert (Hpow : 0 < 2 ^ (53 - d)) by (apply Z.pow_pos_nonneg; lia).
  assert (HM : 2 ^ 52 <= z * 2 ^ (53 - d) < 2 ^ 53).
  { replace (2 ^ 52) with (2 ^ (d - 1) * 2 ^ (53 - d))
      by (rewrite <- Z.pow_add_r by lia; f_equal; lia).
    replace (2 ^ 53) with (2 ^ d * 2 ^ (53 - d))
      by (rewrite <- Z.pow_add_r by lia; f_equal; lia).
    nia. }
  destruct z as [|p|p]; try lia.
  unfold of_Z, binary_normalize, binary_round.
  change (Zpos (digits2_pos p)) with d. rewrite Z.add_0_r.
  rewrite fexp_normal by (unfold emin, prec, emax; lia).
  unfold shl_align. unfold prec. rewrite Z.sub_0_r.
  destruct (d - 53) as [|q|q] eqn:Ed; try lia.
  - replace (53 - d) with 0 in * by lia. rewrite Z.mul_1_r in *.
    rewrite Pos2Z.id.
    pose proof (binary_round_aux_exact false p 0 0) as H.
    rewrite Z.mul_1_r, Z.sub_0_r in H. apply H; [lia | | lia].
    unfold emin, emax, prec. lia.
  - replace (53 - d) with (Zpos q) in * by lia.
    rewrite <- shl_pos, Pos2Z.id.
    pose proof (binary_round_aux_exact false (Pos.iter xO p q) (Zneg q) 0) as H.
    rewrite Z.mul_1_r, Z.sub_0_r in H. apply H; [|unfold emin, emax, prec; lia | lia].
    now rewrite shl_pos.
Qed.

Lemma shr_1_spec m r s :
  0 <= m ->
  shr_1 {| shr_m := m; shr_r := r; shr_s := s |}
  = {| shr_m := m / 2; shr_r := Z.odd m; shr_s := r || s |}.
Proof.
  intros Hm. destruct m as [|[p|p|]|p]; try lia; simpl; f_equal.
  - change (Zpos p~1) with (2 * Zpos p + 1).
    symmetry. rewrite Z.add_comm, Z.mul_comm, Z.div_add by lia. reflexivity.
  - change (Zpos p~0) with (2 * Zpos p).
    symmetry. rewrite Z.mul_comm, Z.div_mul by lia. reflexivity.
Qed.

Lemma round_nearest_even_range m l :
  m <= round_nearest_even m l <= m + 1.
Proof. destruct l as [|[| |]]; simpl; try lia. destruct (Z.even m); lia. Qed.

Lemma loc_of_shr_of_loc m l : loc_of_shr_record (shr_record_of_loc m l) = l.
Proof. destruct l as [|[| |]]; reflexivity. Qed.

(** The last step of rounding: a mantissa of 53 bits is kept, 2^53 is
    renormalised. *)
Lemma shr_fexp_53 M e :
  2 ^ 52 <= M <= 2 ^ 53 -> emin prec emax <= e ->
  exists M' e',
    shr_fexp prec emax M e loc_Exact
    = ({| shr_m := Zpos M'; shr_r := false; shr_s := false |}, e') /\
    e <= e' <= e + 1 /\ Zpos M' * 2 ^ (e' - e) = M.
Proof.
  intros HM He. unfold shr_fexp. cbn [shr_record_of_loc].
  destruct (Z.eq_dec M (2 ^ 53)) as [->|Hne].
  - exists (Z.to_pos (2 ^ 52)), (e + 1).
    rewrite (Zdigits2_unique (2 ^ 53) 54) by (simpl; lia).
    replace (54 + e) with (e + 1 + prec) by (unfold prec; lia).
    rewrite fexp_normal by lia.
    replace (e + 1 + prec - prec - e) with 1 by lia.
    cbn [shr iter_pos]. split; [|split]; [reflexivity | lia |].
    replace (e + 1 - e) with 1 by lia. reflexivity.
  - assert (HM' : 0 < M) by lia.
    destruct M as [|p|p]; try lia.
    exists p, e. rewrite (Zdigits2_unique (Zpos p) 53) by lia.
    replace (53 + e) with (e + prec) by (unfold prec; lia).
    rewrite fexp_normal by lia.
    replace (e + prec - prec - e) with 0 by lia.
    cbn [shr]. split; [|split]; [reflexivity | lia |].
    rewrite Z.sub_diag. lia.
Qed.

(** Rounding a positive mantissa of 53 or 54 bits, with any location:
    the result, in units of [2^e], lies between [q] cut to an even number
    and [q + 1]. *)
Lemma binary_round_aux_bounds q e l :
  2 ^ 52 <= q < 2 ^ 54 -> emin prec emax <= e -> e + 2 <= emax - prec ->
  exists M E,
    binary_round_aux prec emax false q e l = S754_finite false M E /\
    e <= E <= e + 2 /\
    2 * (q / 2) <= Zpos M * 2 ^ (E - e) <= q + 1.
Proof.
  intros Hq He Hemax. unfold binary_round_aux.
  destruct (Z_lt_le_dec q (2 ^ 53)) as [H53|H54].
  - (* 53 bits: nothing is shifted out *)
    assert (Hs : shr_fexp prec emax q e l = (shr_record_of_loc q l, e)).
    { unfold shr_fexp. rewrite (Zdigits2_unique q 53) by lia.
      replace (53 + e) with (e + prec) by (unfold prec; lia).
      rewrite fexp_normal by lia.
      now replace (e + prec - prec - e) with 0 by lia. }
    rewrite Hs, shr_record_of_loc_m, loc_of_shr_of_loc.
    pose proof (round_nearest_even_range q l) as Hr.
    destruct (shr_fexp_53 (round_nearest_even q l) e) as (M' & e' & -> & He' & HV);
      [lia | lia |].
    cbn [shr_m]. exists M', e'.
    replace (e' <=? emax - prec) with true by (symmetry; apply Z.leb_le; lia).
    split; [reflexivity|]. split; [lia|]. rewrite HV.
    pose proof (Z.mul_div_le q 2). lia.
  - (* 54 bits: one bit is shifted out *)
    assert (Hs : shr_fexp prec emax q e l
                 = (shr_1 (shr_record_of_loc q l), e + 1)).
    { unfold shr_fexp. rewrite (Zdigits2_unique q 54) by lia.
      replace (54 + e) with (e + 1 + prec) by (unfold prec; lia).
      rewrite fexp_normal by lia.
      now replace (e + 1 + prec - prec - e) with 1 by lia. }
    rewrite Hs.
    assert (Hq2 : 2 ^ 52 <= q / 2 < 2 ^ 53).
    { split; [apply Z.div_le_lower_bound | apply Z.div_lt_upper_bound]; lia. }
    assert (Hdiv : q = 2 * (q / 2) + (if Z.odd q then 1 else 0)).
    { rewrite (Z.div_mod q 2) at 1 by lia. rewrite Zmod_odd. reflexivity. }
    assert (Hr : q / 2 <= round_nearest_even
                            (shr_m (shr_1 (shr_record_of_loc q l)))
                            (loc_of_shr_record (shr_1 (shr_record_of_loc q l)))
                 <= q / 2 + (if Z.odd q then 1 else 0)).
    { destruct l as [|[| |]]; cbn [shr_record_of_loc];
        rewrite shr_1_spec by lia; cbn [shr_m loc_of_shr_record orb];
        destruct (Z.odd q); cbn [round_nearest_even]; try lia;
        destruct (Z.even (q / 2)); lia. }
    set (M1 := round_nearest_even _ _) in *.
    destruct (shr_fexp_53 M1 (e + 1)) as (M' & e' & -> & He' & HV).
    + destruct (Z.odd q); lia.
    + lia.
    + cbn [shr_m]. exists M', e'.
      replace (e' <=? emax - prec) with true by (symmetry; apply Z.leb_le; lia).
      split; [reflexivity|]. split; [lia|].
      replace (e' - e) with (e' - (e + 1) + 1) by lia.
      rewrite Z.pow_add_r by lia. change (2 ^ 1) with 2.
      destruct (Z.odd q); nia.
Qed.

Lemma of_Z_60000 : of_Z 60000 = S754_finite false 8246337208320000 (-37).
Proof. reflexivity. Qed.

Lemma mantissa_pos z :
  0 < z < 2 ^ 53 ->
  Zpos (Z.to_pos (z * 2 ^ (53 - Zdigits2 z))) = z * 2 ^ (53 - Zdigits2 z) /\
  2 ^ 52 <= z * 2 ^ (53 - Zdigits2 z) < 2 ^ 53.
Proof.
  intros [Hz Hlt]. pose proof (Zdigits2_bounds z Hz) as [Blo Bhi].
  pose proof (Zdigits2_pos z Hz) as Hd0.
  pose proof (Zdigits2_le z 53 (conj Hz Hlt)) as Hd53.
  set (d := Zdigits2 z) in *.
  assert (Hpow : 0 < 2 ^ (53 - d)) by (apply Z.pow_pos_nonneg; lia).
  assert (HM : 2 ^ 52 <= z * 2 ^ (53 - d) < 2 ^ 53).
  { replace (2 ^ 52) with (2 ^ (d - 1) * 2 ^ (53 - d))
      by (rewrite <- Z.pow_add_r by lia; f_equal; lia).
    replace (2 ^ 53) with (2 ^ d * 2 ^ (53 - d))
      by (rewrite <- Z.pow_add_r by lia; f_equal; lia).
    nia. }
  split; [apply Z2Pos.id; lia | exact HM].
Qed.

(** Dividing an integer time by 60000 in binary64 and taking the integer
    part gives the integer quotient. *)
Lemma div_60000 t :
  0 < t < 2 ^ 53 ->
  exists M E,
    div (of_Z t) (of_Z 60000) = S754_finite false M E /\
    E < 0 /\ Zpos M / 2 ^ (- E) = t / 60000.
Proof.
  intros Ht. rewrite of_Z_60000, (of_Z_pos t Ht).
  destruct (mantissa_pos t Ht) as [Hm1 HM1].
  pose proof (Zdigits2_pos t (proj1 Ht)) as Hd0.
  pose proof (Zdigits2_le t 53 Ht) as Hd53.
  set (d := Zdigits2 t) in *. set (m1 := Z.to_pos (t * 2 ^ (53 - d))) in *.
  unfold div, SFdiv, SFdiv_core_binary.
  rewrite (Zdigits2_unique (Zpos m1) 53) by (rewrite Hm1; lia).
  change (Zdigits2 8246337208320000) with 53.
  replace (53 + (d - 53) - (53 + -37)) with (d - 16) by lia.
  replace (d - 53 - -37) with (d - 16) by lia.
  replace (fexp prec emax (d - 16)) with (d - 69)
    by (unfold fexp, emin, prec, emax; lia).
  replace (Z.min (d - 69) (d - 16)) with (d - 69) by lia.
  replace (d - 16 - (d - 69)) with 53 by lia.
  rewrite Z.shiftl_mul_pow2 by lia.
  set (m2 := 8246337208320000).
  assert (Hm2 : m2 = 60000 * 2 ^ 37) by reflexivity.
  pose proof (Z.div_mod (Zpos m1 * 2 ^ 53) m2 ltac:(lia)) as Hdm.
  unfold Z.div, Z.modulo in Hdm.
  destruct (Z.div_eucl (Zpos m1 * 2 ^ 53) m2) as [q r] eqn:Eqr.
  assert (Hq : q = (Zpos m1 * 2 ^ 53) / m2).
  { unfold Z.div. now rewrite Eqr. }
  clear Hdm.
  set (P := 2 ^ (69 - d)).
  assert (HP : 2 ^ 16 <= P).
  { unfold P. apply Z.pow_le_mono_r; lia. }
  assert (HPeven : P = 2 * 2 ^ (68 - d)).
  { unfold P. replace (69 - d) with (1 + (68 - d)) by lia.
    rewrite Z.pow_add_r by lia. reflexivity. }
  assert (Hq' : q = (t * P) / 60000).
  { rewrite Hq, Hm1, Hm2.
    replace (t * 2 ^ (53 - d) * 2 ^ 53) with (t * P * 2 ^ 37).
    - rewrite Z.div_mul_cancel_r by lia. reflexivity.
    - unfold P. replace (69 - d) with (53 - d + 16) by lia.
      rewrite Z.pow_add_r by lia. lia. }
  set (k := t / 60000).
  pose proof (Z.div_mod t 60000 ltac:(lia)) as Hk. fold k in Hk.
  pose proof (Z.mod_pos_bound t 60000 ltac:(lia)) as Hr0.
  set (r0 := t mod 60000) in *.
  assert (Hk0 : 0 <= k) by (apply Z.div_pos; lia).
  assert (Hqlo : k * P <= q).
  { rewrite Hq'. apply Z.div_le_lower_bound; [lia | nia]. }
  assert (Hqhi : q <= k * P + P - 2).
  { assert (q < k * P + P - 1); [|lia].
    rewrite Hq'. apply Z.div_lt_upper_bound; [lia | nia]. }
  assert (Hq52 : 2 ^ 52 <= q < 2 ^ 54).
  { rewrite Hq. split.
    - apply Z.div_le_lower_bound; [lia|]. rewrite Hm2. lia.
    - apply Z.div_lt_upper_bound; [lia|]. rewrite Hm2. lia. }
  destruct (binary_round_aux_bounds q (d - 69) (new_location m2 r) Hq52)
    as (M & E & HR & HE & HV).
  { unfold emin, prec, emax. lia. }
  { unfold prec, emax. lia. }
  exists M, E. cbn [xorb]. split; [exact HR|]. split; [lia|].
  set (u := 2 ^ (E - (d - 69))) in *.
  assert (Hu : 0 < u) by (apply Z.pow_pos_nonneg; lia).
  assert (HPE : P = 2 ^ (- E) * u).
  { unfold P, u. rewrite <- Z.pow_add_r by lia. f_equal. lia. }
  assert (Hw : 0 < 2 ^ (- E)) by (apply Z.pow_pos_nonneg; lia).
  assert (Hlo2 : k * P <= 2 * (q / 2)).
  { rewrite HPeven. replace (k * (2 * 2 ^ (68 - d))) with (2 * (k * 2 ^ (68 - d))) by lia.
    apply Z.mul_le_mono_nonneg_l; [lia|].
    apply Z.div_le_lower_bound; [lia|]. rewrite HPeven in Hqlo. lia. }
  symmetry. apply Z.div_unique with (r := Zpos M - 2 ^ (- E) * k); [|lia].
  left. split; nia.
Qed.

(** Multiplying an integer by 60000 in binary64 is exact while the product
    stays below 2^53. *)
Lemma mul_60000 k :
  0 < k -> k * 60000 < 2 ^ 53 ->
  mul (of_Z k) (of_Z 60000) = of_Z (k * 60000).
Proof.
  intros Hk HK.
  assert (Hk53 : 0 < k < 2 ^ 53) by lia.
  assert (HK53 : 0 < k * 60000 < 2 ^ 53) by lia.
  rewrite of_Z_60000, (of_Z_pos k Hk53), (of_Z_pos _ HK53).
  destruct (mantissa_pos k Hk53) as [Hmk _].
  destruct (mantissa_pos _ HK53) as [HmK HMK].
  pose proof (Zdigits2_pos k Hk) as Hdk0.
  pose proof (Zdigits2_le _ 53 HK53) as HdK53.
  pose proof (Zdigits2_mono k (k * 60000) ltac:(lia)) as Hmono.
  set (dk := Zdigits2 k) in *. set (dK := Zdigits2 (k * 60000)) in *.
  set (mk := Z.to_pos (k * 2 ^ (53 - dk))) in *.
  set (mK := Z.to_pos (k * 60000 * 2 ^ (53 - dK))) in *.
  unfold mul, SFmul. cbn [xorb].
  pose proof (binary_round_aux_exact false mK (dK - 53) (37 + dK - dk)) as H.
  replace (dK - 53 - (37 + dK - dk)) with (dk - 53 + -37) in H by lia.
  replace (Zpos (mk * 8246337208320000)) with (Zpos mK * 2 ^ (37 + dK - dk)).
  - apply H; [rewrite HmK; exact HMK | unfold emin, prec, emax; lia | lia].
  - rewrite Pos2Z.inj_mul, HmK, Hmk.
    change (Zpos 8246337208320000) with (60000 * 2 ^ 37).
    replace (k * 60000 * 2 ^ (53 - dK) * 2 ^ (37 + dK - dk))
      with (k * 60000 * (2 ^ (53 - dK) * 2 ^ (37 + dK - dk))) by lia.
    rewrite <- Z.pow_add_r by lia.
    replace (k * 2 ^ (53 - dk) * (60000 * 2 ^ 37))
      with (k * 60000 * (2 ^ (53 - dk) * 2 ^ 37)) by lia.
    rewrite <- Z.pow_add_r by lia.
    do 2 f_equal. lia.
Qed.

(** On every integer time from 0 to below 2^53, the bucket computation
    carried out in binary64 gives the integer bucket start. *)
Lemma bucketStart_number_correct t :
  0 <= t < 2 ^ 53 ->
  bucketStart_number (of_Z t) = of_Z (bucketStart t).
Proof.
  intros [Ht0 Ht]. destruct (Z.eq_dec t 0) as [->|Hne]; [reflexivity|].
  assert (Ht' : 0 < t < 2 ^ 53) by lia.
  unfold bucketStart_number, bucketStart.
  destruct (div_60000 t Ht') as (M & E & -> & HE & HM).
  unfold Math_floor. replace (0 <=? E) with false by (symmetry; apply Z.leb_gt; lia).
  cbn [cond_Zopp]. rewrite HM.
  assert (Hk : 0 <= t / 60000) by (apply Z.div_pos; lia).
  assert (HK : t / 60000 * 60000 <= t).
  { pose proof (Z.mul_div_le t 60000). lia. }
  destruct (Z.eqb_spec (t / 60000) 0) as [->|Hk0]; [reflexivity|].
  apply mul_60000; lia.
Qed.

Lemma binary_round_aux_opp m e l :
  binary_round_aux prec emax true m e l
  = SFopp (binary_round_aux prec emax false m e l).
Proof.
  unfold binary_round_aux.
  destruct (shr_fexp prec emax m e l) as [mrs' e'].
  destruct (shr_fexp prec emax _ e' loc_Exact) as [mrs'' e''].
  destruct (shr_m mrs''); try reflexivity.
  now destruct (e'' <=? emax - prec).
Qed.

Lemma of_Z_opp z : of_Z (- z) = SFopp (of_Z z) \/ z = 0.
Proof.
  destruct z as [|p|p]; [now right | left | left]; unfold of_Z; simpl;
    unfold binary_round; destruct (shl_align _ _ _) as [mz ez];
    rewrite binary_round_aux_opp; [reflexivity|].
  now destruct (binary_round_aux prec emax false (Zpos mz) ez loc_Exact)
    as [[|]|[|]| |[|] ? ?].
Qed.

(** The binary64 value of a non-zero integer of magnitude below 2^53:
    sign, mantissa and exponent. *)
Lemma of_Z_repr z :
  z <> 0 -> - 2 ^ 53 < z < 2 ^ 53 ->
  exists s m e,
    of_Z z = S754_finite s m e /\ - 52 <= e <= 0 /\
    cond_Zopp s (Zpos m) = z * 2 ^ (- e).
Proof.
  intros Hz Hr.
  assert (Hpos : forall t, 0 < t < 2 ^ 53 ->
            exists m e, of_Z t = S754_finite false m e /\ - 52 <= e <= 0 /\
                        Zpos m = t * 2 ^ (- e)).
  { intros t Ht. exists (Z.to_pos (t * 2 ^ (53 - Zdigits2 t))), (Zdigits2 t - 53).
    pose proof (Zdigits2_pos t (proj1 Ht)). pose proof (Zdigits2_le t 53 Ht).
    split; [now apply of_Z_pos|]. split; [lia|].
    replace (- (Zdigits2 t - 53)) with (53 - Zdigits2 t) by lia.
    now apply mantissa_pos. }
  destruct (Z_lt_le_dec 0 z) as [Hp|Hn].
  - destruct (Hpos z ltac:(lia)) as (m & e & H1 & H2 & H3).
    exists false, m, e. auto.
  - destruct (Hpos (- z) ltac:(lia)) as (m & e & H1 & H2 & H3).
    exists true, m, e. split; [|split; [exact H2 | cbn [cond_Zopp]; lia]].
    destruct (of_Z_opp (- z)) as [H|H]; [|lia].
    rewrite Z.opp_involutive, H1 in H. exact H.
Qed.

Lemma eqb_finite s1 m1 e1 s2 m2 e2 :
  eqb (S754_finite s1 m1 e1) (S754_finite s2 m2 e2)
  = (Bool.eqb s1 s2 && (e1 =? e2) && (m1 =? m2)%positive)%bool.
Proof.
  unfold eqb, SFeqb, SFcompare.
  change (Pos.compare_cont Eq m1 m2) with (m1 ?= m2)%positive.
  rewrite Z.eqb_compare, Pos.eqb_compare.
  destruct s1, s2; simpl; try reflexivity;
    destruct (e1 ?= e2); simpl; try reflexivity;
    destruct (m1 ?= m2)%positive; reflexivity.
Qed.

(** [===] on integer-valued numbers is equality of the integers. *)
Lemma eqb_of_Z x y :
  - 2 ^ 53 < x < 2 ^ 53 -> - 2 ^ 53 < y < 2 ^ 53 ->
  eqb (of_Z x) (of_Z y) = (x =? y).
Proof.
  intros Hx Hy. destruct (Z.eqb_spec x y) as [->|Hne].
  - destruct (Z.eq_dec y 0) as [->|Hy0]; [reflexivity|].
    destruct (of_Z_repr y Hy0 Hy) as (s & m & e & -> & _).
    rewrite eqb_finite, Z.eqb_refl, Pos.eqb_refl. now destruct s.
  - destruct (Z.eq_dec x 0) as [->|Hx0]; destruct (Z.eq_dec y 0) as [->|Hy0];
      try congruence.
    + destruct (of_Z_repr y Hy0 Hy) as (s & m & e & -> & _).
      change (of_Z 0) with zero. now destruct s.
    + destruct (of_Z_repr x Hx0 Hx) as (s & m & e & -> & _).
      change (of_Z 0) with zero. now destruct s.
    + destruct (of_Z_repr x Hx0 Hx) as (sx & mx & ex & -> & Hex & Hvx).
      destruct (of_Z_repr y Hy0 Hy) as (sy & my & ey & -> & Hey & Hvy).
      rewrite eqb_finite.
      destruct (Bool.eqb sx sy) eqn:Es; [|reflexivity].
      destruct (Z.eqb_spec ex ey) as [->|]; [|reflexivity].
      destruct (Pos.eqb_spec mx my) as [->|]; [|reflexivity].
      apply eqb_prop in Es. subst sy. exfalso. apply Hne.
      assert (0 < 2 ^ (- ey)) by (apply Z.pow_pos_nonneg; lia). nia.
Qed.

Lemma shr_m_iter n mrs :
  0 <= shr_m mrs -> shr_m (iter_pos shr_1 n mrs) = shr_m mrs / 2 ^ Zpos n.
Proof.
  intros Hm. rewrite iter_pos_nat, <- (positive_nat_Z n).
  revert mrs Hm. induction (Pos.to_nat n) as [|k IH]; intros mrs Hm.
  - simpl. now rewrite Z.div_1_r.
  - rewrite Nat.iter_succ_r, Nat2Z.inj_succ, Z.pow_succ_r by lia.
    destruct mrs as [m r s]. cbn [shr_m] in *. rewrite shr_1_spec by exact Hm.
    rewrite IH by (cbn [shr_m]; apply Z.div_pos; lia).
    cbn [shr_m]. rewrite Z.div_div by (try apply Z.pow_pos_nonneg; lia).
    reflexivity.
Qed.

Lemma shr_fexp_pos m e l :
  0 < m -> emin prec emax <= e ->
  0 < shr_m (fst (shr_fexp prec emax m e l)) /\
  emin prec emax <= snd (shr_fexp prec emax m e l).
Proof.
  intros Hm He. unfold shr_fexp, shr.
  pose proof (Zdigits2_bounds m Hm) as [Blo Bhi].
  destruct (fexp prec emax (Zdigits2 m + e) - e) as [|n|n] eqn:En;
    cbn [fst snd]; rewrite ?shr_record_of_loc_m; try (split; lia).
  rewrite shr_m_iter by (rewrite shr_record_of_loc_m; lia). rewrite shr_record_of_loc_m.
  unfold fexp in En.
  assert (Hn : Zpos n = Zdigits2 m - prec) by lia.
  split; [|lia]. apply Z.div_str_pos. split; [apply Z.pow_pos_nonneg; lia|].
  rewrite Hn. etransitivity; [|exact Blo].
  apply Z.pow_le_mono_r; unfold prec; lia.
Qed.

(** Rounding a non-zero value keeps it away from zero and NaN, and keeps
    its sign. *)
Lemma binary_round_aux_sign s m e l :
  0 < m -> emin prec emax <= e ->
  (exists M E, binary_round_aux prec emax s m e l = S754_finite s M E) \/
  binary_round_aux prec emax s m e l = S754_infinity s.
Proof.
  intros Hm He. unfold binary_round_aux.
  destruct (shr_fexp_pos m e l Hm He) as [H1 H1'].
  destruct (shr_fexp prec emax m e l) as [mrs' e']. cbn [fst snd] in H1, H1'.
  pose proof (round_nearest_even_range (shr_m mrs') (loc_of_shr_record mrs')) as Hr.
  destruct (shr_fexp_pos (round_nearest_even (shr_m mrs') (loc_of_shr_record mrs'))
              e' loc_Exact ltac:(lia) H1') as [H2 _].
  destruct (shr_fexp prec emax _ e' loc_Exact) as [mrs'' e'']. cbn [fst] in H2.
  destruct (shr_m mrs'') as [|M|M]; try lia.
  destruct (e'' <=? emax - prec); eauto.
Qed.

Lemma binary_round_sign s p e :
  emin prec emax <= e ->
  (exists M E, binary_round prec emax s p e = S754_finite s M E) \/
  binary_round prec emax s p e = S754_infinity s.
Proof.
  intros He. unfold binary_round, shl_align.
  destruct (fexp prec emax (Zpos (digits2_pos p) + e) - e) as [|d|d] eqn:Ed;
    apply binary_round_aux_sign; try lia.
  unfold fexp in *. lia.
Qed.

Lemma shl_align_value m e e' :
  e' <= e -> Zpos (fst (shl_align m e e')) = Zpos m * 2 ^ (e - e').
Proof.
  intros H. unfold shl_align. destruct (e' - e) as [|d|d] eqn:Ed; try lia; cbn [fst].
  - replace (e - e') with 0 by lia. lia.
  - rewrite shl_pos. f_equal. f_equal. lia.
Qed.

Lemma ltb_zero_finite s m e : ltb zero (S754_finite s m e) = negb s.
Proof. now destruct s. Qed.

(** The sign of a difference of integer-valued numbers is the sign of the
    difference of the integers: [a - b > 0] exactly when it is so on the
    integers. *)
Lemma sub_of_Z_pos x y :
  - 2 ^ 53 < x < 2 ^ 53 -> - 2 ^ 53 < y < 2 ^ 53 ->
  ltb zero (sub (of_Z x) (of_Z y)) = (0 <? x - y).
Proof.
  intros Hx Hy.
  destruct (Z.eq_dec x 0) as [->|Hx0]; destruct (Z.eq_dec y 0) as [->|Hy0].
  - reflexivity.
  - destruct (of_Z_repr y Hy0 Hy) as (s & m & e & -> & He & Hv).
    change (of_Z 0) with zero. cbn [sub SFsub zero]. rewrite ltb_zero_finite.
    assert (0 < 2 ^ (- e)) by (apply Z.pow_pos_nonneg; lia).
    destruct s; cbn [cond_Zopp negb] in *; symmetry;
      [apply Z.ltb_lt | apply Z.ltb_ge]; nia.
  - destruct (of_Z_repr x Hx0 Hx) as (s & m & e & -> & He & Hv).
    change (of_Z 0) with zero. cbn [sub SFsub zero]. rewrite ltb_zero_finite.
    assert (0 < 2 ^ (- e)) by (apply Z.pow_pos_nonneg; lia).
    destruct s; cbn [cond_Zopp negb] in *; symmetry;
      [apply Z.ltb_ge | apply Z.ltb_lt]; nia.
  - destruct (of_Z_repr x Hx0 Hx) as (sx & mx & ex & -> & Hex & Hvx).
    destruct (of_Z_repr y Hy0 Hy) as (sy & my & ey & -> & Hey & Hvy).
    unfold sub, SFsub.
    set (ez := Z.min ex ey).
    assert (Hx' : cond_Zopp sx (Zpos (fst (shl_align mx ex ez))) = x * 2 ^ (- ez)).
    { rewrite shl_align_value by lia.
      replace (- ez) with (- ex + (ex - ez)) by lia.
      rewrite Z.pow_add_r by lia. destruct sx; cbn [cond_Zopp] in *; lia. }
    assert (Hy' : cond_Zopp sy (Zpos (fst (shl_align my ey ez))) = y * 2 ^ (- ez)).
    { rewrite shl_align_value by lia.
      replace (- ez) with (- ey + (ey - ez)) by lia.
      rewrite Z.pow_add_r by lia. destruct sy; cbn [cond_Zopp] in *; lia. }
    rewrite Hx', Hy'.
    assert (Hp : 0 < 2 ^ (- ez)) by (apply Z.pow_pos_nonneg; lia).
    assert (Hez : emin prec emax <= ez) by (unfold emin, prec, emax; lia).
    unfold binary_normalize.
    destruct (x * 2 ^ (- ez) - y * 2 ^ (- ez)) as [|D|D] eqn:ED.
    + symmetry. apply Z.ltb_ge. nia.
    + destruct (binary_round_sign false D ez Hez) as [(M & E & ->)| ->];
        symmetry; apply Z.ltb_lt; nia.
    + destruct (binary_round_sign true D ez Hez) as [(M & E & ->)| ->];
        symmetry; apply Z.ltb_ge; nia.
Qed.

Lemma bucketStart_range t : 0 <= t -> 0 <= bucketStart t <= t.
Proof.
  intros Ht. unfold bucketStart. pose proof (Z.mul_div_le t 60000).
  assert (0 <= t / 60000) by (apply Z.div_pos; lia). lia.
Qed.

(** [===] on the numbers of two time values is [ts_eqb]. *)
Lemma ts_eqb_number a b :
  safe a -> safe b ->
  eqb (number_of_ts a) (number_of_ts b) = ts_eqb a b.
Proof.
  destruct a as [x|], b as [y|]; cbn [safe number_of_ts ts_eqb];
    intros Ha Hb; try reflexivity.
  - now apply eqb_of_Z.
  - now destruct (of_Z x).
Qed.

(** The comparator [a.ts - b.ts] is positive exactly when [compareTs] is;
    a NaN difference is not. *)
Lemma compareTs_number a b :
  safe (ts a) -> safe (ts b) ->
  ltb zero (sub (number_of_ts (ts a)) (number_of_ts (ts b)))
  = (0 <? compareTs a b).
Proof.
  unfold compareTs.
  destruct (ts a) as [x|], (ts b) as [y|]; cbn [safe number_of_ts ts_sub];
    intros Ha Hb; try reflexivity.
  - now apply sub_of_Z_pos.
  - now destruct (of_Z x).
Qed.

(* ------------------------------------------------------------------ *)
(** ** Arrays *)

Section ArrayFacts.
Context {A : Type}.
Implicit Types (l : list A) (x : A).


Lemma last_elem_app l x : last_elem (l ++ [x]) = Some x.
Proof.
  induction l as [|y l IH]; [reflexivity|].
  simpl. destruct (l ++ [x]) eqn:E; [now destruct l | exact IH].
Qed.

Lemma last_elem_None l : last_elem l = None -> l = [].
Proof.
  destruct l as [|y l] using rev_ind; [reflexivity|].
  now rewrite last_elem_app.
Qed.

Lemma last_elem_Some l x : last_elem l = Some x -> l = removelast l ++ [x].
Proof.
  destruct l as [|y l _] using rev_ind; [discriminate|].
  rewrite last_elem_app, removelast_last. now intros [= ->].
Qed.

Lemma length_slice_last n l : length (slice_last n l) = Nat.min n (length l).
Proof. unfold slice_last. rewrite length_skipn. lia. Qed.

Lemma slice_last_all n l : (length l <= n)%nat -> slice_last n l = l.
Proof.
  intros H. unfold slice_last. now replace (length l - n)%nat with O by lia.
Qed.

Lemma slice_last_snoc n l x :
  slice_last (S n) (l ++ [x]) = slice_last n l ++ [x].
Proof.
  unfold slice_last. rewrite length_app, skipn_app. simpl.
  replace (length l + 1 - S n)%nat with (length l - n)%nat by lia.
  now replace (length l - n - length l)%nat with O by lia.
Qed.

Lemma slice_last_app_exact l1 l2 n :
  length l2 = n -> slice_last n (l1 ++ l2) = l2.
Proof.
  intros <-. unfold slice_last. rewrite length_app, skipn_app.
  replace (length l1 + length l2 - length l2)%nat with (length l1) by lia.
  now rewrite skipn_all, Nat.sub_diag.
Qed.

Lemma slice_last_split n l :
  l = firstn (length l - n) l ++ slice_last n l.
Proof. unfold slice_last. now rewrite firstn_skipn. Qed.
End ArrayFacts.

(* ------------------------------------------------------------------ *)
(** ** Trade aggregation *)

Lemma ts_eqb_refl z : ts_eqb (Ms z) (Ms z) = true.
Proof. apply Z.eqb_refl. Qed.

Lemma ts_eqb_eq a b : ts_eqb a b = true <-> exists z, a = Ms z /\ b = Ms z.
Proof.
  destruct a as [x|], b as [y|]; simpl; split;
    try discriminate; try (intros (z & H1 & H2); discriminate).
  - intros H%Z.eqb_eq. subst. eauto.
  - intros (z & [= ->] & [= ->]). apply Z.eqb_refl.
Qed.
















(* ------------------------------------------------------------------ *)
(** ** The candle invariant *)

Lemma Forall_slice_last {A} (P : A -> Prop) n (l : list A) :
  Forall P l -> Forall P (slice_last n l).
Proof.
  intros H. rewrite (slice_last_split n l) in H.
  now apply Forall_app in H.
Qed.

Lemma freshCandle_ok time price size :
  is_nan price = false -> nonneg size ->
  candle_ok (freshCandle (Ms (bucketStart time)) price size).
Proof.
  intros Hp Hs. pose proof (leb_refl price Hp) as R.
  unfold candle_ok. cbn [freshCandle ts open high low close volume].
  repeat split; auto.
  exists (time / 60000). unfold bucketStart. f_equal. apply Z.mul_comm.
Qed.

Lemma updatedCandle_ok c price size :
  candle_ok c -> is_nan price = false -> nonneg size ->
  candle_ok (updatedCandle c price size).
Proof.
  intros (Hlo & Hoh & Hlc & Hch & Hv & Hts) Hp Hs.
  destruct (leb_not_nan _ _ Hlo) as [Nl _].
  destruct (leb_not_nan _ _ Hoh) as [_ Nh].
  destruct (Math_max_spec (high c) price Nh Hp) as (_ & M1 & M2).
  destruct (Math_min_spec (low c) price Nl Hp) as (_ & m1 & m2).
  unfold candle_ok. cbn [updatedCandle ts open high low close volume].
  repeat split.
  - exact (leb_trans _ _ _ m1 Hlo).
  - exact (leb_trans _ _ _ Hoh M1).
  - exact m2.
  - exact M2.
  - apply add_nonneg; assumption.
  - exact Hts.
Qed.

Lemma updateHlCandles_ok time price size prev :
  Forall candle_ok prev -> is_nan price = false -> nonneg size ->
  Forall candle_ok (updateHlCandles (Ms (bucketStart time)) price size prev).
Proof.
  intros Hprev Hp Hs. unfold updateHlCandles.
  assert (Hfresh : Forall candle_ok
            (slice_last 100
               (prev ++ [freshCandle (Ms (bucketStart time)) price size]))).
  { apply Forall_slice_last, Forall_app. split; [exact Hprev|].
    constructor; [now apply freshCandle_ok | constructor]. }
  destruct (last_elem prev) as [c|] eqn:E; [|exact Hfresh].
  destruct (ts_eqb (ts c) (Ms (bucketStart time))); [|exact Hfresh].
  rewrite (last_elem_Some prev c E) in Hprev.
  apply Forall_app in Hprev as [Hfront Hc].
  apply Forall_app. split; [exact Hfront|].
  inversion_clear Hc. constructor; [now apply updatedCandle_ok | constructor].
Qed.

Lemma integerValue_of_Z (z : Z) :
  0 <= z < 2 ^ 53 -> integerValue (of_Z z) = Some z.
Proof.
  intros Hz. destruct (Z.eq_dec z 0) as [->|Hz0]; [reflexivity|].
  destruct (of_Z_repr z Hz0 ltac:(lia)) as (s & m & e & -> & He & Hv).
  assert (Hp : 0 < 2 ^ (- e)) by (apply Z.pow_pos_nonneg; lia).
  destruct s; cbn [cond_Zopp] in Hv; [nia|].
  cbn [integerValue cond_Zopp].
  destruct (Z.leb_spec 0 e) as [He0|He0].
  - replace e with 0 in * by lia. f_equal. cbn in Hv |- *. lia.
  - rewrite Hv, Z.mod_mul by lia. cbn [Z.eqb].
    rewrite Z.div_mul by lia. reflexivity.
Qed.

Lemma bucketOfTrade_exact (tr : Trade) :
  timeInRange tr ->
  bucketOfTrade tr = number_of_ts (Ms (bucketStart (time tr))) /\
  integerValue (bucketOfTrade tr) = Some (60000 * (time tr / 60000)).
Proof.
  intros Ht. unfold bucketOfTrade, timeInRange in *.
  rewrite bucketStart_number_correct by assumption.
  split; [reflexivity|].
  pose proof (bucketStart_range (time tr) ltac:(lia)) as Hb.
  rewrite integerValue_of_Z by lia.
  unfold bucketStart. f_equal. lia.
Qed.

(** C7 (amended).  For trades with a positive finite price, a
    non-negative size and an integer time from 0 to below 2^53 ms, every
    ingest preserves, for every candle of the series,
    low <= open <= high, low <= close <= high, volume >= 0 and a bucket
    start that is an exact multiple of 60000; hence every candle of a
    series built from such trades, starting empty, satisfies them.  In
    that range the bucket start that line 75 computes in binary64 is the
    integer the series holds, an exact multiple of 60000. *)
Theorem C7_candle_invariant :
  (forall (trs : list Trade) (prev : list Candle),
     Forall trade_ok trs ->
     Forall timeInRange trs ->
     Forall candle_ok prev ->
     Forall candle_ok (ingestTrades trs prev)) /\
  (forall tr : Trade,
     timeInRange tr ->
     bucketOfTrade tr = number_of_ts (Ms (bucketStart (time tr))) /\
     multipleOfBucketWidth (bucketOfTrade tr)).
Proof.
  split.
  - induction trs as [|tr trs IH]; intros prev Htrs Hin Hprev; [exact Hprev|].
    inversion_clear Htrs as [|? ? [[Hpos _] Hsz] Hrest].
    inversion_clear Hin as [|? ? _ Hin'].
    apply IH; [exact Hrest | exact Hin' |].
    apply updateHlCandles_ok; auto.
    now apply ltb_not_nan in Hpos.
  - intros tr Ht. destruct (bucketOfTrade_exact tr Ht) as [H1 H2].
    split; [exact H1|]. now exists (time tr / 60000).
Qed.

Lemma C7_candle_invariant_witness :
  Forall trade_ok [trade 1000 5 1; trade 2000 6 2; trade 61000 7 1] /\
  Forall timeInRange [trade 1000 5 1; trade 2000 6 2; trade 61000 7 1] /\
  Forall candle_ok (@nil Candle) /\
  Forall candle_ok [candle 0 5 6 5 6 3; candle 60000 7 7 7 7 1] /\
  multipleOfBucketWidth (bucketOfTrade (trade 61000 7 1)).
Proof.
  assert (H1 : Forall trade_ok
                 [trade 1000 5 1; trade 2000 6 2; trade 61000 7 1]).
  { repeat constructor. }
  assert (H2 : Forall timeInRange
                 [trade 1000 5 1; trade 2000 6 2; trade 61000 7 1]).
  { repeat constructor; cbn; lia. }
  assert (H3 : Forall candle_ok (@nil Candle)) by constructor.
  assert (H4 : timeInRange (trade 61000 7 1)) by (split; cbn; lia).
  split; [exact H1 | split; [exact H2 | split; [exact H3 | split]]].
  - exact (proj1 C7_candle_invariant _ _ H1 H2 H3).
  - exact (proj2 (proj2 C7_candle_invariant _ H4)).
Defined.

(** C7 as stated fails: for a trade at time 10^18 ms, line 75 computes in
    binary64 the bucket start 999999999999960064, which is 64 above a
    multiple of 60000. *)
Lemma C7_counterexample : ~ C7_as_stated.
Proof.
  intros H.
  destruct (H (trade (10 ^ 18) 5 1)) as [k Hk].
  - split; [split; reflexivity | reflexivity].
  - assert (E : integerValue (bucketOfTrade (trade (10 ^ 18) 5 1))
                = Some 999999999999960064) by (vm_compute; reflexivity).
    remember (60000 * k) as n eqn:En.
    rewrite E in Hk. injection Hk as Hk. lia.
Qed.

(** A trade without a time: [undefined / 60000] is NaN, and so is the
    bucket start stored for it. *)
Example bucketStart_number_NaN : bucketStart_number NaN = NaN.
Proof. reflexivity. Qed.

(* ------------------------------------------------------------------ *)
(** ** Sorting by bucket start *)

Lemma valid_Ms c : valid c -> ts c = Ms (tsZ c).
Proof. unfold valid, tsZ. destruct (ts c); [reflexivity | discriminate]. Qed.

Lemma compareTs_valid a b :
  valid a -> valid b -> compareTs a b = tsZ a - tsZ b.
Proof.
  intros Ha%valid_Ms Hb%valid_Ms. unfold compareTs.
  now rewrite Ha, Hb.
Qed.

Lemma ts_eqb_valid a b :
  valid a -> valid b -> ts_eqb (ts a) (ts b) = (tsZ a =? tsZ b).
Proof. intros Ha%valid_Ms Hb%valid_Ms. now rewrite Ha, Hb. Qed.

Lemma insertSorted_perm x l : Permutation (insertSorted x l) (x :: l).
Proof.
  induction l as [|y l IH]; simpl; [reflexivity|].
  destruct (0 <? compareTs x y); [|reflexivity].
  rewrite IH. apply perm_swap.
Qed.

Lemma sortCandles_perm l : Permutation (sortCandles l) l.
Proof.
  induction l as [|x l IH]; simpl; [reflexivity|].
  rewrite insertSorted_perm. now constructor.
Qed.

Lemma sortCandles_length l : length (sortCandles l) = length l.
Proof. apply Permutation_length, sortCandles_perm. Qed.

Lemma sortCandles_app l1 l2 :
  sortCandles (l1 ++ l2) = fold_right insertSorted (sortCandles l2) l1.
Proof. apply fold_right_app. Qed.

(** Inserting above a block of smaller entries and below the rest. *)
Lemma insertSorted_between x lo hi :
  valid x -> Forall valid lo -> Forall valid hi ->
  Forall (fun y => tsZ y < tsZ x) lo ->
  Forall (fun y => tsZ x <= tsZ y) hi ->
  insertSorted x (lo ++ hi) = lo ++ x :: hi.
Proof.
  intros Vx Vlo Vhi Hlo Hhi.
  induction lo as [|y lo IH]; simpl.
  - destruct hi as [|z hi]; [reflexivity|]. simpl.
    inversion_clear Vhi. inversion_clear Hhi.
    rewrite compareTs_valid by assumption.
    now replace (0 <? tsZ x - tsZ z) with false by (symmetry; apply Z.ltb_ge; lia).
  - inversion_clear Vlo. inversion_clear Hlo.
    rewrite compareTs_valid by assumption.
    replace (0 <? tsZ x - tsZ y) with true by (symmetry; apply Z.ltb_lt; lia).
    now rewrite IH.
Qed.

Lemma ascending_inv x l :
  ascending (x :: l) -> ascending l /\ Forall (fun y => tsZ x < tsZ y) l.
Proof. intros H. inversion_clear H. auto. Qed.

Lemma ascending_app l1 l2 :
  ascending (l1 ++ l2) <->
  ascending l1 /\ ascending l2 /\
  Forall (fun a => Forall (fun b => tsZ a < tsZ b) l2) l1.
Proof.
  unfold ascending. induction l1 as [|x l1 IH]; simpl.
  - split; [intros H; repeat split; auto; constructor | tauto].
  - split.
    + intros H. inversion_clear H as [|? ? Hs Hx].
      apply IH in Hs as (H1 & H2 & H3). apply Forall_app in Hx as [Hx1 Hx2].
      repeat split; auto; constructor; auto.
    + intros (H1 & H2 & H3). inversion_clear H1 as [|? ? Hs Hx].
      inversion_clear H3 as [|? ? Hx2 H3'].
      constructor; [apply IH; auto | apply Forall_app; auto].
Qed.

(** Sorting an ascending block followed by entries all below it moves
    the block behind them, and leaves it as it is. *)
Lemma sortCandles_block hi lo :
  Forall valid hi -> Forall valid lo -> ascending hi ->
  Forall (fun a => Forall (fun b => tsZ b < tsZ a) lo) hi ->
  sortCandles (hi ++ lo) = sortCandles lo ++ hi.
Proof.
  intros Vhi Vlo Hasc Hlt. rewrite sortCandles_app.
  assert (Vs : Forall valid (sortCandles lo)).
  { eapply Permutation_Forall; [symmetry; apply sortCandles_perm | exact Vlo]. }
  induction hi as [|x hi IH]; simpl; [now rewrite app_nil_r|].
  inversion_clear Vhi as [|? ? Vx Vhi'].
  inversion_clear Hlt as [|? ? Hx Hlt'].
  apply ascending_inv in Hasc as [Hasc Hxhi].
  rewrite IH by assumption.
  apply insertSorted_between; auto.
  - eapply Permutation_Forall; [symmetry; apply sortCandles_perm | exact Hx].
  - eapply Forall_impl; [|exact Hxhi]. simpl. intros; lia.
Qed.

Lemma insertSorted_ascending x l :
  valid x -> Forall valid l -> ascending l ->
  ~ In (tsZ x) (map tsZ l) ->
  ascending (insertSorted x l).
Proof.
  intros Vx Vl Hl Hnin. induction l as [|y l IH]; simpl.
  - repeat constructor.
  - inversion_clear Vl as [|? ? Vy Vl'].
    apply ascending_inv in Hl as [Hl Hy].
    rewrite compareTs_valid by assumption.
    destruct (0 <? tsZ x - tsZ y) eqn:E.
    + apply Z.ltb_lt in E. constructor.
      * apply IH; auto. intros Hin. apply Hnin. now right.
      * eapply Permutation_Forall; [symmetry; apply insertSorted_perm|].
        constructor; [lia | exact Hy].
    + apply Z.ltb_ge in E.
      assert (tsZ x <> tsZ y) by (intros Heq; apply Hnin; left; congruence).
      constructor; [constructor; assumption|].
      constructor; [lia|]. eapply Forall_impl; [|exact Hy]. simpl. intros; lia.
Qed.

Lemma sortCandles_ascending l : wellKeyed l -> ascending (sortCandles l).
Proof.
  intros [Vl Hnd]. induction l as [|x l IH]; simpl; [constructor|].
  inversion_clear Vl as [|? ? Vx Vl']. simpl in Hnd.
  apply NoDup_cons_iff in Hnd as [Hnin Hnd].
  apply insertSorted_ascending; auto.
  - eapply Permutation_Forall; [symmetry; apply sortCandles_perm | exact Vl'].
  - intros Hin. apply Hnin.
    eapply Permutation_in; [|exact Hin].
    apply Permutation_map, sortCandles_perm.
Qed.

Lemma ascending_NoDup l : ascending l -> NoDup (map tsZ l).
Proof.
  induction l as [|x l IH]; simpl; intros H; [constructor|].
  apply ascending_inv in H as [Hl Hx]. constructor; auto.
  intros Hin. apply in_map_iff in Hin as (y & Heq & Hy).
  rewrite Forall_forall in Hx. specialize (Hx y Hy). lia.
Qed.

(* ------------------------------------------------------------------ *)
(** ** Replace-by-key *)

Lemma NoDup_app_disjoint {A} (l1 l2 : list A) :
  NoDup (l1 ++ l2) -> forall a, In a l1 -> In a l2 -> False.
Proof.
  induction l1 as [|x l1 IH]; simpl; intros H a H1 H2; [contradiction|].
  apply NoDup_cons_iff in H as [Hx H]. destruct H1 as [->|H1].
  - apply Hx, in_or_app. now right.
  - exact (IH H a H1 H2).
Qed.

Lemma ts_replaceBy c x : ts (replaceBy c x) = ts x.
Proof.
  unfold replaceBy. destruct (ts_eqb (ts x) (ts c)) eqn:E; [|reflexivity].
  apply ts_eqb_eq in E as (z & -> & ->). reflexivity.
Qed.

Lemma ts_revise cs x : ts (revise cs x) = ts x.
Proof.
  revert x. induction cs as [|c cs IH]; intros x; [reflexivity|].
  simpl. now rewrite IH, ts_replaceBy.
Qed.

Lemma tsZ_revise cs x : tsZ (revise cs x) = tsZ x.
Proof. unfold tsZ. now rewrite ts_revise. Qed.

Lemma map_tsZ_revise cs l : map tsZ (map (revise cs) l) = map tsZ l.
Proof. rewrite map_map. apply map_ext, tsZ_revise. Qed.

Lemma valid_revise cs x : valid x -> valid (revise cs x).
Proof. unfold valid. now rewrite ts_revise. Qed.

Lemma revise_app cs1 cs2 x : revise (cs1 ++ cs2) x = revise cs2 (revise cs1 x).
Proof. apply fold_left_app. Qed.

Lemma replaceBy_other c x :
  valid c -> valid x -> tsZ x <> tsZ c -> replaceBy c x = x.
Proof.
  intros Vc Vx Hne. unfold replaceBy. rewrite ts_eqb_valid by assumption.
  now apply Z.eqb_neq in Hne as ->.
Qed.

Lemma replaceBy_same c x :
  valid c -> valid x -> tsZ x = tsZ c -> replaceBy c x = c.
Proof.
  intros Vc Vx Heq. unfold replaceBy. rewrite ts_eqb_valid by assumption.
  now apply Z.eqb_eq in Heq as ->.
Qed.

Lemma map_replaceBy_absent c l :
  valid c -> Forall valid l -> ~ In (tsZ c) (map tsZ l) ->
  map (replaceBy c) l = l.
Proof.
  intros Vc Vl Hnin. induction l as [|x l IH]; [reflexivity|].
  inversion_clear Vl. simpl in *. rewrite IH by tauto.
  rewrite replaceBy_other; auto.
Qed.

Lemma upsert_absent c l :
  valid c -> Forall valid l -> ~ In (tsZ c) (map tsZ l) ->
  upsert l c = l ++ [c].
Proof.
  intros Vc Vl Hnin. unfold upsert.
  assert (E : findIndex (fun nc => ts_eqb (ts nc) (ts c)) l = None); [|now rewrite E].
  induction l as [|x l IH]; [reflexivity|].
  inversion_clear Vl. simpl in *.
  rewrite ts_eqb_valid by assumption.
  replace (tsZ x =? tsZ c) with false
    by (symmetry; apply Z.eqb_neq; intros E; apply Hnin; left; congruence).
  rewrite IH by tauto. reflexivity.
Qed.

Lemma upsert_present c l :
  valid c -> wellKeyed l -> In (tsZ c) (map tsZ l) ->
  upsert l c = map (replaceBy c) l.
Proof.
  intros Vc [Vl Hnd] Hin. unfold upsert.
  induction l as [|x l IH]; [contradiction|].
  inversion_clear Vl as [|? ? Vx Vl']. simpl in Hnd, Hin.
  apply NoDup_cons_iff in Hnd as [Hx Hnd].
  cbn [findIndex map]. rewrite ts_eqb_valid by assumption.
  destruct (tsZ x =? tsZ c) eqn:E.
  - apply Z.eqb_eq in E. simpl.
    rewrite replaceBy_same by assumption.
    rewrite map_replaceBy_absent; auto. now rewrite <- E.
  - apply Z.eqb_neq in E. destruct Hin as [Hin|Hin]; [congruence|].
    specialize (IH Vl' Hnd Hin).
    destruct (findIndex (fun nc => ts_eqb (ts nc) (ts c)) l) as [i|].
    + simpl. rewrite IH. now rewrite replaceBy_other.
    + exfalso. apply (f_equal (@length _)) in IH.
      rewrite length_app, length_map in IH. simpl in IH. lia.
Qed.

Lemma wellKeyed_map_replaceBy c l :
  wellKeyed l -> wellKeyed (map (replaceBy c) l).
Proof.
  intros [Vl Hnd]. split.
  - apply Forall_map. eapply Forall_impl; [|exact Vl].
    intros x Vx. unfold valid. now rewrite ts_replaceBy.
  - rewrite map_map.
    erewrite map_ext; [exact Hnd|]. intros x. unfold tsZ. now rewrite ts_replaceBy.
Qed.

Lemma map_tsZ_replaceBy c l : map tsZ (map (replaceBy c) l) = map tsZ l.
Proof.
  rewrite map_map. apply map_ext. intros x. unfold tsZ. now rewrite ts_replaceBy.
Qed.

(** Merging the candles [cs] into a series revises its entries in place
    and appends the new buckets [N] behind them; the new entries are
    already what [cs] makes of them. *)
Lemma merge_decomp cs :
  Forall valid cs ->
  forall l, wellKeyed l ->
  exists N,
    fold_left upsert cs l = map (revise cs) l ++ N /\
    wellKeyed (l ++ N) /\
    Forall (fun x => revise cs x = x) N /\
    Forall (fun x => In (tsZ x) (map tsZ cs)) N /\
    Forall (fun c => In (tsZ c) (map tsZ (l ++ N))) cs.
Proof.
  induction cs as [|c cs IH]; intros Vcs l Hl.
  - exists []. simpl. rewrite map_id, !app_nil_r. repeat split; auto; apply Hl.
  - inversion_clear Vcs as [|? ? Vc Vcs'].
    destruct (in_dec Z.eq_dec (tsZ c) (map tsZ l)) as [Hin|Hnin].
    + destruct (IH Vcs' (map (replaceBy c) l) (wellKeyed_map_replaceBy c l Hl))
        as (N & E & [VN HN] & HF & HI & HC).
      rewrite map_app, map_tsZ_replaceBy, <- map_app in HN.
      apply Forall_app in VN as [_ VN].
      assert (Hdisj : forall x, In x N -> tsZ x <> tsZ c).
      { intros x Hx Heq. rewrite map_app in HN.
        apply (NoDup_app_disjoint _ _ HN (tsZ c)); [exact Hin|].
        rewrite <- Heq. now apply in_map. }
      exists N. simpl. rewrite upsert_present by assumption.
      rewrite E, map_map. repeat split.
      * apply Forall_app. split; [apply Hl | exact VN].
      * exact HN.
      * rewrite Forall_forall in HF |- *. intros x Hx. simpl.
        rewrite Forall_forall in VN.
        rewrite replaceBy_other; auto.
      * eapply Forall_impl; [|exact HI]. simpl. auto.
      * constructor.
        -- rewrite map_app. apply in_or_app. now left.
        -- rewrite map_app, map_tsZ_replaceBy, <- map_app in HC. exact HC.
    + assert (Hl' : wellKeyed (l ++ [c])).
      { destruct Hl as [Vl Hnd]. split.
        - apply Forall_app. split; [exact Vl | now constructor].
        - rewrite map_app. simpl. apply NoDup_app; auto.
          + repeat constructor. intros [].
          + intros x Hx [<-|[]]. contradiction. }
      destruct (IH Vcs' (l ++ [c]) Hl') as (N & E & [VN HN] & HF & HI & HC).
      rewrite <- app_assoc in VN, HN, HC. simpl in VN, HN, HC.
      exists (revise cs c :: N). simpl. rewrite upsert_absent by (auto; apply Hl).
      rewrite E, map_app. simpl. rewrite <- app_assoc. simpl.
      assert (Hmap : map (fun x => revise cs (replaceBy c x)) l = map (revise cs) l).
      { rewrite <- (map_map (replaceBy c) (revise cs)).
        rewrite map_replaceBy_absent; auto. apply Hl. }
      assert (Vrc : valid (revise cs c)) by now apply valid_revise.
      assert (HN' : NoDup (map tsZ (l ++ revise cs c :: N))).
      { rewrite map_app in HN |- *. simpl in HN |- *. now rewrite tsZ_revise. }
      apply Forall_app in VN as [Vl VN]. inversion_clear VN as [|? ? _ VN'].
      repeat split.
      * f_equal. symmetry. exact Hmap.
      * apply Forall_app. split; [exact Vl | now constructor].
      * exact HN'.
      * constructor.
        -- simpl. rewrite replaceBy_same; auto. apply tsZ_revise.
        -- rewrite Forall_forall in HF |- *. intros x Hx. simpl.
           rewrite Forall_forall in VN'.
           rewrite replaceBy_other; auto.
           intros Heq. rewrite map_app in HN. simpl in HN.
           apply NoDup_remove_2 in HN. apply HN.
           apply in_or_app. right. rewrite <- Heq. now apply in_map.
      * constructor; [left; symmetry; apply tsZ_revise|].
        eapply Forall_impl; [|exact HI]. simpl. auto.
      * constructor.
        -- rewrite map_app. apply in_or_app. right. simpl. left. apply tsZ_revise.
        -- eapply Forall_impl; [|exact HC]. intros x Hx. simpl in Hx.
           rewrite map_app in Hx |- *. simpl in Hx |- *. now rewrite tsZ_revise.
Qed.

Lemma revise_snoc cs c x : revise (cs ++ [c]) x = replaceBy c (revise cs x).
Proof. now rewrite revise_app. Qed.

Lemma revise_idem cs x : revise cs (revise cs x) = revise cs x.
Proof.
  revert x. induction cs as [|c cs IH] using rev_ind; intros x; [reflexivity|].
  rewrite !revise_snoc. unfold replaceBy at 2 3.
  destruct (ts_eqb (ts (revise cs x)) (ts c)) eqn:E.
  - apply ts_eqb_eq in E as (z & Hx & Hc).
    unfold replaceBy. rewrite ts_revise, Hc. now rewrite ts_eqb_refl.
  - rewrite IH. unfold replaceBy. now rewrite E.
Qed.

Lemma revise_skip cs1 a a' cs2 x :
  ts a = ts a' -> ts_eqb (ts x) (ts a) = false ->
  revise (cs1 ++ a :: cs2) x = revise (cs1 ++ a' :: cs2) x.
Proof.
  intros Ha Hx. rewrite !revise_app. simpl. f_equal.
  unfold replaceBy. now rewrite <- Ha, ts_revise, Hx.
Qed.

Lemma map_fixed {A} (f : A -> A) (l : list A) :
  Forall (fun x => f x = x) l -> map f l = l.
Proof. induction 1; simpl; congruence. Qed.

Lemma ascending_keys l : ascending l <-> StronglySorted Z.lt (map tsZ l).
Proof.
  unfold ascending. induction l as [|x l IH]; simpl.
  - split; constructor.
  - split; intros H; inversion_clear H as [|? ? Hs Hx]; constructor;
      try (apply IH; assumption).
    + apply Forall_map. exact Hx.
    + exact (proj1 (Forall_map tsZ (Z.lt (tsZ x)) l) Hx).
Qed.

Lemma mergeBatch_candles rs l :
  mergeBatch rs l = fold_left upsert (map candleOfRecord rs) l.
Proof.
  unfold mergeBatch. revert l.
  induction rs as [|r rs IH]; intros l; simpl; [reflexivity | apply IH].
Qed.

(** The merged list, before it is sorted and cut. *)
Lemma merge_wellKeyed cs l :
  Forall valid cs -> wellKeyed l ->
  wellKeyed (fold_left upsert cs l) /\
  Forall (fun x => revise cs x = x) (fold_left upsert cs l) /\
  Forall (fun c => In (tsZ c) (map tsZ (fold_left upsert cs l))) cs.
Proof.
  intros Vcs Hl.
  destruct (merge_decomp cs Vcs l Hl) as (N & E & [VN HN] & HF & _ & HC).
  rewrite E. apply Forall_app in VN as [Vl VN]. repeat split.
  - apply Forall_app. split; [|exact VN].
    apply Forall_map. eapply Forall_impl; [|exact Vl].
    intros x. apply valid_revise.
  - rewrite map_app, map_tsZ_revise, <- map_app. exact HN.
  - apply Forall_app. split; [|exact HF].
    apply Forall_map, Forall_forall. intros x _. apply revise_idem.
  - rewrite map_app, map_tsZ_revise, <- map_app. exact HC.
Qed.

(** Merging, into the series [R] a batch [cs] left behind, candles [cs']
    of buckets that [cs] already carried: the entries of [R] are revised
    in place, nothing is added and nothing is moved. *)
Lemma reingest cs cs' l :
  wellKeyed l -> Forall valid cs -> Forall valid cs' ->
  Forall (fun c' => In (tsZ c') (map tsZ cs)) cs' ->
  let R := slice_last 100 (sortCandles (fold_left upsert cs l)) in
  slice_last 100 (sortCandles (fold_left upsert cs' R)) = map (revise cs') R
  /\ Forall (fun x => revise cs x = x) R.
Proof.
  intros Hl Vcs Vcs' Hkeys R.
  destruct (merge_wellKeyed cs l Vcs Hl) as ([VM NM] & FM & CM).
  set (M := fold_left upsert cs l) in *.
  pose proof (sortCandles_perm M) as PS.
  pose proof (sortCandles_ascending M (conj VM NM)) as AS.
  set (S := sortCandles M) in *.
  assert (VS : Forall valid S).
  { eapply Permutation_Forall; [symmetry; exact PS | exact VM]. }
  pose proof (slice_last_split 100 S) as ES. fold R in ES.
  set (E := firstn (length S - 100) S) in *.
  rewrite ES in AS, VS.
  apply ascending_app in AS as (AE & AR & ER).
  apply Forall_app in VS as [VE VR].
  assert (WR : wellKeyed R) by (split; [exact VR | now apply ascending_NoDup]).
  assert (FR : Forall (fun x => revise cs x = x) R).
  { assert (FS : Forall (fun x => revise cs x = x) S).
    { eapply Permutation_Forall; [symmetry; exact PS | exact FM]. }
    rewrite ES in FS. now apply Forall_app in FS. }
  split; [|exact FR].
  destruct (merge_decomp cs' Vcs' R WR) as (N & EN & [VN HN] & _ & HI & _).
  apply Forall_app in VN as [_ VN].
  rewrite EN.
  assert (HNE : Forall (fun x => In (tsZ x) (map tsZ E)) N).
  { rewrite Forall_forall in HI, Hkeys, CM |- *. intros x Hx.
    specialize (HI x Hx). apply in_map_iff in HI as (c' & Hc' & Hin').
    specialize (Hkeys c' Hin'). apply in_map_iff in Hkeys as (c & Hc & Hin).
    specialize (CM c Hin).
    assert (HS : In (tsZ x) (map tsZ S)).
    { eapply Permutation_in; [apply Permutation_map; symmetry; exact PS|].
      congruence. }
    rewrite ES, map_app in HS. apply in_app_or in HS as [HS|HS]; [exact HS|].
    exfalso. rewrite map_app in HN.
    apply (NoDup_app_disjoint _ _ HN (tsZ x) HS). now apply in_map. }
  assert (Hblock : sortCandles (map (revise cs') R ++ N)
                   = sortCandles N ++ map (revise cs') R).
  { apply sortCandles_block.
    - apply Forall_map. eapply Forall_impl; [|exact VR]. intros x. apply valid_revise.
    - exact VN.
    - apply ascending_keys. rewrite map_tsZ_revise. now apply ascending_keys.
    - apply Forall_map. rewrite Forall_forall. intros a Ha.
      rewrite tsZ_revise. rewrite Forall_forall in HNE |- *. intros b Hb.
      specialize (HNE b Hb). apply in_map_iff in HNE as (e & He & HinE).
      rewrite Forall_forall in ER. specialize (ER e HinE).
      rewrite Forall_forall in ER. specialize (ER a Ha). lia. }
  rewrite Hblock.
  destruct N as [|n N].
  - simpl. apply slice_last_all. rewrite length_map. unfold R.
    rewrite length_slice_last. lia.
  - apply slice_last_app_exact. rewrite length_map. unfold R.
    rewrite length_slice_last.
    inversion_clear HNE as [|? ? Hn _].
    assert (HE : (0 < length E)%nat).
    { destruct E; [contradiction | simpl; lia]. }
    unfold E in HE. rewrite length_firstn in HE. lia.
Qed.

Lemma valid_candleOfRecord r : record_valid r -> valid (candleOfRecord r).
Proof. exact (fun H => H). Qed.

Lemma updateGr_reingest batch batch' prev :
  wellKeyed prev -> Forall record_valid batch -> Forall record_valid batch' ->
  map c_timestamp batch' = map c_timestamp batch ->
  let s1 := updateGrCandles batch prev in
  updateGrCandles batch' s1 = map (revise (map candleOfRecord batch')) s1 /\
  Forall (fun x => revise (map candleOfRecord batch) x = x) s1.
Proof.
  intros Hprev Vb Vb' Hts. unfold updateGrCandles.
  rewrite !mergeBatch_candles.
  apply reingest; auto.
  - apply Forall_map. eapply Forall_impl; [|exact Vb]. auto.
  - apply Forall_map. eapply Forall_impl; [|exact Vb']. auto.
  - apply Forall_map, Forall_forall. intros r' Hr'.
    assert (E : map tsZ (map candleOfRecord batch')
                = map tsZ (map candleOfRecord batch)).
    { rewrite !map_map.
      change (fun x => tsZ (candleOfRecord x))
        with (fun x => match c_timestamp x with Ms z => z | InvalidTime => 0 end).
      rewrite <- !(map_map c_timestamp
                     (fun t => match t with Ms z => z | InvalidTime => 0 end)).
      now rewrite Hts. }
    rewrite <- E. apply in_map, in_map. exact Hr'.
Qed.

Lemma updateGr_wellKeyed batch prev :
  wellKeyed prev -> Forall record_valid batch ->
  wellKeyed (updateGrCandles batch prev) /\
  ascending (updateGrCandles batch prev).
Proof.
  intros Hprev Vb. unfold updateGrCandles. rewrite mergeBatch_candles.
  assert (Vcs : Forall valid (map candleOfRecord batch)).
  { apply Forall_map. eapply Forall_impl; [|exact Vb]. auto. }
  destruct (merge_wellKeyed _ prev Vcs Hprev) as (WM & _ & _).
  pose proof (sortCandles_ascending _ WM) as AS.
  assert (VS : Forall valid
                 (sortCandles (fold_left upsert (map candleOfRecord batch) prev))).
  { eapply Permutation_Forall; [symmetry; apply sortCandles_perm | apply WM]. }
  rewrite (slice_last_split 100 (sortCandles _)) in AS, VS.
  apply ascending_app in AS as (_ & AR & _). apply Forall_app in VS as [_ VR].
  repeat split; auto. now apply ascending_NoDup.
Qed.

(** C2 (amended).  For every series whose bucket starts are valid and
    pairwise distinct, and every batch whose records all carry a valid
    timestamp, ingesting the batch twice in succession gives exactly the
    series that ingesting it once gives; that series again has valid,
    pairwise distinct bucket starts, so that the property holds along
    every run that starts from the empty series. *)
Theorem C2_ingest_idempotent :
  forall (prev : list Candle) (batch : list OhlcvRecord),
    wellKeyed prev -> Forall record_valid batch ->
    ingestCandles batch (ingestCandles batch prev) = ingestCandles batch prev
    /\ wellKeyed (ingestCandles batch prev).
Proof.
  intros prev batch Hprev Vb.
  destruct batch as [|r batch]; [split; [reflexivity | exact Hprev]|].
  cbn [ingestCandles]. split.
  - destruct (updateGr_reingest (r :: batch) (r :: batch) prev Hprev Vb Vb eq_refl)
      as [E F].
    rewrite E. now apply map_fixed.
  - now apply updateGr_wellKeyed.
Qed.

Lemma C2_ingest_idempotent_witness :
  let prev := [candle 60000 1 1 1 1 1; candle 120000 2 2 2 2 2] in
  let batch := [record (Ms 180000) 3 3 3 3 3; record (Ms 60000) 4 4 4 4 4] in
  wellKeyed prev /\ Forall record_valid batch /\
  ingestCandles batch (ingestCandles batch prev)
  = [candle 60000 4 4 4 4 4; candle 120000 2 2 2 2 2; candle 180000 3 3 3 3 3].
Proof.
  intros prev batch.
  assert (H1 : wellKeyed prev).
  { split; [repeat constructor|].
    repeat constructor; simpl; intuition discriminate. }
  assert (H2 : Forall record_valid batch) by (repeat constructor).
  split; [exact H1 | split; [exact H2|]].
  rewrite (proj1 (C2_ingest_idempotent prev batch H1 H2)).
  vm_compute. reflexivity.
Defined.

(** Distinct bucket starts are needed: on a series that holds one twice,
    the first ingest revises and then evicts the first of the two entries,
    and the second ingest revises the other one. *)
Example ingest_twice_duplicate_key :
  Forall valid twiceFive /\ Forall record_valid reviseFive /\
  hd_error (ingestCandles reviseFive twiceFive) = Some (candle 5 2 2 2 2 2) /\
  hd_error (ingestCandles reviseFive (ingestCandles reviseFive twiceFive))
  = Some (candle 5 9 9 9 9 9).
Proof.
  split; [|split; [|split]].
  - unfold twiceFive. repeat constructor.
  - repeat constructor.
  - vm_compute. reflexivity.
  - vm_compute. reflexivity.
Qed.

(** C2 as stated fails: a record whose timestamp is no date never matches
    an entry, so each ingest pushes it again. *)
Lemma C2_counterexample : ~ C2_as_stated.
Proof.
  intros H.
  specialize (H [] [record InvalidTime 1 1 1 1 1]).
  vm_compute in H. discriminate.
Qed.

Lemma revise_absent cs x :
  Forall (fun c => ts_eqb (ts x) (ts c) = false) cs -> revise cs x = x.
Proof.
  induction 1 as [|c cs Hc _ IH]; [reflexivity|].
  simpl. unfold replaceBy. now rewrite Hc.
Qed.

Lemma ts_eqb_neq a b : a <> b -> ts_eqb a b = false.
Proof.
  intros Hne. destruct (ts_eqb a b) eqn:E; [|reflexivity].
  apply ts_eqb_eq in E as (z & -> & ->). congruence.
Qed.

Lemma ingestCandles_nonempty b1 r b2 prev :
  ingestCandles (b1 ++ r :: b2) prev = updateGrCandles (b1 ++ r :: b2) prev.
Proof. now destruct b1. Qed.

(** C8 (amended).  For every series whose bucket starts are valid and
    pairwise distinct and every batch whose records all carry a valid
    timestamp: re-ingesting the batch with the close of one record [r]
    changed gives a series of the same length with the same bucket starts
    in the same order, in which every entry of another bucket start than
    [r]'s is identical to before; and the entry of [r]'s bucket start, if
    the series holds one and no other record of the batch has that
    timestamp, is the changed record. *)
Theorem C8_replace_by_key_frame :
  forall (prev : list Candle) (b1 b2 : list OhlcvRecord) (r : OhlcvRecord)
         (cl : option number),
    wellKeyed prev -> Forall record_valid (b1 ++ r :: b2) ->
    let s1 := ingestCandles (b1 ++ r :: b2) prev in
    let s2 := ingestCandles (b1 ++ withClose r cl :: b2) s1 in
    length s2 = length s1 /\
    map ts s2 = map ts s1 /\
    (forall i x, nth_error s1 i = Some x -> ts x <> c_timestamp r ->
                 nth_error s2 i = Some x) /\
    (~ In (c_timestamp r) (map c_timestamp (b1 ++ b2)) ->
     forall i x, nth_error s1 i = Some x -> ts x = c_timestamp r ->
                 nth_error s2 i = Some (candleOfRecord (withClose r cl))).
Proof.
  intros prev b1 b2 r cl Hprev Vb s1 s2. subst s1 s2.
  rewrite !ingestCandles_nonempty.
  assert (Vb' : Forall record_valid (b1 ++ withClose r cl :: b2)).
  { apply Forall_app in Vb as [V1 V2]. inversion_clear V2.
    apply Forall_app. split; [exact V1 | constructor; assumption]. }
  assert (Hts : map c_timestamp (b1 ++ withClose r cl :: b2)
                = map c_timestamp (b1 ++ r :: b2)).
  { now rewrite !map_app. }
  destruct (updateGr_reingest _ _ prev Hprev Vb Vb' Hts) as [E F].
  set (s1 := updateGrCandles (b1 ++ r :: b2) prev) in *.
  rewrite E. rewrite map_app in F |- *. cbn [map] in F |- *.
  repeat split.
  - apply length_map.
  - rewrite map_map. apply map_ext. intros x. apply ts_revise.
  - intros i x Hx Hne. rewrite nth_error_map, Hx. simpl. f_equal.
    rewrite Forall_forall in F. rewrite <- (F x) at 2
      by (eapply nth_error_In; exact Hx).
    symmetry. apply revise_skip; [reflexivity|].
    now apply ts_eqb_neq.
  - intros Hnin i x Hx Heq. rewrite nth_error_map, Hx. simpl. f_equal.
    assert (Habs : forall b, incl b (b1 ++ b2) -> forall y, ts y = c_timestamp r ->
              revise (map candleOfRecord b) y = y).
    { intros b Hb y Hy. apply revise_absent, Forall_map, Forall_forall.
      intros q Hq. apply ts_eqb_neq. rewrite Hy. intros Hc. apply Hnin.
      rewrite Hc. change (ts (candleOfRecord q)) with (c_timestamp q).
      apply in_map, Hb, Hq. }
    rewrite revise_app. cbn [revise fold_left].
    rewrite (Habs b1) by (auto using incl_appl, incl_refl).
    assert (Vr : record_valid r).
    { apply Forall_app in Vb as [_ V2]. now inversion_clear V2. }
    assert (Hrep : replaceBy (candleOfRecord (withClose r cl)) x
                   = candleOfRecord (withClose r cl)).
    { unfold replaceBy. cbn [candleOfRecord withClose ts c_timestamp].
      rewrite Heq. revert Vr. unfold record_valid.
      destruct (c_timestamp r); [intros _ | discriminate].
      now rewrite ts_eqb_refl. }
    rewrite Hrep.
    apply (Habs b2); [auto using incl_appr, incl_refl | reflexivity].
Qed.

Lemma C8_replace_by_key_frame_witness :
  let prev := [candle 60000 1 1 1 1 1] in
  let b1 := [record (Ms 120000) 2 2 2 2 2] in
  let r := record (Ms 180000) 3 3 3 3 3 in
  let s1 := ingestCandles (b1 ++ [r]) prev in
  let s2 := ingestCandles (b1 ++ [withClose r (Some (of_Z 9))]) s1 in
  wellKeyed prev /\ Forall record_valid (b1 ++ [r]) /\
  length s2 = length s1 /\
  nth_error s2 1 = Some (candle 120000 2 2 2 2 2) /\
  nth_error s2 2 = Some (candle 180000 3 3 3 9 3).
Proof.
  intros prev b1 r s1 s2.
  assert (H1 : wellKeyed prev).
  { split; [repeat constructor|].
    repeat constructor; simpl; intuition discriminate. }
  assert (H2 : Forall record_valid (b1 ++ [r])) by (repeat constructor).
  split; [exact H1 | split; [exact H2|]].
  destruct (C8_replace_by_key_frame prev b1 [] r (Some (of_Z 9)) H1 H2)
    as (Hlen & _ & Hother & Hsame).
  split; [exact Hlen | split].
  - apply Hother; [reflexivity | discriminate].
  - assert (Hnin : ~ In (c_timestamp r) (map c_timestamp (b1 ++ []))).
    { intros [Heq|[]]. discriminate Heq. }
    apply (Hsame Hnin 2%nat (candle 180000 3 3 3 3 3)); reflexivity.
Defined.

(** C8 as stated fails: beside the changed entry, the re-ingested batch
    pushes its record without a valid timestamp once more. *)
Lemma C8_counterexample : ~ C8_as_stated.
Proof.
  intros H.
  destruct (H [] [] [record InvalidTime 2 2 2 2 2] (record (Ms 60000) 1 1 1 1 1)
              (Some (of_Z 9))) as [Hlen _].
  vm_compute in Hlen. discriminate.
Qed.

(* ------------------------------------------------------------------ *)
(** ** Bounds and eviction *)

Lemma length_updateHlCandles b price size prev :
  (length prev <= 100)%nat ->
  (length (updateHlCandles b price size prev) <= 100)%nat.
Proof.
  intros Hlen. unfold updateHlCandles.
  assert (Hfresh : (length (slice_last 100 (prev ++ [freshCandle b price size]))
                    <= 100)%nat).
  { rewrite length_slice_last. lia. }
  destruct (last_elem prev) as [c|] eqn:E; [|exact Hfresh].
  destruct (ts_eqb (ts c) b); [|exact Hfresh].
  rewrite (last_elem_Some prev c E) in Hlen.
  rewrite length_app in Hlen |- *. exact Hlen.
Qed.

Lemma length_ingestTrades trs prev :
  (length prev <= 100)%nat -> (length (ingestTrades trs prev) <= 100)%nat.
Proof.
  revert prev. induction trs as [|tr trs IH]; intros prev H; [exact H|].
  apply IH, length_updateHlCandles, H.
Qed.

Lemma length_ingestCandles batch prev :
  (length prev <= 100)%nat -> (length (ingestCandles batch prev) <= 100)%nat.
Proof.
  intros H. destruct batch as [|r batch]; [exact H|].
  cbn [ingestCandles]. unfold updateGrCandles. rewrite length_slice_last. lia.
Qed.

Lemma onGrNext_grCandles candles payload st :
  grCandles (onGrNext (Some candles) payload st)
  = ingestCandles candles (grCandles st).
Proof. now destruct candles. Qed.

Lemma step_hlCandles st ev :
  hlCandles (step st ev)
  = match ev with
    | WsTrades newTrades => ingestTrades newTrades (hlCandles st)
    | _ => hlCandles st
    end.
Proof. destruct ev as [trs| |[[|c cs]|] payload|msg]; reflexivity. Qed.

Lemma step_grCandles st ev :
  grCandles (step st ev)
  = match ev with
    | GrNext (Some candles) _ => ingestCandles candles (grCandles st)
    | _ => grCandles st
    end.
Proof. destruct ev as [trs| |[[|c cs]|] payload|msg]; reflexivity. Qed.

Lemma run_snoc evs ev : run (evs ++ [ev]) = step (run evs) ev.
Proof. unfold run. now rewrite fold_left_app. Qed.

Lemma run_length evs :
  (length (hlCandles (run evs)) <= 100)%nat /\
  (length (grCandles (run evs)) <= 100)%nat.
Proof.
  induction evs as [|ev evs [IH1 IH2]] using rev_ind; [simpl; lia|].
  rewrite run_snoc, step_hlCandles, step_grCandles. split.
  - destruct ev; auto. now apply length_ingestTrades.
  - destruct ev as [| |[candles|] ?|]; auto. now apply length_ingestCandles.
Qed.

(** The trade aggregator cuts at the front. *)
Lemma ingestTrade_shape prev tr :
  (exists c, prev = removelast prev ++ [c] /\
             ingestTrade prev tr
             = removelast prev ++ [updatedCandle c (px tr) (sz tr)]) \/
  ingestTrade prev tr
  = slice_last 99 prev
      ++ [freshCandle (Ms (bucketStart (time tr))) (px tr) (sz tr)].
Proof.
  unfold ingestTrade, updateHlCandles.
  destruct (last_elem prev) as [c|] eqn:E.
  - destruct (ts_eqb (ts c) (Ms (bucketStart (time tr)))).
    + left. exists c. split; [now apply last_elem_Some | reflexivity].
    + right. apply slice_last_snoc.
  - right. apply slice_last_snoc.
Qed.

Lemma bucketStart_mono s t : s <= t -> bucketStart s <= bucketStart t.
Proof.
  intros H. unfold bucketStart.
  apply Z.mul_le_mono_nonneg_r; [lia | apply Z.div_le_mono; lia].
Qed.

Lemma ascending_snoc l x :
  ascending l -> Forall (fun y => tsZ y < tsZ x) l -> ascending (l ++ [x]).
Proof.
  intros Hl Hx. apply ascending_app. repeat split; auto.
  - repeat constructor.
  - eapply Forall_impl; [|exact Hx]. intros y Hy. now repeat constructor.
Qed.

Lemma ascending_last_max l c :
  ascending (l ++ [c]) -> Forall (fun y => tsZ y < tsZ c) l.
Proof.
  intros H. apply ascending_app in H as (_ & _ & H).
  eapply Forall_impl; [|exact H]. intros y Hy. now inversion_clear Hy.
Qed.

(** Trades that arrive in timestamp order keep the series ascending. *)
Lemma ingestTrades_ascending trs :
  forall prev,
    inOrder trs -> Forall valid prev -> ascending prev ->
    Forall (fun x => Forall (fun tr => tsZ x <= bucketStart (time tr)) trs) prev ->
    ascending (ingestTrades trs prev).
Proof.
  induction trs as [|tr trs IH]; intros prev Ho Vp Ap Hle; [exact Ap|].
  inversion_clear Ho as [|? ? Ho' Htr].
  set (b := bucketStart (time tr)).
  assert (Hb : Forall (fun x => tsZ x <= b) prev).
  { eapply Forall_impl; [|exact Hle]. intros x Hx. now inversion_clear Hx. }
  assert (Hrest : Forall (fun x => Forall (fun tr => tsZ x <= bucketStart (time tr))
                                          trs) prev).
  { eapply Forall_impl; [|exact Hle]. intros x Hx. now inversion_clear Hx. }
  assert (Hnew : forall c, tsZ c = b ->
            Forall (fun tr' => tsZ c <= bucketStart (time tr')) trs).
  { intros c ->. eapply Forall_impl; [|exact Htr].
    intros tr' Hle'. now apply bucketStart_mono. }
  change (ingestTrades (tr :: trs) prev) with (ingestTrades trs (ingestTrade prev tr)).
  destruct (last_elem prev) as [c|] eqn:E.
  - pose proof (last_elem_Some prev c E) as Hsplit.
    rewrite Hsplit in Vp, Ap, Hb, Hrest.
    apply Forall_app in Vp as [Vf Vc]. inversion_clear Vc as [|? ? Vc' _].
    apply Forall_app in Hb as [Hbf Hbc]. inversion_clear Hbc as [|? ? Hbc' _].
    apply Forall_app in Hrest as [Hrf Hrc]. inversion_clear Hrc as [|? ? Hrc' _].
    pose proof (ascending_last_max _ _ Ap) as Hmax.
    unfold ingestTrade, updateHlCandles. rewrite E.
    rewrite (valid_Ms c Vc'). cbn [ts_eqb]. fold b.
    destruct (tsZ c =? b) eqn:Eb.
    + apply Z.eqb_eq in Eb. apply IH; auto.
      * apply Forall_app. split; [exact Vf|]. now repeat constructor.
      * apply ascending_keys. rewrite map_app. cbn [map].
        change (tsZ (updatedCandle c (px tr) (sz tr))) with (tsZ c).
        change [tsZ c] with (map tsZ [c]). rewrite <- map_app.
        now apply ascending_keys.
      * apply Forall_app. split; [exact Hrf|]. now repeat constructor.
    + apply Z.eqb_neq in Eb.
      assert (Hall : Forall (fun y => tsZ y < b) prev).
      { rewrite Hsplit. apply Forall_app. split.
        - eapply Forall_impl; [|exact Hmax]. simpl. intros; lia.
        - repeat constructor. lia. }
      apply IH; auto.
      * apply Forall_slice_last, Forall_app. split.
        -- rewrite Hsplit. apply Forall_app. split; [exact Vf | now repeat constructor].
        -- now repeat constructor.
      * assert (A : ascending (prev ++ [freshCandle (Ms b) (px tr) (sz tr)])).
        { apply ascending_snoc; [now rewrite Hsplit | exact Hall]. }
        rewrite (slice_last_split 100 (prev ++ _)) in A.
        now apply ascending_app in A.
      * apply Forall_slice_last, Forall_app. split.
        -- rewrite Hsplit. apply Forall_app. split; [exact Hrf | now repeat constructor].
        -- repeat constructor. now apply Hnew.
  - apply last_elem_None in E. subst prev.
    apply IH; auto.
    + now repeat constructor.
    + repeat constructor.
    + repeat constructor. now apply Hnew.
Qed.

Lemma ingestTrades_snoc trs tr prev :
  ingestTrades (trs ++ [tr]) prev = ingestTrade (ingestTrades trs prev) tr.
Proof. unfold ingestTrades. now rewrite fold_left_app. Qed.

(** Every candle of the series was opened by one of the trades. *)
Lemma ingestTrades_origin trs :
  Forall (fun x => exists t, In t trs /\ ts x = Ms (bucketStart (time t)))
         (ingestTrades trs []).
Proof.
  induction trs as [|tr trs IH] using rev_ind; [constructor|].
  rewrite ingestTrades_snoc.
  assert (IH' : Forall (fun x => exists t, In t (trs ++ [tr]) /\
                                  ts x = Ms (bucketStart (time t)))
                       (ingestTrades trs [])).
  { eapply Forall_impl; [|exact IH]. intros x (t & Ht & Hx).
    exists t. split; [apply in_or_app; now left | exact Hx]. }
  destruct (ingestTrade_shape (ingestTrades trs []) tr) as [(c & Hs & ->)| ->].
  - rewrite Hs in IH'. apply Forall_app in IH' as [Hf Hc].
    apply Forall_app. split; [exact Hf|]. inversion_clear Hc. now repeat constructor.
  - apply Forall_app. split.
    + rewrite (slice_last_split 99 (ingestTrades trs [])) in IH'.
      now apply Forall_app in IH'.
    + repeat constructor. exists tr. split; [|reflexivity].
      apply in_or_app. right. now left.
Qed.

Lemma ingestTrades_valid trs : Forall valid (ingestTrades trs []).
Proof.
  eapply Forall_impl; [|apply ingestTrades_origin].
  intros x (t & _ & Hx). unfold valid. now rewrite Hx.
Qed.

Lemma inOrder_snoc trs tr :
  inOrder (trs ++ [tr]) ->
  inOrder trs /\ Forall (fun t => time t <= time tr) trs.
Proof.
  unfold inOrder. induction trs as [|t trs IH]; simpl; intros H.
  - split; constructor.
  - inversion_clear H as [|? ? Hs Ht]. destruct (IH Hs) as [H1 H2].
    apply Forall_app in Ht as [Ht1 Ht2]. inversion_clear Ht2.
    split; constructor; auto.
Qed.

Lemma ingestTrades_ascending_nil trs :
  inOrder trs -> ascending (ingestTrades trs []).
Proof.
  intros H. apply ingestTrades_ascending; auto; constructor.
Qed.

Lemma tsZ_ts x y : ts x = ts y -> tsZ x = tsZ y.
Proof. unfold tsZ. now intros ->. Qed.

Lemma hl_evicts_smallest trs tr e :
  inOrder (trs ++ [tr]) ->
  let prev := ingestTrades trs [] in
  let next := ingestTrade prev tr in
  evicted e prev next -> Forall (fun x => tsZ e <= tsZ x) next.
Proof.
  intros Ho prev next [Hin Hout].
  apply inOrder_snoc in Ho as [Ho Hle].
  pose proof (ingestTrades_ascending_nil trs Ho) as Asc. fold prev in Asc.
  pose proof (ingestTrades_origin trs) as Hor. fold prev in Hor.
  subst next.
  destruct (ingestTrade_shape prev tr) as [(c & Hs & E)|E]; rewrite E in *.
  - exfalso. apply Hout. rewrite map_app. cbn [map updatedCandle ts].
    change [ts c] with (map ts [c]). rewrite <- map_app, <- Hs.
    now apply in_map.
  - rewrite (slice_last_split 99 prev) in Hin, Asc.
    apply ascending_app in Asc as (_ & _ & Hlt).
    apply in_app_or in Hin as [Hin|Hin].
    + rewrite Forall_forall in Hlt. specialize (Hlt e Hin).
      apply Forall_app. split.
      * eapply Forall_impl; [|exact Hlt]. simpl. intros; lia.
      * repeat constructor.
        rewrite Forall_forall in Hor.
        assert (Hin' : In e prev).
        { rewrite (slice_last_split 99 prev). apply in_or_app. now left. }
        destruct (Hor e Hin') as (t & Ht & Hts).
        unfold tsZ at 1. rewrite Hts. cbn [tsZ freshCandle ts].
        apply bucketStart_mono. rewrite Forall_forall in Hle. now apply Hle.
    + exfalso. apply Hout. rewrite map_app. apply in_or_app. left.
      now apply in_map.
Qed.

Lemma ingestAll_snoc batches batch :
  ingestAll (batches ++ [batch]) = ingestCandles batch (ingestAll batches).
Proof. unfold ingestAll. now rewrite fold_left_app. Qed.

Lemma ingestAll_wellKeyed batches :
  Forall (Forall record_valid) batches -> wellKeyed (ingestAll batches).
Proof.
  induction batches as [|batch batches IH] using rev_ind; intros H.
  - split; constructor.
  - apply Forall_app in H as [H1 H2]. inversion_clear H2 as [|? ? Hb _].
    rewrite ingestAll_snoc. destruct batch as [|r batch]; [now apply IH|].
    now apply updateGr_wellKeyed; auto.
Qed.

Lemma gr_evicts_smallest prev batch e :
  wellKeyed prev -> Forall record_valid batch ->
  evicted e prev (ingestCandles batch prev) ->
  Forall (fun x => tsZ e < tsZ x) (ingestCandles batch prev).
Proof.
  intros Hprev Vb [Hin Hout].
  destruct batch as [|r batch].
  { exfalso. apply Hout. now apply in_map. }
  cbn [ingestCandles] in *. unfold updateGrCandles in *.
  rewrite mergeBatch_candles in *.
  set (cs := map candleOfRecord (r :: batch)) in *.
  assert (Vcs : Forall valid cs).
  { apply Forall_map. eapply Forall_impl; [|exact Vb]. auto. }
  destruct (merge_decomp cs Vcs prev Hprev) as (N & E & _).
  destruct (merge_wellKeyed cs prev Vcs Hprev) as (WM & _ & _).
  pose proof (sortCandles_ascending _ WM) as AS.
  pose proof (sortCandles_perm (fold_left upsert cs prev)) as PS.
  set (S := sortCandles (fold_left upsert cs prev)) in *.
  assert (HS : In (revise cs e) S).
  { eapply Permutation_in; [symmetry; exact PS|]. rewrite E.
    apply in_or_app. left. now apply in_map. }
  rewrite (slice_last_split 100 S) in HS, AS.
  apply ascending_app in AS as (_ & _ & Hlt).
  apply in_app_or in HS as [HS|HS].
  - rewrite Forall_forall in Hlt. specialize (Hlt _ HS).
    now rewrite tsZ_revise in Hlt.
  - exfalso. apply Hout. rewrite <- (ts_revise cs e). now apply in_map.
Qed.

Lemma updateHlCandles_shape b price size prev :
  (exists c, prev = removelast prev ++ [c] /\
             updateHlCandles b price size prev
             = removelast prev ++ [updatedCandle c price size]) \/
  updateHlCandles b price size prev
  = slice_last 99 prev ++ [freshCandle b price size].
Proof.
  unfold updateHlCandles.
  destruct (last_elem prev) as [c|] eqn:E.
  - destruct (ts_eqb (ts c) b).
    + left. exists c. split; [now apply last_elem_Some | reflexivity].
    + right. apply slice_last_snoc.
  - right. apply slice_last_snoc.
Qed.

(** C6 (amended).  Along every run each of the two series holds at most
    100 candles.  The trade aggregator cuts at the front: whatever the
    bucket of the trade, an ingest leaves either the series with its tail
    candle updated, or its last 99 candles followed by the new one; what
    it evicts is below everything it keeps whenever the trades arrived in
    non-decreasing timestamp order, with integer times from 0 to below
    2^53 ms.  The candle merger, fed records with valid timestamps, evicts
    only entries strictly below everything it keeps. *)
Theorem C6_bounded_series :
  (forall evs,
     (length (hlCandles (run evs)) <= 100)%nat /\
     (length (grCandles (run evs)) <= 100)%nat) /\
  (forall b price size prev,
     (exists c, prev = removelast prev ++ [c] /\
                updateHlCandles b price size prev
                = removelast prev ++ [updatedCandle c price size]) \/
     updateHlCandles b price size prev
     = slice_last 99 prev ++ [freshCandle b price size]) /\
  (forall trs tr e,
     inOrder (trs ++ [tr]) ->
     Forall timeInRange (trs ++ [tr]) ->
     let prev := ingestTrades trs [] in
     let next := ingestTrade prev tr in
     evicted e prev next -> Forall (fun x => tsZ e <= tsZ x) next) /\
  (forall batches batch e,
     Forall (Forall record_valid) (batches ++ [batch]) ->
     let prev := ingestAll batches in
     let next := ingestCandles batch prev in
     evicted e prev next -> Forall (fun x => tsZ e < tsZ x) next).
Proof.
  split; [exact run_length|].
  split; [exact updateHlCandles_shape|].
  split; [intros trs tr e Hord _; now apply hl_evicts_smallest|].
  intros batches batch e H prev next Hev.
  apply Forall_app in H as [H1 H2]. inversion_clear H2 as [|? ? Hb _].
  apply gr_evicts_smallest; auto. now apply ingestAll_wellKeyed.
Qed.

Lemma inOrder_minuteTrades (a n : nat) : inOrder (minuteTrades (seq a n)).
Proof.
  revert a. induction n as [|n IH]; intros a; [constructor|].
  unfold minuteTrades. cbn [seq map]. constructor; [apply IH|].
  apply Forall_forall. intros t Ht. apply in_map_iff in Ht as (k & <- & Hk).
  apply in_seq in Hk. cbn [time trade]. lia.
Qed.

Lemma C6_bounded_series_witness :
  let trs := minuteTrades (seq 1 100) in
  let tr := trade (60000 * 101) 1 1 in
  let batches := [minuteRecords (seq 1 100)] in
  let batch := [record (Ms (60000 * 101)) 1 1 1 1 1] in
  let e := candle 60000 1 1 1 1 1 in
  (inOrder (trs ++ [tr]) /\ Forall timeInRange (trs ++ [tr]) /\
   length (ingestTrades trs []) = 100%nat /\
   evicted e (ingestTrades trs []) (ingestTrade (ingestTrades trs []) tr) /\
   Forall (fun x => tsZ e <= tsZ x) (ingestTrade (ingestTrades trs []) tr)) /\
  (Forall (Forall record_valid) (batches ++ [batch]) /\
   length (ingestAll batches) = 100%nat /\
   evicted e (ingestAll batches) (ingestCandles batch (ingestAll batches)) /\
   Forall (fun x => tsZ e < tsZ x) (ingestCandles batch (ingestAll batches))).
Proof.
  intros trs tr batches batch e.
  assert (H1 : inOrder (trs ++ [tr])).
  { change (trs ++ [tr]) with (minuteTrades (seq 1 101)).
    apply inOrder_minuteTrades. }
  assert (H2 : Forall timeInRange (trs ++ [tr])).
  { apply Forall_forall. intros t Ht.
    change (trs ++ [tr]) with (minuteTrades (seq 1 101)) in Ht.
    apply in_map_iff in Ht as (k & <- & Hk). apply in_seq in Hk.
    unfold timeInRange. cbn [time trade]. lia. }
  assert (H3 : evicted e (ingestTrades trs [])
                 (ingestTrade (ingestTrades trs []) tr)).
  { split.
    - vm_compute. left. reflexivity.
    - vm_compute. intros Hin.
      repeat (destruct Hin as [Hin|Hin]; [discriminate Hin|]). exact Hin. }
  assert (H4 : Forall (Forall record_valid) (batches ++ [batch])).
  { repeat constructor. }
  assert (H5 : evicted e (ingestAll batches)
                 (ingestCandles batch (ingestAll batches))).
  { split.
    - vm_compute. left. reflexivity.
    - vm_compute. intros Hin.
      repeat (destruct Hin as [Hin|Hin]; [discriminate Hin|]). exact Hin. }
  split.
  - split; [exact H1 | split; [exact H2 | split; [vm_compute; reflexivity | split; [exact H3|]]]].
    exact (proj1 (proj2 (proj2 C6_bounded_series)) trs tr e H1 H2 H3).
  - split; [exact H4 | split; [vm_compute; reflexivity | split; [exact H5|]]].
    exact (proj2 (proj2 (proj2 C6_bounded_series)) batches batch e H4 H5).
Defined.

(** C6 as stated fails: after trades of minute 1000 and then of minutes
    1 to 99, a trade of minute 100 evicts the candle of minute 1000, the
    greatest bucket start of the series. *)
Lemma C6_counterexample : ~ C6_as_stated.
Proof.
  intros (_ & H & _).
  specialize (H (minuteTrades (1000 :: seq 1 99)%nat)
                (trade (60000 * 100) 1 1)
                (candle (60000 * 1000) 1 1 1 1 1)).
  cbv zeta in H.
  assert (Hev : evicted (candle (60000 * 1000) 1 1 1 1 1)
                  (ingestTrades (minuteTrades (1000 :: seq 1 99)%nat) [])
                  (ingestTrade (ingestTrades (minuteTrades (1000 :: seq 1 99)%nat) [])
                               (trade (60000 * 100) 1 1))).
  { split.
    - vm_compute. left. reflexivity.
    - vm_compute. intros Hin.
      repeat (destruct Hin as [Hin|Hin]; [discriminate Hin|]). exact Hin. }
  specialize (H Hev). vm_compute in H.
  inversion_clear H as [|? ? Hle _]. apply Hle. reflexivity.
Qed.

(* ------------------------------------------------------------------ *)
(** ** Metrics *)

Lemma length_assign {A} i (x : A) l : length (assign i x l) = length l.
Proof.
  revert i. induction l as [|y l IH]; intros [|i]; simpl; auto.
Qed.

Lemma upsert_nonempty l c : upsert l c <> [].
Proof.
  unfold upsert. destruct (findIndex _ l) as [i|] eqn:E.
  - destruct l; [discriminate|]. intros H%(f_equal (@length _)).
    rewrite length_assign in H. discriminate.
  - now destruct l.
Qed.

Lemma mergeBatch_nonempty r batch prev : mergeBatch (r :: batch) prev <> [].
Proof.
  rewrite mergeBatch_candles. simpl.
  generalize (upsert_nonempty prev (candleOfRecord r)).
  generalize (upsert prev (candleOfRecord r)). 
  induction (map candleOfRecord batch) as [|c cs IH]; intros l Hl; [exact Hl|].
  simpl. apply IH, upsert_nonempty.
Qed.

Lemma ingestCandles_nil batch prev :
  ingestCandles batch prev = [] -> prev = [].
Proof.
  destruct batch as [|r batch]; [auto|]. cbn [ingestCandles].
  unfold updateGrCandles. intros H. exfalso.
  apply (f_equal (@length _)) in H.
  rewrite length_slice_last, sortCandles_length in H.
  pose proof (mergeBatch_nonempty r batch prev) as Hne.
  destruct (mergeBatch (r :: batch) prev); [contradiction | simpl in H; lia].
Qed.

Lemma ingestTrade_nonempty prev tr : ingestTrade prev tr <> [].
Proof.
  destruct (ingestTrade_shape prev tr) as [(c & _ & ->)| ->];
    intros H; apply app_eq_nil in H as [_ H]; discriminate.
Qed.

Lemma ingestTrades_nil trs prev : ingestTrades trs prev = [] -> prev = [].
Proof.
  revert prev. induction trs as [|tr trs IH]; intros prev H; [exact H|].
  apply IH in H. now apply ingestTrade_nonempty in H.
Qed.

Lemma step_metrics st ev :
  metrics (step st ev)
  = metricsEffect (hlCandles (step st ev)) (grCandles (step st ev)) (metrics st).
Proof. destruct ev as [trs| |[[|c cs]|] payload|msg]; reflexivity. Qed.

Lemma eitherEmpty_spec hl gr :
  eitherEmpty hl gr = true <-> hl = [] \/ gr = [].
Proof.
  unfold eitherEmpty. rewrite orb_true_iff, !Nat.eqb_eq.
  split; (intros [H|H]; [left|right]); try (now subst);
    now apply length_zero_iff_nil.
Qed.

(** Neither series ever becomes empty again, so the early return of the
    effect only ever keeps the initial metrics. *)
Lemma run_metrics evs :
  avgLatencyDiffMs (metrics (run evs)) = zero /\
  (eitherEmpty (hlCandles (run evs)) (grCandles (run evs)) = true ->
   metrics (run evs) = metrics0).
Proof.
  induction evs as [|ev evs [IH1 IH2]] using rev_ind; [split; reflexivity|].
  rewrite run_snoc, step_metrics. unfold metricsEffect.
  fold (eitherEmpty (hlCandles (step (run evs) ev)) (grCandles (step (run evs) ev))).
  destruct (eitherEmpty (hlCandles (step (run evs) ev))
                        (grCandles (step (run evs) ev))) eqn:E.
  - assert (E' : eitherEmpty (hlCandles (run evs)) (grCandles (run evs)) = true).
    { apply eitherEmpty_spec. apply eitherEmpty_spec in E.
      rewrite step_hlCandles, step_grCandles in E. destruct E as [E|E].
      - left. destruct ev; auto. now apply ingestTrades_nil in E.
      - right. destruct ev as [| |[candles|] ?|]; auto.
        now apply ingestCandles_nil in E. }
    split; [exact IH1 | intros _; now apply IH2].
  - split; [reflexivity | discriminate].
Qed.

(** C10.  The metrics carry a third field [avgLatencyDiffMs]; it is 0 in
    the initial metrics, every recomputation writes 0 to it, and so it is
    0 in every state the component reaches. *)
Theorem C10_avgLatencyDiffMs_zero :
  avgLatencyDiffMs (metrics init) = zero /\
  (forall hl gr, avgLatencyDiffMs (computedMetrics hl gr) = zero) /\
  (forall evs, avgLatencyDiffMs (metrics (run evs)) = zero).
Proof.
  split; [reflexivity|]. split; [reflexivity|].
  intros evs. apply run_metrics.
Qed.

Lemma mul_comm x y : mul x y = mul y x.
Proof.
  unfold mul. destruct x as [sx|sx| |sx mx ex], y as [sy|sy| |sy my ey];
    simpl; try reflexivity; rewrite ?(xorb_comm sx sy); try reflexivity.
  now rewrite (Pos.mul_comm mx my), (Z.add_comm ex ey).
Qed.

Lemma matched_findMatch gr a :
  matched gr a = match findMatch gr a with Some _ => true | None => false end.
Proof.
  unfold matched, findMatch. induction gr as [|b gr IH]; simpl; [reflexivity|].
  destruct (ts_eqb (ts b) (ts a)); [reflexivity | exact IH].
Qed.

(** The loop of the effect, read as a count and a sum over the matched
    candles. *)
Lemma metricsLoop_spec gr hl acc :
  fold_left (metricsStep gr) hl acc
  = {| matches := length (matchedCandles hl gr) + matches acc;
       priceDiffSum :=
         fold_left add (map (deviation gr) (matchedCandles hl gr))
                   (priceDiffSum acc);
       count := length (matchedCandles hl gr) + count acc |}.
Proof.
  revert acc. induction hl as [|a hl IH]; intros acc; [now destruct acc|].
  simpl. rewrite IH. unfold metricsStep, matchedCandles, deviation. simpl.
  rewrite matched_findMatch.
  destruct (findMatch gr a) as [b|] eqn:E; simpl.
  - rewrite E. f_equal; lia.
  - reflexivity.
Qed.

Lemma computedMetrics_spec hl gr :
  computedMetrics hl gr
  = {| matchedPct := roundedMatchedPct hl gr;
       meanPriceBps := meanDeviationBps hl gr;
       avgLatencyDiffMs := zero |}.
Proof.
  unfold computedMetrics, metricsLoop, roundedMatchedPct, meanDeviationBps.
  rewrite metricsLoop_spec. cbn [matches count priceDiffSum accum0].
  rewrite !Nat.add_0_r. fold (matchCount hl gr). fold (deviationSum hl gr).
  now rewrite (mul_comm (div (deviationSum hl gr) (of_nat (matchCount hl gr)))
                        (of_Z 10000)).
Qed.

(** C3 (amended).  When either series is empty the effect leaves the
    metrics as they are, which along every run is all zero.  Otherwise
    [matchedPct] is the percentage [100 x matchCount / |seriesA|] rounded
    to an integer when [matchCount > 0] and 0 otherwise, where matchCount
    is the number of seriesA candles whose bucket start occurs in seriesB,
    and [meanPriceBps] is [10000 x (sum / matchCount)] when
    [matchCount > 0] and 0 otherwise, the sum running over the matched
    candles of [|closeA - closeB| / closeA] with the first seriesB candle
    of that bucket start.  For the scenario of the specification it gives
    [matchedPct = 50] and a [meanPriceBps] within 1e-9 of 100 (the
    binary64 number 7036874417766375 x 2^-46). *)
Theorem C3_metrics_reference :
  (forall (seriesA seriesB : list Candle) (prev : Metrics),
     metricsEffect seriesA seriesB prev
     = if eitherEmpty seriesA seriesB then prev
       else {| matchedPct := roundedMatchedPct seriesA seriesB;
               meanPriceBps := meanDeviationBps seriesA seriesB;
               avgLatencyDiffMs := zero |}) /\
  (forall evs,
     eitherEmpty (hlCandles (run evs)) (grCandles (run evs)) = true ->
     metrics (run evs) = metrics0) /\
  matchedPct (metricsEffect scenarioA scenarioB metrics0) = of_Z 50 /\
  meanPriceBps (metricsEffect scenarioA scenarioB metrics0)
  = S754_finite false 7036874417766375 (-46) /\
  leb (Math_abs (sub (meanPriceBps (metricsEffect scenarioA scenarioB metrics0))
                     (of_Z 100)))
      (decimal 1 9) = true.
Proof.
  split; [|split; [|split; [|split]]].
  - intros A B prev. unfold metricsEffect. fold (eitherEmpty A B).
    destruct (eitherEmpty A B); [reflexivity | apply computedMetrics_spec].
  - intros evs. apply run_metrics.
  - vm_compute. reflexivity.
  - vm_compute. reflexivity.
  - vm_compute. reflexivity.
Qed.

Lemma C3_metrics_reference_witness :
  eitherEmpty (hlCandles (run [WsTrades [trade 1000 5 1]]))
              (grCandles (run [WsTrades [trade 1000 5 1]])) = true /\
  metrics (run [WsTrades [trade 1000 5 1]]) = metrics0.
Proof.
  assert (H : eitherEmpty (hlCandles (run [WsTrades [trade 1000 5 1]]))
                (grCandles (run [WsTrades [trade 1000 5 1]])) = true)
    by reflexivity.
  split; [exact H|].
  exact (proj1 (proj2 C3_metrics_reference) [WsTrades [trade 1000 5 1]] H).
Defined.

(** C3 as stated fails: on the scenario the effect reports the rounded
    percentage 50, not the fraction 0.5. *)
Lemma C3_counterexample : ~ C3_as_stated.
Proof.
  intros H. destruct (H scenarioA scenarioB metrics0) as [H1 _].
  vm_compute in H1. discriminate.
Qed.

(* ------------------------------------------------------------------ *)
(** ** Division by a zero close *)

Lemma add_nonfinite_l x y : is_finite x = false -> is_finite (add x y) = false.
Proof.
  destruct x as [sx|[|]| |sx mx ex], y as [sy|[|]| |sy my ey];
    simpl; intros H; try discriminate; reflexivity.
Qed.

Lemma add_nonfinite_r x y : is_finite y = false -> is_finite (add x y) = false.
Proof.
  destruct x as [sx|[|]| |sx mx ex], y as [sy|[|]| |sy my ey];
    simpl; intros H; try discriminate; reflexivity.
Qed.

Lemma div_nonfinite x y : is_finite x = false -> is_finite (div x y) = false.
Proof.
  destruct x as [sx|sx| |sx mx ex], y as [sy|sy| |sy my ey];
    simpl; intros H; try discriminate; reflexivity.
Qed.

Lemma mul_nonfinite x y : is_finite y = false -> is_finite (mul x y) = false.
Proof.
  destruct x as [sx|sx| |sx mx ex], y as [sy|sy| |sy my ey];
    simpl; intros H; try discriminate; reflexivity.
Qed.

Lemma fold_add_nonfinite l acc :
  is_finite acc = false -> is_finite (fold_left add l acc) = false.
Proof.
  revert acc. induction l as [|x l IH]; intros acc H; [exact H|].
  simpl. now apply IH, add_nonfinite_l.
Qed.

Lemma fold_add_nonfinite_in l acc x :
  In x l -> is_finite x = false -> is_finite (fold_left add l acc) = false.
Proof.
  revert acc. induction l as [|y l IH]; intros acc Hin Hx; [contradiction|].
  simpl. destruct Hin as [->|Hin].
  - now apply fold_add_nonfinite, add_nonfinite_r.
  - now apply IH.
Qed.

(** Dividing by a zero close gives Infinity or NaN, whatever the other
    close is. *)
Lemma priceDiff_zero_close a b :
  is_zero (close a) = true -> is_finite (priceDiff a b) = false.
Proof.
  unfold priceDiff. destruct (close a) as [sa| | |]; try discriminate.
  intros _. destruct (close b) as [sb|sb| |sb mb eb]; simpl;
    try reflexivity; destruct sa, sb; reflexivity.
Qed.

(** C4 (amended).  The deviation loop has no guard on the seriesA close:
    every matched bucket enters both the sum and its divisor, the term of
    a matched bucket whose seriesA close is 0 is the Infinity or NaN that
    binary64 division by zero gives (no fault is raised), and whenever
    such a bucket is matched [meanPriceBps] is not a finite number. *)
Theorem C4_zero_close_not_skipped :
  forall (hl gr : list Candle),
    count (metricsLoop hl gr) = matchCount hl gr /\
    matches (metricsLoop hl gr) = matchCount hl gr /\
    priceDiffSum (metricsLoop hl gr) = deviationSum hl gr /\
    (forall a b, is_zero (close a) = true -> is_finite (priceDiff a b) = false) /\
    (forall a, In a hl -> matched gr a = true -> is_zero (close a) = true ->
               is_finite (meanPriceBps (computedMetrics hl gr)) = false).
Proof.
  intros hl gr. unfold metricsLoop. rewrite metricsLoop_spec.
  cbn [matches count priceDiffSum accum0]. rewrite !Nat.add_0_r.
  split; [reflexivity|]. split; [reflexivity|]. split; [reflexivity|].
  split; [exact priceDiff_zero_close|].
  intros a Hin Hm Hz. rewrite computedMetrics_spec. cbn [meanPriceBps].
  unfold meanDeviationBps.
  assert (Hin' : In a (matchedCandles hl gr)).
  { apply filter_In. now split. }
  assert (Hc : (0 <? matchCount hl gr)%nat = true).
  { apply Nat.ltb_lt. unfold matchCount.
    destruct (matchedCandles hl gr); [contradiction | simpl; lia]. }
  rewrite Hc. apply mul_nonfinite, div_nonfinite.
  unfold deviationSum.
  apply fold_add_nonfinite_in with (x := deviation gr a).
  - now apply in_map.
  - unfold deviation. rewrite matched_findMatch in Hm.
    destruct (findMatch gr a) as [b|]; [|discriminate].
    now apply priceDiff_zero_close.
Qed.

Lemma C4_zero_close_not_skipped_witness :
  let hl := [closeCandle 60000 zero; closeCandle 120000 (of_Z 11)] in
  let gr := [closeCandle 60000 (of_Z 1); closeCandle 120000 (of_Z 11)] in
  In (closeCandle 60000 zero) hl /\
  matched gr (closeCandle 60000 zero) = true /\
  is_zero (close (closeCandle 60000 zero)) = true /\
  count (metricsLoop hl gr) = 2%nat /\
  is_finite (meanPriceBps (computedMetrics hl gr)) = false.
Proof.
  intros hl gr.
  assert (H1 : In (closeCandle 60000 zero) hl) by (left; reflexivity).
  assert (H2 : matched gr (closeCandle 60000 zero) = true) by reflexivity.
  assert (H3 : is_zero (close (closeCandle 60000 zero)) = true) by reflexivity.
  split; [exact H1 | split; [exact H2 | split; [exact H3|]]].
  destruct (C4_zero_close_not_skipped hl gr) as (Hc & _ & _ & _ & Hinf).
  split; [rewrite Hc; reflexivity | exact (Hinf _ H1 H2 H3)].
Defined.

(** C4 as stated fails: with a matched seriesA close of 0 the bucket is
    not skipped and the mean is Infinity. *)
Lemma C4_counterexample : ~ C4_as_stated.
Proof.
  intros H.
  destruct (H [closeCandle 60000 zero] [closeCandle 60000 (of_Z 1)]) as [_ H2].
  vm_compute in H2. discriminate.
Qed.

(* ------------------------------------------------------------------ *)
(** ** Records are not validated *)

Lemma length_upsert l c : (length (upsert l c) <= S (length l))%nat.
Proof.
  unfold upsert. destruct (findIndex _ l).
  - rewrite length_assign. lia.
  - rewrite length_app. simpl. lia.
Qed.

Lemma length_merge cs l :
  (length (fold_left upsert cs l) <= length l + length cs)%nat.
Proof.
  revert l. induction cs as [|c cs IH]; intros l; simpl; [lia|].
  specialize (IH (upsert l c)). pose proof (length_upsert l c). lia.
Qed.

Lemma revise_unique cs a :
  forall x,
    (forall c, In c cs -> ts_eqb (ts x) (ts c) = true -> c = a) ->
    (x = a \/ exists c, In c cs /\ ts_eqb (ts x) (ts c) = true) ->
    revise cs x = a.
Proof.
  induction cs as [|c cs IH]; intros x Hall Hex.
  - destruct Hex as [->|(c & [] & _)]. reflexivity.
  - simpl. unfold replaceBy. destruct (ts_eqb (ts x) (ts c)) eqn:E.
    + assert (c = a) by (apply Hall; [now left | exact E]). subst c.
      apply IH; [|now left].
      intros c Hc Hts. apply Hall; [now right|].
      apply ts_eqb_eq in E as (z & -> & Ha). now rewrite <- Ha.
    + apply IH.
      * intros c' Hc' Hts. apply Hall; [now right | exact Hts].
      * destruct Hex as [->|(c' & [->|Hc'] & Hts)]; [now left | congruence|].
        right. now exists c'.
Qed.

Lemma findIndex_Some {A : Type} (p : A -> bool) (l : list A) (i : nat) :
  findIndex p l = Some i ->
  exists l1 y l2, l = l1 ++ y :: l2 /\ length l1 = i /\ p y = true.
Proof.
  revert i. induction l as [|x l IH]; intros i H; [discriminate|].
  cbn [findIndex] in H. destruct (p x) eqn:Ex.
  - injection H as <-. now exists [], x, l.
  - destruct (findIndex p l) as [j|]; [|discriminate].
    injection H as <-. destruct (IH j eq_refl) as (l1 & y & l2 & -> & <- & Hy).
    now exists (x :: l1), y, l2.
Qed.

Lemma assign_middle {A : Type} (l1 l2 : list A) (y x : A) :
  assign (length l1) x (l1 ++ y :: l2) = l1 ++ x :: l2.
Proof. induction l1 as [|a l1 IH]; cbn; [reflexivity | now rewrite IH]. Qed.

Lemma upsert_self (l : list Candle) (c : Candle) : In c (upsert l c).
Proof.
  unfold upsert.
  destruct (findIndex _ l) as [i|] eqn:E.
  - apply findIndex_Some in E as (l1 & y & l2 & -> & <- & _).
    rewrite assign_middle. apply in_or_app. right. now left.
  - apply in_or_app. right. now left.
Qed.

Lemma upsert_keeps (l : list Candle) (c a : Candle) :
  In a l -> (ts_eqb (ts a) (ts c) = true -> c = a) -> In a (upsert l c).
Proof.
  intros Ha Hc. unfold upsert.
  destruct (findIndex _ l) as [i|] eqn:E.
  - apply findIndex_Some in E as (l1 & y & l2 & -> & <- & Hy).
    rewrite assign_middle.
    apply in_app_or in Ha as [Ha | [<- | Ha]]; apply in_or_app.
    + now left.
    + right. left. now apply Hc.
    + right. now right.
  - apply in_or_app. now left.
Qed.

Lemma stored_whatever_the_series (prev : list Candle)
    (batch : list OhlcvRecord) (r : OhlcvRecord) :
  record_valid r -> In r batch ->
  (forall r', In r' batch -> c_timestamp r' = c_timestamp r -> r' = r) ->
  In (candleOfRecord r) (mergeBatch batch prev).
Proof.
  intros Hv Hin Huniq. unfold mergeBatch.
  assert (Hkeep : forall rs l,
            (forall r', In r' rs -> c_timestamp r' = c_timestamp r -> r' = r) ->
            In (candleOfRecord r) l ->
            In (candleOfRecord r)
               (fold_left (fun nc c => upsert nc (candleOfRecord c)) rs l)).
  { induction rs as [|r' rs IH]; intros l Hu Hl; [exact Hl|].
    cbn [fold_left]. apply IH; [intros; apply Hu; [now right | assumption]|].
    apply upsert_keeps; [exact Hl|].
    intros Hts. apply ts_eqb_eq in Hts as (z & Hz1 & Hz2).
    cbn [candleOfRecord ts] in Hz1, Hz2.
    f_equal. apply Hu; [now left | congruence]. }
  revert prev. induction batch as [|r0 batch IH]; intros prev; [contradiction|].
  cbn [fold_left]. destruct Hin as [-> | Hin].
  - apply Hkeep; [intros; apply Huniq; [now right | assumption]|].
    apply upsert_self.
  - apply IH; [exact Hin|]. intros; apply Huniq; [now right | assumption].
Qed.

(** C9 (amended).  The handler validates no record.  For a non-empty batch
    no diagnostic is logged and every record is merged whatever its
    numeric fields hold: a record with a valid timestamp, the only one of
    its batch with that timestamp, is in the series after the ingest
    (a missing field reading as NaN) as long as the series and the batch
    together stay within 100 entries, whatever the series and the other
    records of the batch hold.  An empty batch, or a payload that holds
    no array, leaves both series and the metrics unchanged and logs the
    diagnostic [GR: Received empty or invalid data: ...]. *)
Theorem C9_no_record_validation :
  (forall st payload candles,
     candles = None \/ candles = Some [] ->
     grCandles (onGrNext candles payload st) = grCandles st /\
     hlCandles (onGrNext candles payload st) = hlCandles st /\
     metrics (onGrNext candles payload st) = metrics st /\
     logs (onGrNext candles payload st)
     = addLog ("GR: Received empty or invalid data: " ++ payload) (logs st)) /\
  (forall st payload r batch,
     logs (onGrNext (Some (r :: batch)) payload st) = logs st) /\
  (forall prev batch r,
     In r batch -> record_valid r ->
     (forall r', In r' batch -> c_timestamp r' = c_timestamp r -> r' = r) ->
     (length prev + length batch <= 100)%nat ->
     In (candleOfRecord r) (ingestCandles batch prev)).
Proof.
  split; [|split].
  - intros st payload candles [-> | ->]; repeat split.
  - reflexivity.
  - intros prev batch r Hin Hv Huniq Hlen.
    pose proof (stored_whatever_the_series prev batch r Hv Hin Huniq) as H.
    destruct batch as [|r0 batch]; [contradiction|].
    cbn [ingestCandles]. unfold updateGrCandles.
    rewrite slice_last_all.
    + eapply Permutation_in; [symmetry; apply sortCandles_perm | exact H].
    + rewrite sortCandles_length, mergeBatch_candles.
      pose proof (length_merge (map candleOfRecord (r0 :: batch)) prev) as L.
      rewrite length_map in L. lia.
Qed.

Lemma C9_no_record_validation_witness :
  let r := {| c_timestamp := Ms 60000; c_open := Some (of_Z 1);
              c_high := Some Infinity; c_low := Some (of_Z 1);
              c_close := None; c_volume := Some (of_Z 1) |} in
  let batch := [record InvalidTime 3 3 3 3 3; r;
                record (Ms 120000) 2 2 2 2 2] in
  let prev := [candle 60000 9 9 9 9 9; candle 60000 8 8 8 8 8;
               {| ts := InvalidTime; open := NaN; high := NaN; low := NaN;
                  close := NaN; volume := NaN |}] in
  malformed r /\ ~ wellKeyed prev /\ ~ Forall record_valid batch /\
  In (candleOfRecord r) (ingestCandles batch prev) /\
  close (candleOfRecord r) = NaN.
Proof.
  intros r batch prev.
  split; [reflexivity | split; [|split; [|split]]].
  - intros [_ Hnd]. cbn in Hnd. inversion_clear Hnd as [|? ? Hnot _].
    apply Hnot. now left.
  - intros Hv. inversion_clear Hv as [|? ? H0 _]. discriminate H0.
  - apply (proj2 (proj2 C9_no_record_validation) prev batch r).
    + right. now left.
    + reflexivity.
    + intros r' [<-|[<-|[<-|[]]]]; [discriminate | reflexivity | discriminate].
    + cbn. lia.
  - reflexivity.
Defined.

(** C9 as stated fails: a record without a close is stored, and nothing
    is logged. *)
Lemma C9_counterexample : ~ C9_as_stated.
Proof.
  intros H.
  set (r := {| c_timestamp := Ms 60000; c_open := Some (of_Z 1);
               c_high := Some (of_Z 1); c_low := Some (of_Z 1);
               c_close := None; c_volume := Some (of_Z 1) |}).
  destruct (H init [r] EmptyString r) as [Hnot _].
  - now left.
  - reflexivity.
  - apply Hnot. vm_compute. left. reflexivity.
Qed.

(* ================================================================== *)
(** * Histories: what a run keeps of what it received *)
(* ================================================================== *)

Lemma slice_last_absorb {A : Type} (n : nat) (a b : list A) :
  slice_last n (slice_last n a ++ b) = slice_last n (a ++ b).
Proof.
  unfold slice_last.
  destruct (Nat.le_gt_cases (length a) n) as [Hle | Hgt].
  - replace (length a - n)%nat with 0%nat by lia. reflexivity.
  - pose proof (firstn_skipn (length a - n) a) as Ha.
    set (F := firstn (length a - n) a) in *.
    set (S := skipn (length a - n) a) in *.
    assert (HF : length F = (length a - n)%nat)
      by (unfold F; rewrite length_firstn; lia).
    assert (HS : length S = n)
      by (unfold S; rewrite length_skipn; lia).
    replace (a ++ b) with (F ++ S ++ b) by (now rewrite app_assoc, Ha).
    rewrite !length_app, HS.
    replace (length F + (n + length b) - n)%nat
      with (length F + length b)%nat by lia.
    replace (n + length b - n)%nat with (length b) by lia.
    rewrite (skipn_app (length F + length b) F).
    replace (length F + length b - length F)%nat
      with (length b) by lia.
    rewrite (skipn_all2 F) by lia. reflexivity.
Qed.

Lemma rev_slice_last {A : Type} (n : nat) (l : list A) :
  rev (slice_last n l) = firstn n (rev l).
Proof.
  unfold slice_last.
  rewrite <- (rev_involutive l) at 2.
  rewrite skipn_rev, rev_involutive, length_rev.
  destruct (Nat.le_gt_cases (length l) n) as [Hle | Hgt].
  - replace (length l - (length l - n))%nat with (length l) by lia.
    rewrite <- (length_rev l) at 1.
    rewrite firstn_all. symmetry. apply firstn_all2. rewrite length_rev. lia.
  - f_equal. lia.
Qed.

Lemma addLog_absorb (m : string) (l : list string) :
  addLog m (slice_first 50 l) = slice_first 50 (m :: l).
Proof.
  unfold addLog, slice_first.
  rewrite !firstn_cons. f_equal.
  rewrite firstn_firstn. reflexivity.
Qed.

Lemma step_hlTrades (st : State) (ev : Event) :
  hlTrades (step st ev)
  = match ev with
    | WsTrades newTrades => slice_last 500 (hlTrades st ++ newTrades)
    | _ => hlTrades st
    end.
Proof. destruct ev as [trs | | [[|c cs]|] payload | msg]; reflexivity. Qed.

Lemma step_logs (st : State) (ev : Event) :
  logs (step st ev) = fold_right addLog (logs st) (logged ev).
Proof. destruct ev as [trs | | [[|c cs]|] payload | msg]; reflexivity. Qed.

Lemma tradesOf_snoc (evs : list Event) (ev : Event) :
  tradesOf (evs ++ [ev])
  = tradesOf evs ++ match ev with WsTrades trs => trs | _ => [] end.
Proof. unfold tradesOf. rewrite flat_map_app. cbn. now rewrite app_nil_r. Qed.

Lemma batchesOf_snoc (evs : list Event) (ev : Event) :
  batchesOf (evs ++ [ev])
  = batchesOf evs ++ match ev with
                     | GrNext (Some candles) _ => [candles]
                     | _ => []
                     end.
Proof. unfold batchesOf. rewrite flat_map_app. cbn. now rewrite app_nil_r. Qed.

Lemma messagesOf_snoc (evs : list Event) (ev : Event) :
  messagesOf (evs ++ [ev]) = messagesOf evs ++ logged ev.
Proof. unfold messagesOf. rewrite flat_map_app. cbn. now rewrite app_nil_r. Qed.

Lemma run_hlTrades (evs : list Event) :
  hlTrades (run evs) = slice_last 500 (tradesOf evs).
Proof.
  induction evs as [|ev evs IH] using rev_ind; [reflexivity|].
  rewrite run_snoc, step_hlTrades, tradesOf_snoc, IH.
  destruct ev; rewrite ?app_nil_r; try reflexivity.
  apply slice_last_absorb.
Qed.

Lemma run_logs (evs : list Event) :
  logs (run evs) = slice_first 50 (rev (messagesOf evs)).
Proof.
  induction evs as [|ev evs IH] using rev_ind; [reflexivity|].
  rewrite run_snoc, step_logs, messagesOf_snoc, rev_app_distr, IH.
  assert (Hl : logged ev = [] \/ exists m, logged ev = [m]).
  { destruct ev as [trs | | [[|c cs]|] payload | msg]; cbn; eauto. }
  destruct Hl as [-> | [m ->]]; cbn [fold_right rev app]; [reflexivity|].
  apply addLog_absorb.
Qed.

Lemma run_hlCandles (evs : list Event) :
  hlCandles (run evs) = ingestTrades (tradesOf evs) [].
Proof.
  induction evs as [|ev evs IH] using rev_ind; [reflexivity|].
  rewrite run_snoc, step_hlCandles, tradesOf_snoc, IH.
  unfold ingestTrades. rewrite fold_left_app.
  destruct ev; reflexivity.
Qed.

Lemma run_grCandles (evs : list Event) :
  grCandles (run evs) = ingestAll (batchesOf evs).
Proof.
  induction evs as [|ev evs IH] using rev_ind; [reflexivity|].
  rewrite run_snoc, step_grCandles, batchesOf_snoc, IH.
  destruct ev as [trs | | [cs|] payload | msg]; rewrite ?app_nil_r;
    try reflexivity.
  now rewrite ingestAll_snoc.
Qed.

Lemma run_metrics_current (evs : list Event) :
  metrics (run evs)
  = if eitherEmpty (hlCandles (run evs)) (grCandles (run evs))
    then metrics0
    else computedMetrics (hlCandles (run evs)) (grCandles (run evs)).
Proof.
  destruct (eitherEmpty _ _) eqn:E.
  - now apply run_metrics.
  - destruct evs as [|ev evs _] using rev_ind; [discriminate E|].
    rewrite run_snoc in *. rewrite step_metrics.
    unfold metricsEffect. fold (eitherEmpty (hlCandles (step (run evs) ev))
                                  (grCandles (step (run evs) ev))).
    now rewrite E.
Qed.

(** X1.  The log panel is a bounded history, newest first: after every
    run, [logs] holds the messages passed to [addLog] in reverse order of
    arrival, cut to the 50 most recent; so it never holds more than 50
    lines, and a message just logged is its first line. *)
Theorem X1_logs_history :
  forall evs,
    logs (run evs) = slice_first 50 (rev (messagesOf evs)) /\
    (length (logs (run evs)) <= 50)%nat /\
    (forall msg, exists rest, logs (run (evs ++ [LogOnly msg])) = msg :: rest).
Proof.
  intro evs. split; [apply run_logs|]. split.
  - rewrite run_logs. unfold slice_first. rewrite length_firstn. lia.
  - intro msg. rewrite run_snoc, step_logs. cbn [logged fold_right].
    unfold addLog, slice_first.
    rewrite firstn_cons. eauto.
Qed.

(** X2.  The raw trades buffer keeps the last 500 trades received, in
    arrival order, whatever the batching of the messages; the trades panel
    ([hlTrades.slice().reverse()]) shows them newest first, so it lists the
    500 most recent trades starting with the latest one. *)
Theorem X2_trades_buffer :
  forall evs,
    hlTrades (run evs) = slice_last 500 (tradesOf evs) /\
    (length (hlTrades (run evs)) <= 500)%nat /\
    tradeRows (run evs) = slice_first 500 (rev (tradesOf evs)).
Proof.
  intro evs. split; [apply run_hlTrades|]. split.
  - rewrite run_hlTrades. unfold slice_last. rewrite length_skipn. lia.
  - unfold tradeRows. rewrite run_hlTrades. apply rev_slice_last.
Qed.

(** X3.  The trade-derived series does not depend on how the trades are
    batched into messages, nor on any other event: after every run it is
    the series obtained by ingesting, one by one and in arrival order,
    all trades received, into the empty series; so two runs that received
    the same trades in the same order end with the same series. *)
Theorem X3_hl_batching_invariant :
  forall evs,
    hlCandles (run evs) = ingestTrades (tradesOf evs) [] /\
    (forall evs', tradesOf evs' = tradesOf evs ->
                  hlCandles (run evs') = hlCandles (run evs)).
Proof.
  intro evs. split; [apply run_hlCandles|].
  intros evs' H. now rewrite !run_hlCandles, H.
Qed.

Lemma X3_hl_batching_invariant_witness :
  hlCandles (run [WsTrades [trade 1000 5 1]; WsOther;
                  WsTrades [trade 2000 6 2; trade 61000 7 1]])
  = hlCandles (run [WsTrades [trade 1000 5 1; trade 2000 6 2;
                              trade 61000 7 1]]).
Proof.
  apply (proj2 (X3_hl_batching_invariant
                  [WsTrades [trade 1000 5 1; trade 2000 6 2;
                             trade 61000 7 1]])).
  reflexivity.
Defined.

(** X4.  The candle-feed series depends only on the candle arrays
    received: after every run it is the result of ingesting them in
    arrival order into the empty series; trade messages, log events and
    payloads without a candle array leave it untouched. *)
Theorem X4_gr_feed_only :
  forall evs,
    grCandles (run evs) = ingestAll (batchesOf evs) /\
    (forall ev, batchesOf [ev] = [] ->
                grCandles (step (run evs) ev) = grCandles (run evs)).
Proof.
  intro evs. split; [apply run_grCandles|].
  intros ev Hev. rewrite step_grCandles.
  destruct ev as [trs | | [cs|] payload | msg]; try reflexivity.
  discriminate Hev.
Qed.

Lemma X4_gr_feed_only_witness :
  grCandles (step (run [GrNext (Some [record (Ms 60000) 1 1 1 1 1]) ""%string])
                  (WsTrades [trade 1000 5 1]))
  = grCandles (run [GrNext (Some [record (Ms 60000) 1 1 1 1 1]) ""%string]).
Proof.
  apply (proj2 (X4_gr_feed_only [GrNext (Some [record (Ms 60000) 1 1 1 1 1]) ""%string])).
  reflexivity.
Defined.

(** X5.  The displayed metrics are never stale: after every run they are
    all zero while either series is empty, and otherwise they are exactly
    the metrics computed from the two current series. *)
Theorem X5_metrics_current :
  forall evs,
    metrics (run evs)
    = if eitherEmpty (hlCandles (run evs)) (grCandles (run evs))
      then metrics0
      else computedMetrics (hlCandles (run evs)) (grCandles (run evs)).
Proof. apply run_metrics_current. Qed.

(* ================================================================== *)
(** * The tail candle and the order of the trade-derived series *)
(* ================================================================== *)

Lemma bucketStart_contains (t : Z) :
  bucketStart t <= t < bucketStart t + 60000 /\ bucketStart t mod 60000 = 0.
Proof.
  unfold bucketStart. split.
  - pose proof (Z.div_mod t 60000 ltac:(lia)) as Hd.
    pose proof (Z.mod_pos_bound t 60000 ltac:(lia)) as Hm. lia.
  - apply Z.mod_mul. lia.
Qed.

Lemma ingestTrade_tail (prev : list Candle) (tr : Trade) :
  exists c, last_elem (ingestTrade prev tr) = Some c /\
            ts c = Ms (bucketStart (time tr)) /\ close c = px tr.
Proof.
  unfold ingestTrade, updateHlCandles.
  destruct (last_elem prev) as [lastc|] eqn:El.
  - destruct (ts_eqb (ts lastc) (Ms (bucketStart (time tr)))) eqn:Eb.
    + exists (updatedCandle lastc (px tr) (sz tr)).
      rewrite last_elem_app. repeat split.
      apply ts_eqb_eq in Eb. destruct Eb as [z [Ha Hb]].
      cbn [updatedCandle ts]. congruence.
    + exists (freshCandle (Ms (bucketStart (time tr))) (px tr) (sz tr)).
      change 100%nat with (S 99). rewrite slice_last_snoc, last_elem_app.
      repeat split.
  - exists (freshCandle (Ms (bucketStart (time tr))) (px tr) (sz tr)).
    change 100%nat with (S 99). rewrite slice_last_snoc, last_elem_app.
    repeat split.
Qed.

(** X6.  The last point of the trade-derived series always reflects the
    latest trade: after ingesting, into any series, any trades whose
    times are integers from 0 to below 2^53 ms, the tail candle is the
    candle of the last trade's one-minute bucket (the bucket start that
    line 75 computes in binary64, a multiple of 60000 ms that contains
    the trade's time) and its close is that trade's price. *)
Theorem X6_tail_is_latest_trade :
  forall prev trs tr,
    Forall timeInRange (trs ++ [tr]) ->
    exists c,
      last_elem (ingestTrades (trs ++ [tr]) prev) = Some c /\
      ts c = Ms (bucketStart (time tr)) /\
      number_of_ts (ts c) = bucketOfTrade tr /\
      close c = px tr /\
      bucketStart (time tr) <= time tr < bucketStart (time tr) + 60000 /\
      bucketStart (time tr) mod 60000 = 0.
Proof.
  intros prev trs tr Hin. rewrite ingestTrades_snoc.
  apply Forall_app in Hin as [_ Htr]. inversion_clear Htr as [|? ? Ht _].
  destruct (ingestTrade_tail (ingestTrades trs prev) tr) as [c [H1 [H2 H3]]].
  exists c. repeat split; try assumption; try apply bucketStart_contains.
  rewrite H2. symmetry. now apply bucketOfTrade_exact.
Qed.

Lemma X6_tail_is_latest_trade_witness :
  exists c,
    last_elem (ingestTrades ([trade 1000 5 1; trade 2000 6 2]
                             ++ [trade 61000 7 1])
                            [candle 0 4 4 4 4 1]) = Some c /\
    ts c = Ms 60000 /\ close c = of_Z 7.
Proof.
  destruct (X6_tail_is_latest_trade [candle 0 4 4 4 4 1]
              [trade 1000 5 1; trade 2000 6 2] (trade 61000 7 1))
    as (c & H1 & H2 & _ & H4 & _).
  - repeat constructor; cbn; lia.
  - exists c. split; [exact H1 | split; [exact H2 | exact H4]].
Defined.

(** X7.  When the trades arrive in non-decreasing time order, with
    integer times from 0 to below 2^53 ms, the trade-derived series (the
    data of the line chart) is strictly ascending by bucket start after
    every run: it holds at most one candle per bucket, each for the
    bucket that line 75 computes in binary64 for a trade received. *)
Theorem X7_in_order_series_ascending :
  forall evs,
    inOrder (tradesOf evs) ->
    Forall timeInRange (tradesOf evs) ->
    ascending (hlCandles (run evs)) /\
    NoDup (map ts (hlCandles (run evs))) /\
    Forall (fun c => exists t, In t (tradesOf evs) /\
                               ts c = Ms (bucketStart (time t)) /\
                               number_of_ts (ts c) = bucketOfTrade t)
           (hlCandles (run evs)).
Proof.
  intros evs Hord Hin. rewrite run_hlCandles.
  pose proof (ingestTrades_ascending_nil _ Hord) as Hasc.
  split; [exact Hasc|]. split.
  - pose proof (ascending_NoDup _ Hasc) as Hnd.
    revert Hnd. generalize (ingestTrades (tradesOf evs) []).
    intros l Hnd.
    assert (Hmap : map tsZ l
                   = map (fun t => match t with Ms z => z | InvalidTime => 0 end)
                         (map ts l))
      by (rewrite map_map; reflexivity).
    rewrite Hmap in Hnd. eapply NoDup_map_inv. exact Hnd.
  - eapply Forall_impl; [|apply ingestTrades_origin].
    intros c (t & Ht & Hc). exists t. split; [exact Ht|]. split; [exact Hc|].
    rewrite Hc. symmetry. apply bucketOfTrade_exact.
    rewrite Forall_forall in Hin. now apply Hin.
Qed.

Lemma X7_in_order_series_ascending_witness :
  ascending (hlCandles (run [WsTrades [trade 1000 5 1; trade 2000 6 2];
                             WsTrades [trade 61000 7 1]])).
Proof.
  apply (X7_in_order_series_ascending
           [WsTrades [trade 1000 5 1; trade 2000 6 2];
            WsTrades [trade 61000 7 1]]).
  - repeat constructor; cbn; lia.
  - repeat constructor; cbn; lia.
Defined.

(** X8.  The bucket start is computed exactly in binary64: for every
    integer trade time from 0 to below 2^53 ms, the value of
    [Math.floor(time / 60000) * 60000] in floating-point arithmetic is the
    integer [(time / 60000) * 60000], which lies in [0, time]. *)
Theorem X8_bucketStart_binary64_exact :
  forall t,
    0 <= t < 2 ^ 53 ->
    bucketStart_number (of_Z t) = of_Z (bucketStart t) /\
    0 <= bucketStart t <= t.
Proof.
  intros t Ht. split.
  - now apply bucketStart_number_correct.
  - apply bucketStart_range. lia.
Qed.

Lemma X8_bucketStart_binary64_exact_witness :
  bucketStart_number (of_Z 1700000123456) = of_Z 1700000100000.
Proof.
  apply (X8_bucketStart_binary64_exact 1700000123456). lia.
Defined.

(* ================================================================== *)
(** * The candle feed as a keyed store *)
(* ================================================================== *)

Lemma findMatch_unique (l : list Candle) (a : Candle) :
  wellKeyed l -> In a l -> findMatch l a = Some a.
Proof.
  unfold findMatch.
  induction l as [|x l IH]; intros [Hv Hnd] Hin; [contradiction|].
  inversion Hv as [|? ? Hx Hl]; subst.
  cbn [map] in Hnd. inversion Hnd as [|? ? Hnot Hnd']; subst.
  cbn [find]. destruct Hin as [-> | Hin].
  - rewrite ts_eqb_valid by assumption. now rewrite Z.eqb_refl.
  - assert (Ha : valid a) by (rewrite Forall_forall in Hl; now apply Hl).
    rewrite ts_eqb_valid by assumption.
    destruct (Z.eqb_spec (tsZ x) (tsZ a)) as [E | _].
    + exfalso. apply Hnot. rewrite E. now apply in_map.
    + apply IH; [split; assumption | exact Hin].
Qed.

Lemma revise_last (cs1 cs2 : list Candle) (a x : Candle) :
  ts_eqb (ts x) (ts a) = true ->
  Forall (fun c => ts_eqb (ts a) (ts c) = false) cs2 ->
  revise (cs1 ++ a :: cs2) x = a.
Proof.
  intros Hx Hcs2.
  rewrite revise_app. change (a :: cs2) with ([a] ++ cs2).
  rewrite revise_app. cbn [revise fold_left]. unfold replaceBy at 1.
  fold (revise cs1 x). rewrite ts_revise, Hx.
  now apply revise_absent.
Qed.

Lemma lookup_after_ingest (prev : list Candle) (batch : list OhlcvRecord)
    (a : Candle) :
  wellKeyed prev -> Forall record_valid batch ->
  (length prev + length batch <= 100)%nat ->
  In a (mergeBatch batch prev) ->
  findMatch (ingestCandles batch prev) a = Some a.
Proof.
  intros Hprev Vb Hlen Hin.
  destruct batch as [|r0 batch].
  - cbn in Hin |- *. now apply findMatch_unique.
  - cbn [ingestCandles]. apply findMatch_unique.
    + now apply updateGr_wellKeyed.
    + unfold updateGrCandles. rewrite slice_last_all.
      * eapply Permutation_in; [symmetry; apply sortCandles_perm | exact Hin].
      * rewrite sortCandles_length, mergeBatch_candles.
        pose proof (length_merge (map candleOfRecord (r0 :: batch)) prev) as L.
        rewrite length_map in L. lia.
Qed.

Lemma StronglySorted_snoc {A : Type} (R : A -> A -> Prop) (l : list A) (x : A) :
  StronglySorted R l -> Forall (fun y => R y x) l ->
  StronglySorted R (l ++ [x]).
Proof.
  induction 1 as [|y l Hs IH Hy]; intros Hx; cbn.
  - repeat constructor.
  - inversion Hx; subst. constructor; [now apply IH|].
    apply Forall_app. split; [exact Hy | now repeat constructor].
Qed.

Lemma descending_rev (l : list Candle) : ascending l -> descending (rev l).
Proof.
  unfold ascending, descending.
  induction 1 as [|x l Hs IH Hx]; cbn; [constructor|].
  apply StronglySorted_snoc; [exact IH|].
  apply Forall_forall. intros y Hy. apply in_rev in Hy.
  rewrite Forall_forall in Hx. now apply Hx.
Qed.

Lemma ingestAll_ascending (batches : list (list OhlcvRecord)) :
  Forall (Forall record_valid) batches -> ascending (ingestAll batches).
Proof.
  induction batches as [|b bs IH] using rev_ind; intros Hv.
  - constructor.
  - apply Forall_app in Hv as [Hbs Hb]. inversion Hb; subst.
    rewrite ingestAll_snoc. destruct b as [|r b]; [now apply IH|].
    cbn [ingestCandles]. apply updateGr_wellKeyed; [|assumption].
    now apply ingestAll_wellKeyed.
Qed.

(** X9.  The candle table lists the feed newest first: when every record
    received carries a valid timestamp, after every run the rows
    ([grCandles.slice().reverse()]) are strictly descending by bucket
    start, so no bucket is listed twice. *)
Theorem X9_candle_rows_descending :
  forall evs,
    validFeed evs ->
    descending (candleRows (run evs)) /\
    NoDup (map tsZ (candleRows (run evs))).
Proof.
  intros evs Hv. unfold candleRows. split.
  - apply descending_rev. rewrite run_grCandles. now apply ingestAll_ascending.
  - rewrite map_rev. apply NoDup_rev.
    rewrite run_grCandles. now apply ingestAll_wellKeyed.
Qed.

Lemma X9_candle_rows_descending_witness :
  descending
    (candleRows (run [GrNext (Some [record (Ms 120000) 2 2 2 2 2;
                                    record (Ms 60000) 1 1 1 1 1]) ""%string])).
Proof.
  apply (X9_candle_rows_descending
           [GrNext (Some [record (Ms 120000) 2 2 2 2 2;
                          record (Ms 60000) 1 1 1 1 1]) ""%string]).
  repeat constructor.
Defined.

(** X10.  Within a batch the last record of a bucket wins, and a lookup
    finds it: for a series with valid, pairwise distinct bucket starts and
    a batch of records with valid timestamps that together stay within
    100 entries, after the ingest the search by bucket start that the
    metrics use returns, for a record that no later record of the batch
    shares its timestamp with, exactly the candle built from that
    record. *)
Theorem X10_last_record_wins :
  forall prev b1 r b2,
    wellKeyed prev ->
    Forall record_valid (b1 ++ r :: b2) ->
    Forall (fun r' => c_timestamp r' <> c_timestamp r) b2 ->
    (length prev + length (b1 ++ r :: b2) <= 100)%nat ->
    findMatch (ingestCandles (b1 ++ r :: b2) prev) (candleOfRecord r)
    = Some (candleOfRecord r).
Proof.
  intros prev b1 r b2 Hprev Vb Hlater Hlen.
  apply lookup_after_ingest; try assumption.
  rewrite mergeBatch_candles.
  set (cs := map candleOfRecord (b1 ++ r :: b2)).
  assert (Vcs : Forall valid cs).
  { apply Forall_map. eapply Forall_impl; [|exact Vb]. auto. }
  destruct (merge_wellKeyed cs prev Vcs Hprev) as ([VM _] & FM & CM).
  assert (Ha : In (candleOfRecord r) cs)
    by (apply in_map, in_or_app; right; now left).
  rewrite Forall_forall in CM, FM, VM, Vb.
  specialize (CM _ Ha). apply in_map_iff in CM as (y & Hy & HyM).
  assert (Hts : ts_eqb (ts y) (ts (candleOfRecord r)) = true).
  { rewrite ts_eqb_valid; [now apply Z.eqb_eq | now apply VM |].
    apply valid_candleOfRecord, Vb, in_or_app. right. now left. }
  rewrite <- (FM y HyM) in HyM.
  assert (Hrev : revise cs y = candleOfRecord r).
  { unfold cs. rewrite map_app. cbn [map].
    apply revise_last; [exact Hts|].
    apply Forall_map. eapply Forall_impl; [|exact Hlater].
    intros r' Hr'. apply ts_eqb_neq. cbn. congruence. }
  now rewrite Hrev in HyM.
Qed.

Lemma X10_last_record_wins_witness :
  findMatch
    (ingestCandles [record (Ms 60000) 1 1 1 1 1; record (Ms 60000) 2 2 2 2 2;
                    record (Ms 120000) 3 3 3 3 3]
                   [candle 60000 9 9 9 9 9])
    (candleOfRecord (record (Ms 60000) 2 2 2 2 2))
  = Some (candleOfRecord (record (Ms 60000) 2 2 2 2 2)).
Proof.
  apply (X10_last_record_wins [candle 60000 9 9 9 9 9]
           [record (Ms 60000) 1 1 1 1 1] (record (Ms 60000) 2 2 2 2 2)
           [record (Ms 120000) 3 3 3 3 3]).
  - split; repeat constructor. cbn. tauto.
  - repeat constructor.
  - repeat constructor. cbn. discriminate.
  - cbn. lia.
Defined.

(** X11.  An ingest leaves the other buckets alone: for a series with
    valid, pairwise distinct bucket starts and a batch of records with
    valid timestamps that together stay within 100 entries, every candle
    of the series whose bucket start no record of the batch carries is
    still found, unchanged, after the ingest. *)
Theorem X11_other_buckets_kept :
  forall prev batch x,
    wellKeyed prev ->
    Forall record_valid batch ->
    In x prev ->
    Forall (fun r => c_timestamp r <> ts x) batch ->
    (length prev + length batch <= 100)%nat ->
    findMatch (ingestCandles batch prev) x = Some x.
Proof.
  intros prev batch x Hprev Vb Hx Hother Hlen.
  apply lookup_after_ingest; try assumption.
  rewrite mergeBatch_candles.
  set (cs := map candleOfRecord batch).
  assert (Vcs : Forall valid cs).
  { apply Forall_map. eapply Forall_impl; [|exact Vb]. auto. }
  destruct (merge_decomp cs Vcs prev Hprev) as (N & -> & _).
  apply in_or_app. left.
  rewrite <- (revise_absent cs x).
  - now apply in_map.
  - apply Forall_map. eapply Forall_impl; [|exact Hother].
    intros r Hr. apply ts_eqb_neq. cbn. congruence.
Qed.

Lemma X11_other_buckets_kept_witness :
  findMatch
    (ingestCandles [record (Ms 60000) 1 1 1 1 1]
                   [candle 60000 9 9 9 9 9; candle 120000 8 8 8 8 8])
    (candle 120000 8 8 8 8 8)
  = Some (candle 120000 8 8 8 8 8).
Proof.
  apply (X11_other_buckets_kept
           [candle 60000 9 9 9 9 9; candle 120000 8 8 8 8 8]
           [record (Ms 60000) 1 1 1 1 1] (candle 120000 8 8 8 8 8)).
  - split; repeat constructor; cbn; intuition discriminate.
  - repeat constructor.
  - right. now left.
  - repeat constructor. cbn. discriminate.
  - cbn. lia.
Defined.

(* ================================================================== *)
(** * The range of the metrics *)
(* ================================================================== *)

Lemma number_same_eq (a b : number) : number_same a b = true -> a = b.
Proof.
  destruct a as [s|s| |s m e], b as [s'|s'| |s' m' e']; cbn;
    try discriminate; try reflexivity.
  - intros H. apply eqb_prop in H. now subst.
  - intros H. apply eqb_prop in H. now subst.
  - intros H. apply andb_prop in H as [H He]. apply andb_prop in H as [Hs Hm].
    apply eqb_prop in Hs. apply Pos.eqb_eq in Hm. apply Z.eqb_eq in He.
    now subst.
Qed.

Lemma pctTable_true :
  forallb (fun n => forallb (fun m => pctCheck m n) (seq 1 n)) (seq 1 100)
  = true.
Proof. vm_compute. reflexivity. Qed.

Lemma pctOf_nearest (m n : nat) :
  (1 <= m <= n)%nat -> (n <= 100)%nat ->
  exists p, pctOf m n = of_Z p /\ nearestPct (Z.of_nat m) (Z.of_nat n) p.
Proof.
  intros Hm Hn.
  assert (H1 : In n (seq 1 100)) by (apply in_seq; lia).
  assert (H2 : In m (seq 1 n)) by (apply in_seq; lia).
  pose proof (proj1 (forallb_forall _ _) pctTable_true n H1) as T.
  cbv beta in T.
  pose proof (proj1 (forallb_forall _ _) T m H2) as T'.
  cbv beta in T'. clear T.
  unfold pctCheck in T'. apply existsb_exists in T' as (p & _ & Hp).
  apply andb_prop in Hp as [Hp H4]. apply andb_prop in Hp as [Hp H3].
  apply andb_prop in Hp as [Hp1 Hp2].
  exists p. split; [now apply number_same_eq|].
  unfold nearestPct. lia.
Qed.

(** The whole percentage is not always the exact one rounded half up:
    23 matches out of 40 candles are 57.5 percent, but the binary64
    product [(23 / 40) * 100] lies just below 57.5 and rounds to 57. *)
Example pctOf_23_40 : pctOf 23 40 = of_Z 57.
Proof. vm_compute. reflexivity. Qed.

Lemma matchCount_le (hl gr : list Candle) :
  (matchCount hl gr <= length hl)%nat.
Proof. unfold matchCount, matchedCandles. apply filter_length_le. Qed.

Lemma matchCount_empty (hl gr : list Candle) :
  eitherEmpty hl gr = true -> matchCount hl gr = 0%nat.
Proof.
  intros H. apply eitherEmpty_spec in H as [-> | ->]; [reflexivity|].
  unfold matchCount, matchedCandles.
  induction hl as [|a hl IH]; [reflexivity | exact IH].
Qed.

(** X12.  The matched percentage shown is always a whole number between 0
    and 100, and a nearest one: after every run [matchedPct] is an integer
    [p] with [0 <= p <= 100] that differs from the exact percentage
    [100 * matches / length] of the trade-derived series by at most one
    half. *)
Theorem X12_matchedPct_whole_percentage :
  forall evs,
    exists p,
      matchedPct (metrics (run evs)) = of_Z p /\
      nearestPct
        (Z.of_nat (matchCount (hlCandles (run evs)) (grCandles (run evs))))
        (Z.of_nat (length (hlCandles (run evs)))) p.
Proof.
  intro evs. rewrite run_metrics_current.
  pose proof (proj1 (run_length evs)) as Hlen.
  pose proof (matchCount_le (hlCandles (run evs)) (grCandles (run evs))) as Hle.
  destruct (eitherEmpty _ _) eqn:E.
  - exists 0. split; [reflexivity|].
    rewrite (matchCount_empty _ _ E). unfold nearestPct. lia.
  - rewrite computedMetrics_spec. cbn [matchedPct]. unfold roundedMatchedPct.
    destruct (0 <? matchCount _ _)%nat eqn:Em.
    + apply Nat.ltb_lt in Em. apply pctOf_nearest; lia.
    + apply Nat.ltb_ge in Em. exists 0. split; [reflexivity|].
      replace (matchCount _ _) with 0%nat by lia. unfold nearestPct. lia.
Qed.

Lemma positive_finite_cases (x : number) :
  positive_finite x -> exists m e, x = S754_finite false m e.
Proof.
  intros [Hp Hf]. destruct x as [s|s| |[] m e]; try discriminate; eauto.
Qed.

Lemma of_nat_finite (n : nat) :
  (0 < n)%nat -> Z.of_nat n < 2 ^ 53 ->
  exists m e, of_nat n = S754_finite false m e.
Proof.
  intros Hn Hb. unfold of_nat. rewrite of_Z_pos by lia. eauto.
Qed.

Lemma sub_same (x : number) : is_finite x = true -> sub x x = zero.
Proof.
  destruct x as [[]|s| |s m e]; try discriminate; try reflexivity.
  intros _. unfold sub, SFsub. now rewrite Z.sub_diag.
Qed.

Lemma fold_add_zero (l : list number) :
  Forall (fun x => x = zero) l -> fold_left add l zero = zero.
Proof.
  induction 1 as [|x l -> _ IH]; [reflexivity | exact IH].
Qed.

Lemma matchedCandles_all (hl gr : list Candle) :
  Forall (fun a => exists b, findMatch gr a = Some b) hl ->
  matchedCandles hl gr = hl.
Proof.
  unfold matchedCandles.
  induction 1 as [|a hl [b Hb] _ IH]; [reflexivity|].
  cbn [filter]. rewrite matched_findMatch, Hb. now f_equal.
Qed.

(** X13.  Feeds that agree score perfectly: when every candle of the
    trade-derived series (at most 100, not empty, closes positive and
    finite) finds a feed candle of its bucket with the same close, the
    computed metrics are 100 percent matched and a mean deviation of
    exactly 0 bps. *)
Theorem X13_agreeing_feeds :
  forall hl gr,
    hl <> [] -> (length hl <= 100)%nat ->
    Forall (fun a => positive_finite (close a) /\
                     exists b, findMatch gr a = Some b /\ close b = close a)
           hl ->
    computedMetrics hl gr
    = {| matchedPct := of_Z 100; meanPriceBps := zero;
         avgLatencyDiffMs := zero |}.
Proof.
  intros hl gr Hne Hlen Hall.
  assert (Hm : matchedCandles hl gr = hl).
  { apply matchedCandles_all. eapply Forall_impl; [|exact Hall].
    intros a [_ [b [Hb _]]]. eauto. }
  assert (Hn : (1 <= length hl)%nat) by (destruct hl; [congruence | cbn; lia]).
  rewrite computedMetrics_spec. f_equal.
  - unfold roundedMatchedPct, matchCount. rewrite Hm.
    destruct (Nat.ltb_spec 0 (length hl)) as [_|]; [|lia].
    destruct (pctOf_nearest (length hl) (length hl)) as [p [Hp [Hr Hp']]];
      try lia.
    unfold pctOf in Hp. rewrite Hp. f_equal. nia.
  - unfold meanDeviationBps, deviationSum, matchCount. rewrite Hm.
    destruct (Nat.ltb_spec 0 (length hl)) as [_|]; [|lia].
    rewrite fold_add_zero.
    + destruct (of_nat_finite (length hl)) as [m [e ->]]; [lia | lia |].
      reflexivity.
    + apply Forall_map. eapply Forall_impl; [|exact Hall].
      intros a [Hpos [b [Hb Hc]]]. unfold deviation, priceDiff.
      rewrite Hb, Hc.
      destruct (positive_finite_cases _ Hpos) as [m [e E]].
      rewrite sub_same by (rewrite E; reflexivity).
      rewrite E. reflexivity.
Qed.

Lemma X13_agreeing_feeds_witness :
  computedMetrics scenarioA scenarioA
  = {| matchedPct := of_Z 100; meanPriceBps := zero;
       avgLatencyDiffMs := zero |}.
Proof.
  apply (X13_agreeing_feeds scenarioA scenarioA).
  - discriminate.
  - cbn. lia.
  - repeat constructor; cbn; eauto.
Defined.

Lemma nonneg_not_nan (x : number) : nonneg x -> is_nan x = false.
Proof. now destruct x. Qed.

Lemma binary_round_aux_not_nan (s : bool) (m e : Z) (l : location) :
  0 <= m -> is_nan (binary_round_aux prec emax s m e l) = false.
Proof.
  intros Hm. pose proof (binary_round_aux_nonneg m e l Hm) as Hn.
  destruct s; [rewrite binary_round_aux_opp|]; apply nonneg_not_nan in Hn.
  - now destruct (binary_round_aux prec emax false m e l).
  - exact Hn.
Qed.

Lemma binary_normalize_not_nan (m e : Z) :
  is_nan (binary_normalize prec emax m e false) = false.
Proof.
  destruct m as [|p|p]; cbn [binary_normalize]; [reflexivity| |];
    unfold binary_round, shl_align;
    destruct (fexp prec emax (Zpos (digits2_pos p) + e) - e);
    apply binary_round_aux_not_nan; lia.
Qed.

Lemma sub_not_nan (a b : number) :
  is_finite a = true -> is_nan b = false -> is_nan (sub a b) = false.
Proof.
  destruct a as [sa|sa| |sa ma ea], b as [sb|sb| |sb mb eb];
    try discriminate; intros _ _; try reflexivity.
  - now destruct sa, sb.
  - apply binary_normalize_not_nan.
Qed.

Lemma abs_nonneg (x : number) : is_nan x = false -> nonneg (Math_abs x).
Proof. now destruct x. Qed.

Lemma div_nonneg (x : number) (m : positive) (e : Z) :
  nonneg x -> nonneg (div x (S754_finite false m e)).
Proof.
  intros Hx. apply nonneg_cases in Hx as [[s ->] | [-> | [mx [ex ->]]]];
    try (now destruct s); try reflexivity.
  unfold div, SFdiv, SFdiv_core_binary.
  set (e' := Z.min _ _). set (sh := ex - e - e').
  set (m' := match sh with Z0 => Zpos mx | Zpos _ => Z.shiftl (Zpos mx) sh
                         | Zneg _ => 0 end).
  assert (Hm' : 0 <= m').
  { unfold m'. destruct sh; try lia. apply Z.shiftl_nonneg. lia. }
  pose proof (Z.div_pos m' (Zpos m) Hm' ltac:(lia)) as Hq.
  unfold Z.div in Hq. destruct (Z.div_eucl m' (Zpos m)) as [q r].
  cbn [fst] in Hq. cbn [xorb]. now apply binary_round_aux_nonneg.
Qed.

Lemma mul_nonneg (x : number) (m : positive) (e : Z) :
  nonneg x -> nonneg (mul (S754_finite false m e) x).
Proof.
  intros Hx. apply nonneg_cases in Hx as [[s ->] | [-> | [mx [ex ->]]]];
    try (now destruct s); try reflexivity.
  unfold mul, SFmul. cbn [xorb]. apply binary_round_aux_nonneg. lia.
Qed.

Lemma fold_add_nonneg (l : list number) (acc : number) :
  Forall nonneg l -> nonneg acc -> nonneg (fold_left add l acc).
Proof.
  intros Hl. revert acc. induction Hl as [|x l Hx _ IH]; intros acc Hacc.
  - exact Hacc.
  - cbn [fold_left]. apply IH. now apply add_nonneg.
Qed.

Lemma deviation_nonneg (gr : list Candle) (a : Candle) :
  positive_finite (close a) ->
  Forall (fun b => is_nan (close b) = false) gr ->
  nonneg (deviation gr a).
Proof.
  intros Ha Hgr. unfold deviation.
  destruct (findMatch gr a) as [b|] eqn:Eb; [|reflexivity].
  apply find_some in Eb as [Hb _].
  rewrite Forall_forall in Hgr. specialize (Hgr b Hb).
  unfold priceDiff.
  destruct (positive_finite_cases _ Ha) as [m [e E]]. rewrite E.
  apply div_nonneg, abs_nonneg, sub_not_nan; [reflexivity | exact Hgr].
Qed.

(** X14.  The mean deviation shown is never negative and never NaN when
    the prices are sound: for a trade-derived series whose closes are
    positive and finite and a feed series whose closes are not NaN, the
    computed [meanPriceBps] is zero, a positive number or [+Infinity]. *)
Theorem X14_meanPriceBps_nonneg :
  forall hl gr,
    Forall (fun a => positive_finite (close a)) hl ->
    Forall (fun b => is_nan (close b) = false) gr ->
    Z.of_nat (length hl) < 2 ^ 53 ->
    nonneg (meanPriceBps (computedMetrics hl gr)) /\
    is_nan (meanPriceBps (computedMetrics hl gr)) = false.
Proof.
  intros hl gr Hhl Hgr Hlen.
  assert (H : nonneg (meanPriceBps (computedMetrics hl gr))).
  { rewrite computedMetrics_spec. cbn [meanPriceBps]. unfold meanDeviationBps.
    destruct (Nat.ltb_spec 0 (matchCount hl gr)) as [Hc|]; [|reflexivity].
    pose proof (matchCount_le hl gr) as Hle.
    destruct (of_nat_finite (matchCount hl gr)) as [m [e ->]]; [lia | lia |].
    change (of_Z 10000) with (S754_finite false 5497558138880000 (-39)).
    apply mul_nonneg, div_nonneg. unfold deviationSum.
    apply fold_add_nonneg; [|reflexivity].
    apply Forall_map, Forall_forall. intros a Ha.
    apply filter_In in Ha as [Ha _].
    rewrite Forall_forall in Hhl. apply deviation_nonneg; auto. }
  split; [exact H | now apply nonneg_not_nan].
Qed.

Lemma X14_meanPriceBps_nonneg_witness :
  nonneg (meanPriceBps (computedMetrics scenarioA scenarioB)).
Proof.
  apply (X14_meanPriceBps_nonneg scenarioA scenarioB).
  - repeat constructor.
  - repeat constructor.
  - cbn. lia.
Defined.

(* ================================================================== *)
(** * Bucket starts as binary64 numbers: equality and order *)
(* ================================================================== *)

Lemma ltb_finite_zero (s : bool) (m : positive) (e : Z) :
  ltb (S754_finite s m e) zero = s.
Proof. now destruct s. Qed.

Lemma sub_of_Z_neg (x y : Z) :
  - 2 ^ 53 < x < 2 ^ 53 -> - 2 ^ 53 < y < 2 ^ 53 ->
  ltb (sub (of_Z x) (of_Z y)) zero = (x - y <? 0).
Proof.
  intros Hx Hy.
  destruct (Z.eq_dec x 0) as [->|Hx0]; destruct (Z.eq_dec y 0) as [->|Hy0].
  - reflexivity.
  - destruct (of_Z_repr y Hy0 Hy) as (s & m & e & -> & He & Hv).
    change (of_Z 0) with zero. cbn [sub SFsub zero]. rewrite ltb_finite_zero.
    assert (0 < 2 ^ (- e)) by (apply Z.pow_pos_nonneg; lia).
    destruct s; cbn [cond_Zopp negb] in *; symmetry;
      [apply Z.ltb_ge | apply Z.ltb_lt]; nia.
  - destruct (of_Z_repr x Hx0 Hx) as (s & m & e & -> & He & Hv).
    change (of_Z 0) with zero. cbn [sub SFsub zero]. rewrite ltb_finite_zero.
    assert (0 < 2 ^ (- e)) by (apply Z.pow_pos_nonneg; lia).
    destruct s; cbn [cond_Zopp negb] in *; symmetry;
      [apply Z.ltb_lt | apply Z.ltb_ge]; nia.
  - destruct (of_Z_repr x Hx0 Hx) as (sx & mx & ex & -> & Hex & Hvx).
    destruct (of_Z_repr y Hy0 Hy) as (sy & my & ey & -> & Hey & Hvy).
    unfold sub, SFsub.
    set (ez := Z.min ex ey).
    assert (Hx' : cond_Zopp sx (Zpos (fst (shl_align mx ex ez))) = x * 2 ^ (- ez)).
    { rewrite shl_align_value by lia.
      replace (- ez) with (- ex + (ex - ez)) by lia.
      rewrite Z.pow_add_r by lia. destruct sx; cbn [cond_Zopp] in *; lia. }
    assert (Hy' : cond_Zopp sy (Zpos (fst (shl_align my ey ez))) = y * 2 ^ (- ez)).
    { rewrite shl_align_value by lia.
      replace (- ez) with (- ey + (ey - ez)) by lia.
      rewrite Z.pow_add_r by lia. destruct sy; cbn [cond_Zopp] in *; lia. }
    rewrite Hx', Hy'.
    assert (Hp : 0 < 2 ^ (- ez)) by (apply Z.pow_pos_nonneg; lia).
    assert (Hez : emin prec emax <= ez) by (unfold emin, prec, emax; lia).
    unfold binary_normalize.
    destruct (x * 2 ^ (- ez) - y * 2 ^ (- ez)) as [|D|D] eqn:ED.
    + symmetry. apply Z.ltb_ge. nia.
    + destruct (binary_round_sign false D ez Hez) as [(M & E & ->)| ->];
        symmetry; apply Z.ltb_ge; nia.
    + destruct (binary_round_sign true D ez Hez) as [(M & E & ->)| ->];
        symmetry; apply Z.ltb_lt; nia.
Qed.

(** X15.  The sort comparator [a.ts - b.ts] decides by the integers: for
    time values of magnitude below 2^53 ms the binary64 difference is
    positive exactly when the first bucket start is the larger integer
    and negative exactly when it is the smaller one; with a NaN timestamp
    on either side it is neither. *)
Theorem X15_comparator_sign :
  forall a b,
    safe (ts a) -> safe (ts b) ->
    let d := sub (number_of_ts (ts a)) (number_of_ts (ts b)) in
    ltb zero d = (0 <? compareTs a b) /\
    ltb d zero = (compareTs a b <? 0) /\
    (ts_valid (ts a) && ts_valid (ts b) = false ->
     ltb zero d = false /\ ltb d zero = false).
Proof.
  intros a b. unfold compareTs.
  destruct (ts a) as [x|], (ts b) as [y|]; cbn [safe number_of_ts ts_sub];
    intros Ha Hb; cbn zeta.
  - split; [now apply sub_of_Z_pos|]. split; [now apply sub_of_Z_neg|].
    discriminate.
  - now destruct (of_Z x).
  - repeat split.
  - repeat split.
Qed.

Lemma X15_comparator_sign_witness :
  ltb zero (sub (number_of_ts (ts (candle 120000 1 1 1 1 1)))
                (number_of_ts (ts (candle 60000 1 1 1 1 1))))
  = true.
Proof.
  apply (X15_comparator_sign (candle 120000 1 1 1 1 1)
                             (candle 60000 1 1 1 1 1)); cbn; lia.
Defined.

(** X16.  Two trades update the same candle exactly when they fall in the
    same minute: for integer trade times from 0 to below 2^53 ms, the
    strict equality of the bucket starts computed in binary64 holds
    exactly when the integer minutes [time / 60000] are equal; and strict
    equality of two feed timestamps of magnitude below 2^53 ms is
    equality of the integers, a NaN timestamp being equal to nothing. *)
Theorem X16_same_minute_same_candle :
  (forall s t,
     0 <= s < 2 ^ 53 -> 0 <= t < 2 ^ 53 ->
     eqb (bucketStart_number (of_Z s)) (bucketStart_number (of_Z t))
     = (s / 60000 =? t / 60000)) /\
  (forall a b,
     safe a -> safe b ->
     eqb (number_of_ts a) (number_of_ts b) = ts_eqb a b) /\
  (forall a, ts_eqb InvalidTime a = false /\ ts_eqb a InvalidTime = false).
Proof.
  split; [|split].
  - intros s t Hs Ht.
    rewrite !bucketStart_number_correct by assumption.
    pose proof (bucketStart_range s ltac:(lia)).
    pose proof (bucketStart_range t ltac:(lia)).
    rewrite eqb_of_Z by lia. unfold bucketStart.
    destruct (Z.eqb_spec (s / 60000) (t / 60000)) as [E|E].
    + rewrite E. apply Z.eqb_refl.
    + apply Z.eqb_neq. lia.
  - apply ts_eqb_number.
  - intros [z|]; split; reflexivity.
Qed.

Lemma X16_same_minute_same_candle_witness :
  eqb (bucketStart_number (of_Z 1700000123456))
      (bucketStart_number (of_Z 1700000159999))
  = true.
Proof.
  apply (proj1 X16_same_minute_same_candle 1700000123456 1700000159999); lia.
Defined.

(* ================================================================== *)
(** * When the series are empty *)
(* ================================================================== *)

Lemma ingestTrades_nonempty (trs : list Trade) (prev : list Candle) :
  trs <> [] -> ingestTrades trs prev <> [].
Proof.
  destruct trs as [|tr trs _] using rev_ind; [congruence|].
  intros _. rewrite ingestTrades_snoc. apply ingestTrade_nonempty.
Qed.

Lemma ingestCandles_cons_nonempty (r : OhlcvRecord) (batch : list OhlcvRecord)
    (prev : list Candle) :
  ingestCandles (r :: batch) prev <> [].
Proof.
  cbn [ingestCandles]. unfold updateGrCandles. intros H.
  apply (f_equal (@length _)) in H.
  rewrite length_slice_last, sortCandles_length in H.
  pose proof (mergeBatch_nonempty r batch prev) as Hne.
  destruct (mergeBatch (r :: batch) prev); [contradiction | cbn in H; lia].
Qed.

Lemma ingestAll_empty (batches : list (list OhlcvRecord)) :
  ingestAll batches = [] <-> concat batches = [].
Proof.
  induction batches as [|b bs IH] using rev_ind; [tauto|].
  rewrite ingestAll_snoc, concat_app. cbn [concat]. rewrite app_nil_r.
  split.
  - intros H. pose proof (ingestCandles_nil _ _ H) as Hp.
    destruct b as [|r b]; [|now apply ingestCandles_cons_nonempty in H].
    rewrite app_nil_r. now apply IH.
  - intros H. apply app_eq_nil in H as [H ->]. cbn. now apply IH.
Qed.

(** X17.  A series is empty exactly as long as nothing was received for
    it: after every run the trade-derived series is empty if and only if
    no trade has arrived, and the feed series is empty if and only if no
    candle record has arrived; so the metrics stay all zero until both a
    trade and a candle record have arrived, and no later event empties a
    series again. *)
Theorem X17_empty_until_first_data :
  forall evs,
    (hlCandles (run evs) = [] <-> tradesOf evs = []) /\
    (grCandles (run evs) = [] <-> concat (batchesOf evs) = []) /\
    (tradesOf evs = [] \/ concat (batchesOf evs) = [] ->
     metrics (run evs) = metrics0).
Proof.
  intro evs.
  assert (H1 : hlCandles (run evs) = [] <-> tradesOf evs = []).
  { rewrite run_hlCandles. split.
    - intros H. destruct (tradesOf evs) as [|tr trs] eqn:E; [reflexivity|].
      exfalso. revert H. apply ingestTrades_nonempty. discriminate.
    - now intros ->. }
  assert (H2 : grCandles (run evs) = [] <-> concat (batchesOf evs) = []).
  { rewrite run_grCandles. apply ingestAll_empty. }
  split; [exact H1 | split; [exact H2|]].
  intros H. apply run_metrics, eitherEmpty_spec. tauto.
Qed.

Lemma X17_empty_until_first_data_witness :
  metrics (run [WsTrades [trade 1000 5 1]; GrNext (Some []) ""%string])
  = metrics0.
Proof.
  apply (X17_empty_until_first_data
           [WsTrades [trade 1000 5 1]; GrNext (Some []) ""%string]).
  right. reflexivity.
Defined.
